(** * Signal / intrusive list: a heap model of [intrusive_list.h] and [signals.h]

    Objects are identified by their address.  A connection inherits from
    [intrusive_list_node<signal_tag>], so a connection and its link cell share
    one address; a signal's first member is its list, whose only member is the
    sentinel [end_], so a signal and its sentinel share one address too.
    Reading or writing through an address that holds no live object is
    undefined behaviour in C++; the model returns [None] there. *)

From stdpp Require Import gmap list fin_maps.

Set Warnings "-clear-no-such-hyp".

Abbreviation addr := nat.

(** ** intrusive_list.h : [details::intrusive_list_node] *)

Record node := Node { prev : addr; next : addr }.

Module INode.

Definition get_prev (p : addr) (nd : gmap addr node) : option addr :=
  prev <$> nd !! p.

Definition get_next (p : addr) (nd : gmap addr node) : option addr :=
  next <$> nd !! p.

(** [p->prev = v] *)
Definition set_prev (p v : addr) (nd : gmap addr node) : option (gmap addr node) :=
  n ← nd !! p; Some (<[p := Node v (next n)]> nd).

(** [p->next = v] *)
Definition set_next (p v : addr) (nd : gmap addr node) : option (gmap addr node) :=
  n ← nd !! p; Some (<[p := Node (prev n) v]> nd).

(** [intrusive_list_node() : prev(this), next(this) {}] on fresh storage. *)
Definition construct (p : addr) (nd : gmap addr node) : option (gmap addr node) :=
  match nd !! p with
  | Some _ => None
  | None => Some (<[p := Node p p]> nd)
  end.

(** [bool empty() { return next == this && prev == this; }] *)
Definition empty (p : addr) (nd : gmap addr node) : option bool :=
  n ← nd !! p; Some (bool_decide (next n = p) && bool_decide (prev n = p)).

(** [void quite_remove() { prev = this; next = this; }] *)
Definition quite_remove (p : addr) (nd : gmap addr node) : option (gmap addr node) :=
  nd ← set_prev p p nd; set_next p p nd.

(** [void update() { next->prev = this; prev->next = this; }]
    Each statement reads the field of [this] afresh. *)
Definition update (p : addr) (nd : gmap addr node) : option (gmap addr node) :=
  nx ← get_next p nd;
  nd ← set_prev nx p nd;
  pv ← get_prev p nd;
  set_next pv p nd.

(** [void remove() { if (!empty()) { next->prev = prev; prev->next = next; }
                     quite_remove(); }] *)
Definition remove (p : addr) (nd : gmap addr node) : option (gmap addr node) :=
  e ← empty p nd;
  if e : bool then quite_remove p nd
  else
    nx ← get_next p nd;
    pv ← get_prev p nd;
    nd ← set_prev nx pv nd;
    pv ← get_prev p nd;
    nx ← get_next p nd;
    nd ← set_next pv nx nd;
    quite_remove p nd.

(** [intrusive_list_node(intrusive_list_node&& other)]: the fields of the
    new node [p] are only written in the body, so the node starts out with
    indeterminate links; the storage must be free. *)
Definition move_construct (p other : addr) (nd : gmap addr node)
  : option (gmap addr node) :=
  match nd !! p with
  | Some _ => None
  | None =>
      e ← empty other nd;
      if e : bool then Some (<[p := Node p p]> nd)
      else
        nx ← get_next other nd;
        pv ← get_prev other nd;
        update p (<[p := Node pv nx]> nd) ≫= quite_remove other
  end.

(** [void swap(intrusive_list_node& other)] *)
Definition swap (p other : addr) (nd : gmap addr node) : option (gmap addr node) :=
  e1 ← empty p nd;
  e2 ← empty other nd;
  if e1 && e2 then Some nd
  else if e1 || e2 then
    let empt := if e1 then p else other in
    let not_empt := if negb e1 then p else other in
    nx ← get_next not_empt nd;
    nd ← set_next empt nx nd;
    pv ← get_prev not_empt nd;
    nd ← set_prev empt pv nd;
    nd ← update empt nd;
    quite_remove not_empt nd
  else
    a ← get_prev p nd; b ← get_prev other nd;
    nd ← set_prev p b nd; nd ← set_prev other a nd;
    a ← get_next p nd; b ← get_next other nd;
    nd ← set_next p b nd; nd ← set_next other a nd;
    nd ← update p nd;
    update other nd.

(** [~intrusive_list_node() { remove(); }], after which the storage is gone. *)
Definition destroy (p : addr) (nd : gmap addr node) : option (gmap addr node) :=
  delete p <$> remove p nd.

(** [operator=(intrusive_list_node&& other)]:
    [if (&other != this) intrusive_list_node(std::move(other)).swap( *this );]
    The temporary lives at an address not otherwise in use and is destroyed
    at the end of the full expression. *)
Definition move_assign (p other : addr) (nd : gmap addr node)
  : option (gmap addr node) :=
  if bool_decide (other = p) then Some nd
  else
    let tmp := fresh (dom nd) in
    nd ← move_construct tmp other nd;
    nd ← swap tmp p nd;
    destroy tmp nd.

End INode.

(** ** intrusive_list.h : [intrusive_list<T, Tag>]

    A list is its sentinel [end_]; iterators are node addresses. *)

Module IList.

(** [iterator begin() { return iterator(end_.next); }] *)
Definition begin (s : addr) (nd : gmap addr node) : option addr :=
  INode.get_next s nd.

(** [insert(const_iterator it, T const& value)]:
    [node->remove(); node->prev = it.ptr->prev; node->next = it.ptr;
     node->update();] *)
Definition insert (it c : addr) (nd : gmap addr node) : option (gmap addr node) :=
  nd ← INode.remove c nd;
  pv ← INode.get_prev it nd;
  nd ← INode.set_prev c pv nd;
  nd ← INode.set_next c it nd;
  INode.update c nd.

(** [push_back(T const& value) { return insert(end(), value); }] *)
Definition push_back (s c : addr) (nd : gmap addr node) : option (gmap addr node) :=
  insert s c nd.

(** [erase(iterator it) { iterator del = it++; del.ptr->remove(); return it; }] *)
Definition erase (it : addr) (nd : gmap addr node)
  : option (addr * gmap addr node) :=
  nx ← INode.get_next it nd;
  nd ← INode.remove it nd;
  Some (nx, nd).

(** [~intrusive_list() { iterator it = begin(); while (it != end()) erase(it++); }]
    The C++ loop is unbounded; [fuel] bounds the walk, and a walk that does
    not reach the sentinel within [fuel] steps yields [None]. *)
Fixpoint clear (fuel : nat) (it s : addr) (nd : gmap addr node)
  : option (gmap addr node) :=
  if bool_decide (it = s) then Some nd
  else match fuel with
       | 0 => None
       | S fuel =>
           nx ← INode.get_next it nd;
           r ← erase it nd;
           clear fuel nx s r.2
       end.

(** [bool empty() const noexcept { return &end_ == end_.next; }] *)
Definition empty (s : addr) (nd : gmap addr node) : option bool :=
  nx ← INode.get_next s nd; Some (bool_decide (s = nx)).

(** [iterator_t operator++() { ptr = ptr->next; return iterator_t(ptr); }] *)
Definition incr (it : addr) (nd : gmap addr node) : option addr :=
  INode.get_next it nd.

(** [iterator_t operator--() { ptr = ptr->prev; return iterator_t(ptr); }] *)
Definition decr (it : addr) (nd : gmap addr node) : option addr :=
  INode.get_prev it nd.

(** The whole of [~intrusive_list()]: the loop from [begin()], then the
    destructor of the sentinel [end_]. *)
Definition destroy (s : addr) (nd : gmap addr node) : option (gmap addr node) :=
  b ← begin s nd;
  nd ← clear (size nd) b s nd;
  INode.destroy s nd.

End IList.

(** ** signals.h *)

Abbreviation fid := nat.
Abbreviation Args := nat.

(** [struct connection : base_node { slot_t slot; signal* sig{nullptr}; }]
    The callable held by [slot] is named by an identifier; an empty
    [std::function] is [None]. *)
Record connection := Conn { slot : option fid; sig : option addr }.

(** [struct iterator_holder { iterator_holder* prev; const_iterator current;
                              signal const* sig; }] *)
Record iterator_holder :=
  Holder { it_prev : option addr; current : addr; it_sig : option addr }.

(** What a test would record: a slot called through a connection, and notes
    written by callback bodies. *)
Inductive event :=
| Call (c : addr) (f : fid) (a : Args)
| Noted (k : nat).

Record heap := Heap {
  nodes : gmap addr node;
  conns : gmap addr connection;
  tails : gmap addr (option addr);        (* signal ↦ its [tail] member *)
  holders : gmap addr iterator_holder;
  trace : list event
}.

Definition with_nodes (nd : gmap addr node) (st : heap) : heap :=
  Heap nd (conns st) (tails st) (holders st) (trace st).
Definition with_conns (cs : gmap addr connection) (st : heap) : heap :=
  Heap (nodes st) cs (tails st) (holders st) (trace st).
Definition with_tails (ts : gmap addr (option addr)) (st : heap) : heap :=
  Heap (nodes st) (conns st) ts (holders st) (trace st).
Definition with_holders (hs : gmap addr iterator_holder) (st : heap) : heap :=
  Heap (nodes st) (conns st) (tails st) hs (trace st).
Definition record (e : event) (st : heap) : heap :=
  Heap (nodes st) (conns st) (tails st) (holders st) (trace st ++ [e]).

Definition empty_heap : heap := Heap ∅ ∅ ∅ ∅ [].

(** [signal() = default;] *)
Definition new_signal (s : addr) (st : heap) : option heap :=
  match tails st !! s with
  | Some _ => None
  | None =>
      nd ← INode.construct s (nodes st);
      Some (with_tails (<[s := None]> (tails st)) (with_nodes nd st))
  end.

(** [connection() = default;] *)
Definition default_connection (c : addr) (st : heap) : option heap :=
  match conns st !! c with
  | Some _ => None
  | None =>
      nd ← INode.construct c (nodes st);
      Some (with_conns (<[c := Conn None None]> (conns st)) (with_nodes nd st))
  end.

(** [connection connect(slot_t slt) { return connection(this, slt); }] with
    [connection(signal* sig, slot_t slot) : sig(sig), slot(std::move(slot))
       { sig->list.push_back( *this ); }]
    The returned prvalue is constructed in the caller's storage [c]. *)
Definition connect (c s : addr) (f : option fid) (st : heap) : option heap :=
  match conns st !! c with
  | Some _ => None
  | None =>
      _ ← tails st !! s;
      nd ← INode.construct c (nodes st);
      nd ← IList.push_back s c nd;
      Some (with_conns (<[c := Conn f (Some s)]> (conns st)) (with_nodes nd st))
  end.

(** The loop of [disconnect]:
    [for (iterator_holder* cur = sig->tail; cur != nullptr; cur = cur->prev)
       if (this == &( *(cur->current))) ++(cur->current);]
    [fuel] bounds the walk along [prev]; a chain longer than [fuel] (a cyclic
    one, on which the C++ loop would not stop) yields [None]. *)
Fixpoint steer (fuel : nat) (cur : option addr) (c : addr)
    (nd : gmap addr node) (hs : gmap addr iterator_holder)
  : option (gmap addr iterator_holder) :=
  match cur with
  | None => Some hs
  | Some h =>
      match fuel with
      | 0 => None
      | S fuel =>
          hd ← hs !! h;
          if bool_decide (c = current hd) then
            nx ← INode.get_next (current hd) nd;
            steer fuel (it_prev hd) c nd
                  (<[h := Holder (it_prev hd) nx (it_sig hd)]> hs)
          else steer fuel (it_prev hd) c nd hs
      end
  end.

(** [void disconnect()] *)
Definition disconnect (c : addr) (st : heap) : option heap :=
  cn ← conns st !! c;
  match sig cn with
  | None => Some st
  | Some s =>
      t ← tails st !! s;
      hs ← steer (size (holders st)) t c (nodes st) (holders st);
      nd ← INode.remove c (nodes st);
      Some (Heap nd (<[c := Conn (slot cn) None]> (conns st)) (tails st) hs (trace st))
  end.

(** [~connection() { disconnect(); }] followed by the destructor of the base
    node; the storage is gone afterwards. *)
Definition destroy_connection (c : addr) (st : heap) : option heap :=
  st ← disconnect c st;
  nd ← INode.destroy c (nodes st);
  Some (with_conns (delete c (conns st)) (with_nodes nd st)).

(** [connection(connection&& other) : slot(std::move(other.slot)), sig(other.sig)
      { this->update();
        if (sig) sig->list.insert(++(typename connection_list::iterator(&other)), *this );
        other.disconnect(); }]
    The base node is default-constructed; moving from a [std::function] leaves
    it empty. *)
Definition move_construct (c other : addr) (st : heap) : option heap :=
  match conns st !! c with
  | Some _ => None
  | None =>
      ocn ← conns st !! other;
      nd ← INode.construct c (nodes st);
      let cs := <[c := Conn (slot ocn) (sig ocn)]>
                  (<[other := Conn None (sig ocn)]> (conns st)) in
      nd ← INode.update c nd;
      nd ← match sig ocn with
           | Some _ => pos ← INode.get_next other nd; IList.insert pos c nd
           | None => Some nd
           end;
      disconnect other (with_conns cs (with_nodes nd st))
  end.

(** [void swap(connection& other)]: the base nodes, then [slot], then [sig]. *)
Definition swap_connection (c other : addr) (st : heap) : option heap :=
  nd ← INode.swap c other (nodes st);
  cn ← conns st !! c;
  ocn ← conns st !! other;
  Some (with_conns (<[other := cn]> (<[c := ocn]> (conns st))) (with_nodes nd st)).

(** [connection& operator=(connection&& other)
      { if (&other != this) connection(std::move(other)).swap( *this ); return *this; }] *)
Definition move_assign (c other : addr) (st : heap) : option heap :=
  if bool_decide (other = c) then Some st
  else
    let tmp := fresh (dom (nodes st) ∪ dom (conns st)) in
    st ← move_construct tmp other st;
    st ← swap_connection tmp c st;
    destroy_connection tmp st.

(** First loop of [~signal()]:
    [while (tail != nullptr) { it = tail->prev; tail->sig = nullptr; tail = it; }] *)
Fixpoint null_holders (fuel : nat) (cur : option addr)
    (hs : gmap addr iterator_holder) : option (gmap addr iterator_holder) :=
  match cur with
  | None => Some hs
  | Some h =>
      match fuel with
      | 0 => None
      | S fuel =>
          hd ← hs !! h;
          null_holders fuel (it_prev hd)
                       (<[h := Holder (it_prev hd) (current hd) None]> hs)
      end
  end.

(** Second loop of [~signal()]:
    [for (it = list.begin(); it != list.end(); ++it) it->sig = nullptr;] *)
Fixpoint null_sigs (fuel : nat) (it s : addr) (nd : gmap addr node)
    (cs : gmap addr connection) : option (gmap addr connection) :=
  if bool_decide (it = s) then Some cs
  else match fuel with
       | 0 => None
       | S fuel =>
           cn ← cs !! it;
           nx ← INode.get_next it nd;
           null_sigs fuel nx s nd (<[it := Conn (slot cn) None]> cs)
       end.

(** [~signal()], then the destructor of the member [list], then that of its
    sentinel. *)
Definition destroy_signal (s : addr) (st : heap) : option heap :=
  t ← tails st !! s;
  hs ← null_holders (size (holders st)) t (holders st);
  b ← IList.begin s (nodes st);
  cs ← null_sigs (size (nodes st)) b s (nodes st) (conns st);
  b ← IList.begin s (nodes st);
  nd ← IList.clear (size (nodes st)) b s (nodes st);
  nd ← INode.destroy s nd;
  Some (Heap nd cs (delete s (tails st)) hs (trace st)).

(** ** Client code and dispatch

    A callback body is a sequence of library calls.  [operator()] runs such
    bodies, and a body may call [operator()] again, so the interpreter is
    indexed by a bound on the number of loop iterations and nested emissions. *)

Inductive cmd :=
| Note (k : nat)
| NewSignal (s : addr)                  (* signal s; *)
| DestroySignal (s : addr)              (* s.~signal() *)
| Connect (c s : addr) (f : fid)        (* connection c = s.connect(f); *)
| DefaultConnection (c : addr)          (* connection c; *)
| MoveConstruct (c other : addr)        (* connection c(std::move(other)); *)
| MoveAssign (c other : addr)           (* c = std::move(other); *)
| Disconnect (c : addr)                 (* c.disconnect(); *)
| DestroyConnection (c : addr)          (* c.~connection() *)
| Emit (s : addr) (a : Args)            (* s(a); *)
| Throw.                                (* throw ...; *)

Inductive outcome :=
| Done (st : heap)          (* returned normally *)
| Threw (st : heap)         (* left by an exception *)
| Undefined                 (* undefined behaviour *)
| OutOfFuel.

Definition lift (r : option heap) : outcome :=
  match r with Some st => Done st | None => Undefined end.

(** [iterator_holder(signal* sig)
      : sig(sig), current(sig->list.begin()), prev(sig->tail) { sig->tail = this; }] *)
Definition push_holder (h s : addr) (st : heap) : option heap :=
  t ← tails st !! s;
  b ← IList.begin s (nodes st);
  Some (with_tails (<[s := Some h]> (tails st))
          (with_holders (<[h := Holder t b (Some s)]> (holders st)) st)).

(** [~iterator_holder() { if (sig) { sig->tail = prev; sig = nullptr; } }] *)
Definition pop_holder (h : addr) (st : heap) : option heap :=
  hd ← holders st !! h;
  match it_sig hd with
  | Some s =>
      _ ← tails st !! s;
      Some (with_tails (<[s := it_prev hd]> (tails st))
              (with_holders (delete h (holders st)) st))
  | None => Some (with_holders (delete h (holders st)) st)
  end.

(** The holder is destroyed on every way out of [operator()]. *)
Definition unwind (h : addr) (o : outcome) : outcome :=
  match o with
  | Done st => lift (pop_holder h st)
  | Threw st => match pop_holder h st with
                | Some st => Threw st
                | None => Undefined
                end
  | o => o
  end.

Section Dispatch.

(** The body of each callable. *)
Variable prog : fid → list cmd.

Section Body.

(** [operator()] as seen from a callback body. *)
Variable emit_rec : addr → Args → heap → outcome.

Definition exec_cmd (c : cmd) (st : heap) : outcome :=
  match c with
  | Note k => Done (record (Noted k) st)
  | NewSignal s => lift (new_signal s st)
  | DestroySignal s => lift (destroy_signal s st)
  | Connect c s f => lift (connect c s (Some f) st)
  | DefaultConnection c => lift (default_connection c st)
  | MoveConstruct c other => lift (move_construct c other st)
  | MoveAssign c other => lift (move_assign c other st)
  | Disconnect c => lift (disconnect c st)
  | DestroyConnection c => lift (destroy_connection c st)
  | Emit s a => emit_rec s a st
  | Throw => Threw st
  end.

Fixpoint exec (cs : list cmd) (st : heap) : outcome :=
  match cs with
  | [] => Done st
  | c :: cs =>
      match exec_cmd c st with
      | Done st => exec cs st
      | o => o
      end
  end.

(** [for (...; it.current != list.end();) {
       (it.current++)->slot(args...);
       if (!it.sig) return; }]
    for the holder [h] of an emission on signal [s]. *)
Fixpoint loop (n : nat) (h s : addr) (a : Args) (st : heap) : outcome :=
  match n with
  | 0 => OutOfFuel
  | S n =>
      match holders st !! h with
      | None => Undefined
      | Some hd =>
          if bool_decide (current hd = s) then Done st
          else
            match INode.get_next (current hd) (nodes st),
                  conns st !! current hd with
            | Some nx, Some cn =>
                let st := with_holders
                            (<[h := Holder (it_prev hd) nx (it_sig hd)]>
                               (holders st)) st in
                match slot cn with
                | None => Threw st          (* std::bad_function_call *)
                | Some f =>
                    match exec (prog f) (record (Call (current hd) f a) st) with
                    | Done st =>
                        match holders st !! h with
                        | None => Undefined
                        | Some hd =>
                            match it_sig hd with
                            | None => Done st
                            | Some _ => loop n h s a st
                            end
                        end
                    | o => o
                    end
                end
            | _, _ => Undefined
            end
      end
  end.

(** [void operator()(Args_... args)] *)
Definition emit_body (n : nat) (s : addr) (a : Args) (st : heap) : outcome :=
  let h := fresh (dom (holders st)) in
  match push_holder h s st with
  | None => Undefined
  | Some st => unwind h (loop n h s a st)
  end.

End Body.

Fixpoint emit (n : nat) (s : addr) (a : Args) (st : heap) : outcome :=
  match n with
  | 0 => OutOfFuel
  | S n => emit_body (emit n) n s a st
  end.

(** A client program run from outside any emission. *)
Definition run (n : nat) (cs : list cmd) (st : heap) : outcome :=
  exec (emit n) cs st.

End Dispatch.



(** ** Vocabulary of the properties *)

(** A node outside every list: [prev == next == this]. *)
Definition idle (nd : gmap addr node) (a : addr) : Prop :=
  nd !! a = Some (Node a a).

(** [a] sits between [x] and [y], with both neighbours pointing back at it. *)
Definition linked_between (nd : gmap addr node) (x a y : addr) : Prop :=
  INode.get_prev a nd = Some x ∧ INode.get_next a nd = Some y ∧
  INode.get_next x nd = Some a ∧ INode.get_prev y nd = Some a.

(** Following [next] from [p] visits exactly [l] and then arrives at [c]. *)
Fixpoint fwd (nd : gmap addr node) (p : addr) (l : list addr) (c : addr) : Prop :=
  match l with
  | [] => INode.get_next p nd = Some c
  | x :: l => INode.get_next p nd = Some x ∧ fwd nd x l c
  end.

(** Along [p], [l], [c] every node has its predecessor as [prev]. *)
Fixpoint bwd (nd : gmap addr node) (p : addr) (l : list addr) (c : addr) : Prop :=
  match l with
  | [] => INode.get_prev c nd = Some p
  | x :: l => INode.get_prev x nd = Some p ∧ bwd nd x l c
  end.

(** The list with sentinel [s] holds exactly the elements [l], in order:
    one cycle through the sentinel, with reciprocal links. *)
Definition is_list (nd : gmap addr node) (s : addr) (l : list addr) : Prop :=
  NoDup (s :: l) ∧ fwd nd s l s ∧ bwd nd s l s.

(** The element before the suffix that follows [l1], and the element a
    cursor at the front of [l2] points at. *)
Definition last_of (s : addr) (l1 : list addr) : addr := default s (last l1).
Definition head_of (s : addr) (l2 : list addr) : addr := default s (head l2).

(** The holder stack hanging off a [tail] pointer, innermost first. *)
Fixpoint hchain (hs : gmap addr iterator_holder) (t : option addr)
    (l : list addr) : Prop :=
  match l with
  | [] => t = None
  | h :: l => t = Some h ∧ ∃ hd, hs !! h = Some hd ∧ hchain hs (it_prev hd) l
  end.

(** What [disconnect] does to one holder when [c] departs and [nx] follows it. *)
Definition retarget (c nx : addr) (hd : iterator_holder) : iterator_holder :=
  if bool_decide (c = current hd) then Holder (it_prev hd) nx (it_sig hd) else hd.

(** What [~signal()] does to one holder. *)
Definition orphan (hd : iterator_holder) : iterator_holder :=
  Holder (it_prev hd) (current hd) None.

(** What [~signal()] does to one connection. *)
Definition disown (cn : connection) : connection := Conn (slot cn) None.

(** The cursor invariant of the dispatch machinery, for one signal [s] with
    elements [l]: every holder on the stack points at a linked connection or
    at the sentinel. *)
Definition cursors_ok (hs : gmap addr iterator_holder) (hl : list addr)
    (s : addr) (l : list addr) : Prop :=
  ∀ h hd, h ∈ hl → hs !! h = Some hd → current hd ∈ s :: l.

(** The connection invariant for one signal [s] whose list holds [l]:
    a connection names [s] as its owner exactly when it is an element. *)
Definition owners_ok (cs : gmap addr connection) (s : addr) (l : list addr) : Prop :=
  ∀ c, (∃ f, cs !! c = Some (Conn f (Some s))) ↔ c ∈ l.

(** Callback bodies that only write notes: they mutate nothing. *)
Definition is_note (c : cmd) : bool :=
  match c with Note _ => true | _ => false end.

Definition quiet_body (cs : list cmd) : Prop := forallb is_note cs = true.

Definition noted (cs : list cmd) : list event :=
  flat_map (λ c, match c with Note k => [Noted k] | _ => [] end) cs.

Definition slot_of (cs : gmap addr connection) (c : addr) : option fid :=
  cn ← cs !! c; slot cn.

Definition quiet (prog : fid → list cmd) (cs : gmap addr connection) (c : addr) : Prop :=
  match slot_of cs c with
  | Some f => quiet_body (prog f)
  | None => False
  end.

(** The events of calling the slot of [c] with [a], for a body that only
    writes notes; and of calling those of [l] one after the other. *)
Definition invocation (prog : fid → list cmd) (cs : gmap addr connection)
    (a : Args) (c : addr) : list event :=
  match slot_of cs c with
  | Some f => Call c f a :: noted (prog f)
  | None => []
  end.

Definition invocations (prog : fid → list cmd) (cs : gmap addr connection)
    (a : Args) (l : list addr) : list event :=
  flat_map (invocation prog cs a) l.

(** The heap as an emission leaves it between two callbacks: the holder [h]
    moved on to [cur], and the events [ev] recorded. *)
Definition advanced (h : addr) (hd : iterator_holder) (cur : addr)
    (ev : list event) (st : heap) : heap :=
  Heap (nodes st) (conns st) (tails st)
       (<[h := Holder (it_prev hd) cur (it_sig hd)]> (holders st))
       (trace st ++ ev).

(** ** Concrete heaps and programs used as instances *)

(** A signal at [1] with the listeners [11], [12], [13], connected in that
    order with the slots [1], [2], [3]; no emission in progress. *)
Definition demo_nodes : gmap addr node :=
  <[1 := Node 13 11]> (<[11 := Node 1 12]> (<[12 := Node 11 13]>
    (<[13 := Node 12 1]> ∅))).

Definition demo_conns : gmap addr connection :=
  <[11 := Conn (Some 1) (Some 1)]> (<[12 := Conn (Some 2) (Some 1)]>
    (<[13 := Conn (Some 3) (Some 1)]> ∅)).

Definition demo_heap : heap :=
  Heap demo_nodes demo_conns (<[1 := None]> ∅) ∅ [].

(** Bodies: every slot writes a note; the slot [2] then does what the name of
    the program says. *)
Definition quiet_prog (f : fid) : list cmd := [Note f].

Definition self_disconnect_prog (f : fid) : list cmd :=
  match f with
  | 2 => [Note 2; Disconnect 12]
  | _ => [Note f]
  end.

Definition destroy_signal_prog (f : fid) : list cmd :=
  match f with
  | 2 => [Note 2; DestroySignal 1]
  | _ => [Note f]
  end.

Definition connect_prog (f : fid) : list cmd :=
  match f with
  | 2 => [Note 2; Connect 14 1 4]
  | _ => [Note f]
  end.

Definition throw_prog (f : fid) : list cmd :=
  match f with
  | 2 => [Note 2; Throw; Note 99]
  | _ => [Note f]
  end.

Definition move_construct_prog (f : fid) : list cmd :=
  match f with
  | 2 => [Note 2; MoveConstruct 14 13]
  | _ => [Note f]
  end.

(** The slot [1] move-assigns the next listener [12] to a fresh idle
    connection [20]. *)
Definition move_assign_prog (f : fid) : list cmd :=
  match f with
  | 1 => [DefaultConnection 20; MoveAssign 20 12]
  | _ => []
  end.

(** [demo_heap] inside the callback of [11] during [s(7)]: the holder [0] has
    moved on to [12]. *)
Definition demo_in_callback : heap :=
  Heap demo_nodes demo_conns (<[1 := Some 0]> ∅)
       (<[0 := Holder None 12 (Some 1)]> ∅) [Call 11 1 7].

(** A lone list [1 → 2 → 3 → 1] of nodes, with idle nodes [4] and [6] and a
    second list [7 → 8 → 7]. *)
Definition demo_ring : gmap addr node :=
  <[1 := Node 3 2]> (<[2 := Node 1 3]> (<[3 := Node 2 1]>
    (<[4 := Node 4 4]> (<[6 := Node 6 6]>
      (<[7 := Node 8 8]> (<[8 := Node 7 7]> ∅)))))).

(** [demo_in_callback] after [connection c20; c20 = std::move(c12);]: the
    connection [20] has the place of [12], and the holder [0] points at [21],
    where the temporary of the assignment was. *)
Definition demo_after_move_assign : heap :=
  Heap (<[1 := Node 13 11]> (<[11 := Node 1 20]> (<[12 := Node 12 12]>
          (<[13 := Node 20 1]> (<[20 := Node 11 13]> ∅)))))
       (<[11 := Conn (Some 1) (Some 1)]> (<[12 := Conn None None]>
          (<[13 := Conn (Some 3) (Some 1)]>
             (<[20 := Conn (Some 2) (Some 1)]> ∅))))
       (<[1 := Some 0]> ∅)
       (<[0 := Holder None 21 (Some 1)]> ∅) [Call 11 1 7].

(** [demo_heap] after [c12 = std::move(c11);]: [12] and the destroyed
    temporary [14] were neighbours when they were swapped. *)
Definition demo_after_adjacent_assign : heap :=
  Heap (<[1 := Node 13 14]> (<[11 := Node 11 11]> (<[12 := Node 12 12]>
          (<[13 := Node 14 1]> ∅))))
       (<[11 := Conn None None]> (<[12 := Conn (Some 1) (Some 1)]>
          (<[13 := Conn (Some 3) (Some 1)]> ∅)))
       (<[1 := None]> ∅) ∅ [].

(** [demo_heap] with one more connection [20] that holds the slot [9] and
    has no owner. *)
Definition demo_with_idle : heap :=
  Heap (<[20 := Node 20 20]> demo_nodes)
       (<[20 := Conn (Some 9) None]> demo_conns) (<[1 := None]> ∅) ∅ [].

(** [demo_heap] where the connection [12] holds an empty [std::function]. *)
Definition demo_empty_slot : heap :=
  Heap demo_nodes (<[12 := Conn None (Some 1)]> demo_conns) (<[1 := None]> ∅) ∅ [].

(** The slot [1] disconnects the last listener. *)
Definition disconnect_later_prog (f : fid) : list cmd :=
  match f with
  | 1 => [Note 1; Disconnect 13]
  | _ => [Note f]
  end.

(** The slot [3], of the last listener, connects a new one. *)
Definition connect_last_prog (f : fid) : list cmd :=
  match f with
  | 3 => [Note 3; Connect 14 1 4]
  | _ => [Note f]
  end.

(** The slot [2] disconnects its own connection and emits the signal again. *)
Definition reentrant_prog (f : fid) : list cmd :=
  match f with
  | 2 => [Note 2; Disconnect 12; Emit 1 8; Note 22]
  | _ => [Note f]
  end.

(** [demo_ring] after [n3 = std::move(n2);], an assignment to the successor
    of the source: the address [9] is where the temporary was. *)
Definition demo_ring_after_assign_to_next : gmap addr node :=
  <[1 := Node 9 9]> (<[2 := Node 2 2]> (<[3 := Node 3 3]>
    (<[4 := Node 4 4]> (<[6 := Node 6 6]>
      (<[7 := Node 8 8]> (<[8 := Node 7 7]> ∅)))))).

(** [demo_ring] after [n1 = std::move(n2);], an assignment to the predecessor
    of the source. *)
Definition demo_ring_after_assign_to_prev : gmap addr node :=
  <[1 := Node 1 1]> (<[2 := Node 2 2]> (<[3 := Node 1 1]>
    (<[4 := Node 4 4]> (<[6 := Node 6 6]>
      (<[7 := Node 8 8]> (<[8 := Node 7 7]> ∅)))))).

(** * Facts about the node operations *)

Section NodeFacts.
Implicit Types (nd : gmap addr node) (a b c k p q x y : addr).

Lemma get_prev_insert k p n nd :
  INode.get_prev k (<[p := n]> nd) =
    if decide (k = p) then Some (prev n) else INode.get_prev k nd.
Proof. unfold INode.get_prev. case_decide; simplify_map_eq; done. Qed.

Lemma get_next_insert k p n nd :
  INode.get_next k (<[p := n]> nd) =
    if decide (k = p) then Some (next n) else INode.get_next k nd.
Proof. unfold INode.get_next. case_decide; simplify_map_eq; done. Qed.

Lemma get_prev_delete k p nd :
  INode.get_prev k (delete p nd) =
    if decide (k = p) then None else INode.get_prev k nd.
Proof. unfold INode.get_prev. case_decide; simplify_map_eq; done. Qed.

Lemma get_next_delete k p nd :
  INode.get_next k (delete p nd) =
    if decide (k = p) then None else INode.get_next k nd.
Proof. unfold INode.get_next. case_decide; simplify_map_eq; done. Qed.

Lemma lookup_fields nd k p n :
  INode.get_prev k nd = Some p → INode.get_next k nd = Some n →
  nd !! k = Some (Node p n).
Proof.
  unfold INode.get_prev, INode.get_next.
  destruct (nd !! k) as [[??]|]; naive_solver.
Qed.

Lemma fields_lookup nd k p n :
  nd !! k = Some (Node p n) →
  INode.get_prev k nd = Some p ∧ INode.get_next k nd = Some n.
Proof. unfold INode.get_prev, INode.get_next. by intros ->. Qed.

Lemma get_next_live nd k : is_Some (INode.get_next k nd) ↔ is_Some (nd !! k).
Proof. unfold INode.get_next. by rewrite fmap_is_Some. Qed.

Lemma get_prev_live nd k : is_Some (INode.get_prev k nd) ↔ is_Some (nd !! k).
Proof. unfold INode.get_prev. by rewrite fmap_is_Some. Qed.

Lemma fresh_node nd : nd !! fresh (dom nd) = None.
Proof. apply not_elem_of_dom, is_fresh. Qed.

Lemma idle_fields nd a :
  idle nd a ↔ INode.get_prev a nd = Some a ∧ INode.get_next a nd = Some a.
Proof.
  split; [apply fields_lookup | intros []; by apply lookup_fields].
Qed.

End NodeFacts.

Ltac split_lookup :=
  match goal with
  | |- context [ <[?i := _]> _ !! ?j ] =>
      tryif constr_eq i j then fail else destruct (decide (i = j))
  end.

Ltac node_unfold :=
  unfold INode.remove, INode.update, INode.quite_remove, INode.empty,
    INode.set_prev, INode.set_next, INode.get_prev, INode.get_next in *.

(** Symbolic execution of straight-line node code on a heap of inserts. *)
Ltac node_run :=
  simplify_map_eq/=;
  repeat (first [case_bool_decide | split_lookup]; simplify_map_eq/=).

Ltac node_done :=
  node_run; (eexists; split; [done|]); split; intros ?;
  repeat case_decide; node_run; done.

Section NodeOps.
Implicit Types (nd : gmap addr node) (a b c k p q x y : addr).

Lemma remove_idle nd c : idle nd c → INode.remove c nd = Some nd.
Proof.
  unfold idle. intros Hc. node_unfold. node_run.
  by rewrite insert_insert_eq, insert_id.
Qed.

Lemma remove_linked nd c x y :
  nd !! c = Some (Node x y) → c ≠ x → c ≠ y →
  is_Some (nd !! x) → is_Some (nd !! y) →
  ∃ nd', INode.remove c nd = Some nd' ∧
    (∀ k, INode.get_next k nd' =
            if decide (k = c) then Some c
            else if decide (k = x) then Some y else INode.get_next k nd) ∧
    (∀ k, INode.get_prev k nd' =
            if decide (k = c) then Some c
            else if decide (k = y) then Some x else INode.get_prev k nd).
Proof.
  intros Hc Hx Hy [nx Ex] [ny Ey]. node_unfold. node_done.
Qed.

(** Splicing an idle node [c] in front of [it], whose predecessor is [pv]. *)
Lemma insert_idle nd it c pv :
  idle nd c → c ≠ it → c ≠ pv →
  INode.get_prev it nd = Some pv → is_Some (nd !! pv) →
  ∃ nd', IList.insert it c nd = Some nd' ∧
    (∀ k, INode.get_next k nd' =
            if decide (k = c) then Some it
            else if decide (k = pv) then Some c else INode.get_next k nd) ∧
    (∀ k, INode.get_prev k nd' =
            if decide (k = c) then Some pv
            else if decide (k = it) then Some c else INode.get_prev k nd).
Proof.
  intros Hc Hit Hpv Hp [npv Epv]. unfold IList.insert.
  rewrite (remove_idle _ _ Hc). unfold idle in Hc. simpl.
  node_unfold. destruct (nd !! it) as [[??]|] eqn:Eit; simplify_eq/=.
  node_done.
Qed.

Lemma construct_fresh nd c :
  nd !! c = None → INode.construct c nd = Some (<[c := Node c c]> nd).
Proof. unfold INode.construct. by intros ->. Qed.

Lemma move_construct_linked nd a b x y :
  nd !! b = None → nd !! a = Some (Node x y) → a ≠ x → a ≠ y →
  is_Some (nd !! x) → is_Some (nd !! y) →
  ∃ nd', INode.move_construct b a nd = Some nd' ∧
    (∀ k, INode.get_next k nd' =
            if decide (k = a) then Some a
            else if decide (k = b) then Some y
            else if decide (k = x) then Some b else INode.get_next k nd) ∧
    (∀ k, INode.get_prev k nd' =
            if decide (k = a) then Some a
            else if decide (k = b) then Some x
            else if decide (k = y) then Some b else INode.get_prev k nd).
Proof.
  intros Hb Ha Hx Hy [nx Ex] [ny Ey]. unfold INode.move_construct.
  node_unfold. rewrite Hb. node_done.
Qed.

Lemma move_construct_idle nd a b :
  nd !! b = None → idle nd a →
  INode.move_construct b a nd = Some (<[b := Node b b]> nd).
Proof.
  unfold idle. intros Hb Ha. unfold INode.move_construct.
  node_unfold. rewrite Hb. by node_run.
Qed.

End NodeOps.

Section NodeSwap.
Implicit Types (nd : gmap addr node) (a b c k p q o x y : addr).

Lemma swap_both_idle nd p o :
  idle nd p → idle nd o → INode.swap p o nd = Some nd.
Proof.
  unfold idle, INode.swap. intros Hp Ho. node_unfold. by node_run.
Qed.

Lemma swap_linked_idle nd p o x y :
  nd !! p = Some (Node x y) → idle nd o → p ≠ x → p ≠ y → o ≠ x → o ≠ y →
  is_Some (nd !! x) → is_Some (nd !! y) →
  ∃ nd', INode.swap p o nd = Some nd' ∧
    (∀ k, INode.get_next k nd' =
            if decide (k = p) then Some p
            else if decide (k = o) then Some y
            else if decide (k = x) then Some o else INode.get_next k nd) ∧
    (∀ k, INode.get_prev k nd' =
            if decide (k = p) then Some p
            else if decide (k = o) then Some x
            else if decide (k = y) then Some o else INode.get_prev k nd).
Proof.
  unfold idle, INode.swap. intros Hp Ho ???? [nx Ex] [ny Ey].
  node_unfold. node_done.
Qed.

Lemma swap_idle_linked nd p o x y :
  idle nd p → nd !! o = Some (Node x y) → p ≠ x → p ≠ y → o ≠ x → o ≠ y →
  is_Some (nd !! x) → is_Some (nd !! y) →
  ∃ nd', INode.swap p o nd = Some nd' ∧
    (∀ k, INode.get_next k nd' =
            if decide (k = o) then Some o
            else if decide (k = p) then Some y
            else if decide (k = x) then Some p else INode.get_next k nd) ∧
    (∀ k, INode.get_prev k nd' =
            if decide (k = o) then Some o
            else if decide (k = p) then Some x
            else if decide (k = y) then Some p else INode.get_prev k nd).
Proof.
  unfold idle, INode.swap. intros Hp Ho ???? [nx Ex] [ny Ey].
  node_unfold. node_done.
Qed.

Lemma update_linked nd p x y :
  nd !! p = Some (Node x y) → p ≠ x → p ≠ y →
  is_Some (nd !! x) → is_Some (nd !! y) →
  ∃ nd', INode.update p nd = Some nd' ∧
    (∀ k, INode.get_next k nd' =
            if decide (k = x) then Some p else INode.get_next k nd) ∧
    (∀ k, INode.get_prev k nd' =
            if decide (k = y) then Some p else INode.get_prev k nd).
Proof.
  intros Hp ?? [? ?] [? ?]. node_unfold. node_done.
Qed.

(** Two linked nodes that are not neighbours trade places. *)
Lemma swap_linked_apart nd p o x y x' y' :
  nd !! p = Some (Node x y) → nd !! o = Some (Node x' y') →
  p ≠ o → p ≠ x → p ≠ y → p ≠ x' → p ≠ y' →
  o ≠ x → o ≠ y → o ≠ x' → o ≠ y' →
  is_Some (nd !! x) → is_Some (nd !! y) →
  is_Some (nd !! x') → is_Some (nd !! y') →
  ∃ nd', INode.swap p o nd = Some nd' ∧
    (∀ k, INode.get_next k nd' =
            if decide (k = p) then Some y'
            else if decide (k = o) then Some y
            else if decide (k = x) then Some o
            else if decide (k = x') then Some p else INode.get_next k nd) ∧
    (∀ k, INode.get_prev k nd' =
            if decide (k = p) then Some x'
            else if decide (k = o) then Some x
            else if decide (k = y) then Some o
            else if decide (k = y') then Some p else INode.get_prev k nd).
Proof.
  intros Hp Ho ????????? Hx Hy Hx' Hy'.
  set (nd1 := <[o:=Node x y]> (<[p:=Node x' y']> nd)).
  assert (INode.swap p o nd = INode.update p nd1 ≫= INode.update o) as ->.
  { unfold INode.swap, INode.empty, INode.set_prev, INode.set_next,
      INode.get_prev, INode.get_next.
    rewrite Hp, Ho. simpl.
    rewrite !bool_decide_eq_false_2 by done. simpl.
    repeat (rewrite ?Hp, ?Ho, ?lookup_insert_eq, ?lookup_insert_ne by done; simpl).
    unfold nd1. do 2 f_equal. apply map_eq. intros k.
    rewrite !lookup_insert. repeat case_decide; simplify_eq; done. }
  assert (Hlive : ∀ k, is_Some (nd !! k) → is_Some (nd1 !! k)).
  { intros k Hk. unfold nd1. rewrite !lookup_insert_is_Some'. auto. }
  destruct (update_linked nd1 p x' y') as (nd2 & -> & Hn2 & Hp2); auto.
  { unfold nd1. by simplify_map_eq. }
  simpl.
  destruct (update_linked nd2 o x y) as (nd3 & -> & Hn3 & Hp3); auto.
  { apply lookup_fields; rewrite ?Hn2, ?Hp2; repeat case_decide; try done;
      unfold nd1; rewrite ?get_prev_insert, ?get_next_insert;
      repeat case_decide; done. }
  1,2: apply get_next_live; rewrite Hn2; case_decide; [done|];
       apply get_next_live; auto.
  eexists; split; [done|]. split; intros k.
  - rewrite Hn3, Hn2. unfold nd1. rewrite !get_next_insert. simpl.
    repeat case_decide; simplify_eq; done.
  - rewrite Hp3, Hp2. unfold nd1. rewrite !get_prev_insert. simpl.
    repeat case_decide; simplify_eq; done.
Qed.

End NodeSwap.

(** Evaluate field reads through the pointwise descriptions in the context. *)
Ltac pw_rewrite :=
  repeat first
    [ rewrite get_prev_delete | rewrite get_next_delete
    | rewrite get_prev_insert | rewrite get_next_insert
    | match goal with
      | H : ∀ k, INode.get_next k ?m = _ |- context [INode.get_next _ ?m] =>
          rewrite H
      | H : ∀ k, INode.get_prev k ?m = _ |- context [INode.get_prev _ ?m] =>
          rewrite H
      end ].

Ltac pw := pw_rewrite; simpl; repeat case_decide; simplify_eq; try done.

Ltac pw_live :=
  first [ apply get_next_live; pw; try (apply get_next_live; eauto)
        | done ].

Section NodeMoveAssign.
Implicit Types (nd : gmap addr node) (a b c k p q o x y : addr).

Lemma linked_between_lookup nd x a y :
  linked_between nd x a y →
  nd !! a = Some (Node x y) ∧ is_Some (nd !! x) ∧ is_Some (nd !! y).
Proof.
  intros (H1 & H2 & H3 & H4). split; [by apply lookup_fields|].
  split; [apply get_next_live | apply get_prev_live]; eauto.
Qed.

Lemma linked_between_ne nd x a y :
  linked_between nd x a y → a ≠ x → a ≠ y.
Proof.
  intros (H1 & H2 & H3 & H4) Hx ->. rewrite H1 in H4. congruence.
Qed.

Lemma move_assign_linked nd a b x y p q :
  linked_between nd x a y → a ≠ x → linked_between nd p b q →
  b ≠ a → b ≠ x → b ≠ y →
  ∃ nd', INode.move_assign b a nd = Some nd' ∧
         linked_between nd' x b y ∧ idle nd' a.
Proof.
  intros Ha Hax Hb Hba Hbx Hby.
  pose proof (linked_between_ne _ _ _ _ Ha Hax) as Hay.
  destruct (linked_between_lookup _ _ _ _ Ha) as (Ea & Lx & Ly).
  destruct (linked_between_lookup _ _ _ _ Hb) as (Eb & Lp & Lq).
  destruct Ha as (Ha1 & Ha2 & Ha3 & Ha4), Hb as (Hb1 & Hb2 & Hb3 & Hb4).
  pose proof (fresh_node nd) as Ht.
  unfold INode.move_assign. rewrite bool_decide_eq_false_2 by done.
  set (t := fresh (dom nd)) in *. clearbody t.
  assert (t ≠ a ∧ t ≠ b ∧ t ≠ x ∧ t ≠ y ∧ t ≠ p ∧ t ≠ q) as (?&?&?&?&?&?).
  { destruct Lx, Ly, Lp, Lq. repeat split; congruence. }
  assert (a ≠ p) by (intros ->; congruence).
  assert (a ≠ q) by (intros ->; congruence).
  assert (x ≠ p) by (intros ->; congruence).
  assert (y ≠ q) by (intros ->; congruence).
  destruct (move_construct_linked nd a t x y) as (nd1 & -> & Hn1 & Hp1); auto.
  simpl.
  destruct (decide (b = p)) as [->|Hbp].
  - (* the destination is idle *)
    assert (q = p) as -> by congruence.
    destruct (swap_linked_idle nd1 t p x y) as (nd2 & -> & Hn2 & Hp2); auto.
    { apply lookup_fields; pw. }
    { apply idle_fields. split; pw. }
    1,2: pw_live.
    simpl. unfold INode.destroy. rewrite remove_idle by (apply idle_fields; split; pw).
    simpl. eexists; split; [done|]. split; [|apply idle_fields].
    all: repeat split; pw.
  - assert (b ≠ q) by (intros ->; congruence).
    destruct (swap_linked_apart nd1 t b x y p q) as (nd2 & -> & Hn2 & Hp2); auto.
    1,2: apply lookup_fields; pw.
    1-4: pw_live.
    simpl. unfold INode.destroy.
    destruct (remove_linked nd2 t p q) as (nd3 & -> & Hn3 & Hp3); auto.
    { apply lookup_fields; pw. }
    1,2: pw_live.
    simpl. eexists; split; [done|]. split; [|apply idle_fields].
    all: repeat split; pw.
Qed.

Lemma move_assign_idle nd a b p q :
  idle nd a → linked_between nd p b q → b ≠ a →
  ∃ nd', INode.move_assign b a nd = Some nd' ∧ idle nd' b ∧ idle nd' a.
Proof.
  intros Ha Hb Hba.
  destruct (linked_between_lookup _ _ _ _ Hb) as (Eb & Lp & Lq).
  destruct Hb as (Hb1 & Hb2 & Hb3 & Hb4).
  apply idle_fields in Ha as Ha'. destruct Ha' as [Ha1 Ha2].
  pose proof (fresh_node nd) as Ht.
  unfold INode.move_assign. rewrite bool_decide_eq_false_2 by done.
  set (t := fresh (dom nd)) in *. clearbody t.
  assert (t ≠ a ∧ t ≠ b ∧ t ≠ p ∧ t ≠ q) as (?&?&?&?).
  { destruct Lp, Lq. unfold idle in Ha. repeat split; congruence. }
  assert (a ≠ p) by (intros ->; congruence).
  assert (a ≠ q) by (intros ->; congruence).
  rewrite move_construct_idle by done. simpl.
  set (nd1 := <[t:=Node t t]> nd).
  destruct (decide (b = p)) as [->|Hbp].
  - assert (q = p) as -> by congruence.
    rewrite swap_both_idle; try (apply idle_fields; unfold nd1; split; pw).
    simpl. unfold INode.destroy.
    rewrite remove_idle by (apply idle_fields; unfold nd1; split; pw).
    simpl. eexists; split; [done|].
    split; apply idle_fields; unfold nd1; split; pw.
  - assert (b ≠ q) by (intros ->; congruence).
    destruct (swap_idle_linked nd1 t b p q) as (nd2 & -> & Hn2 & Hp2); auto.
    { apply idle_fields; unfold nd1; split; pw. }
    { apply lookup_fields; unfold nd1; pw. }
    1,2: unfold nd1; rewrite lookup_insert_ne by done; done.
    simpl. unfold INode.destroy.
    destruct (remove_linked nd2 t p q) as (nd3 & -> & Hn3 & Hp3); auto.
    { apply lookup_fields; pw. }
    1,2: apply get_next_live; pw; unfold nd1; pw; apply get_next_live; done.
    simpl. eexists; split; [done|].
    split; apply idle_fields; split; pw; unfold nd1; pw.
Qed.

End NodeMoveAssign.

(** * Facts about chains of links *)

Section Chains.
Implicit Types (nd : gmap addr node) (l : list addr) (a b c k p q s x y : addr).

Lemma last_of_nil s : last_of s [] = s.
Proof. done. Qed.

Lemma last_of_snoc s l x : last_of s (l ++ [x]) = x.
Proof. unfold last_of. by rewrite last_snoc. Qed.

Lemma last_of_cons s x l : last_of s (x :: l) = last_of x l.
Proof.
  unfold last_of. rewrite last_cons. by destruct (last l).
Qed.

Lemma last_of_elem s l : last_of s l ∈ s :: l.
Proof.
  revert s. induction l as [|x l IH]; intros s; [set_solver|].
  rewrite last_of_cons. specialize (IH x). set_solver.
Qed.

Lemma head_of_cons s x l : head_of s (x :: l) = x.
Proof. done. Qed.

Lemma head_of_elem s l : head_of s l ∈ l ++ [s].
Proof. destruct l; set_solver. Qed.

Lemma fwd_app nd p l1 x l2 c :
  fwd nd p (l1 ++ x :: l2) c ↔ fwd nd p l1 x ∧ fwd nd x l2 c.
Proof.
  revert p. induction l1 as [|z l1 IH]; intros p; simpl; [done|].
  rewrite IH. naive_solver.
Qed.

Lemma bwd_app nd p l1 x l2 c :
  bwd nd p (l1 ++ x :: l2) c ↔ bwd nd p l1 x ∧ bwd nd x l2 c.
Proof.
  revert p. induction l1 as [|z l1 IH]; intros p; simpl; [done|].
  rewrite IH. naive_solver.
Qed.

Lemma fwd_head nd p l c :
  fwd nd p l c → INode.get_next p nd = Some (head_of c l).
Proof. destruct l; simpl; naive_solver. Qed.

Lemma bwd_last nd p l c :
  bwd nd p l c → INode.get_prev c nd = Some (last_of p l).
Proof.
  revert p. induction l as [|x l IH]; intros p; simpl; [done|].
  intros [_ H]. rewrite last_of_cons. auto.
Qed.

Lemma fwd_frame nd nd' p l c :
  (∀ k, k ∈ p :: l → INode.get_next k nd' = INode.get_next k nd) →
  fwd nd p l c → fwd nd' p l c.
Proof.
  revert p. induction l as [|x l IH]; intros p Hf; simpl.
  - intros <-. apply Hf. set_solver.
  - intros [H1 H2]. split; [rewrite Hf; [done|set_solver]|].
    apply IH; [|done]. intros k Hk. apply Hf. set_solver.
Qed.

Lemma bwd_frame nd nd' p l c :
  (∀ k, k ∈ l ++ [c] → INode.get_prev k nd' = INode.get_prev k nd) →
  bwd nd p l c → bwd nd' p l c.
Proof.
  revert p. induction l as [|x l IH]; intros p Hf; simpl.
  - intros <-. apply Hf. set_solver.
  - intros [H1 H2]. split; [rewrite Hf; [done|set_solver]|].
    apply IH; [|done]. intros k Hk. apply Hf. set_solver.
Qed.

(** Point the last link of a chain somewhere else. *)
Lemma fwd_redirect nd nd' p l c c' :
  NoDup (p :: l) →
  (∀ k, k ∈ p :: l → k ≠ last_of p l →
        INode.get_next k nd' = INode.get_next k nd) →
  INode.get_next (last_of p l) nd' = Some c' →
  fwd nd p l c → fwd nd' p l c'.
Proof.
  revert p. induction l as [|x l IH]; intros p Hnd Hf Hl; simpl; [done|].
  rewrite last_of_cons in Hf, Hl. intros [H1 H2].
  apply NoDup_cons in Hnd as [Hp Hnd]. split.
  - rewrite Hf; [done|set_solver|]. intros E.
    apply Hp. rewrite E. apply last_of_elem.
  - apply IH; [done| |done|done]. intros k Hk. apply Hf. set_solver.
Qed.

Lemma bwd_redirect nd nd' p l c c' :
  (∀ k, k ∈ l → INode.get_prev k nd' = INode.get_prev k nd) →
  INode.get_prev c' nd' = Some (last_of p l) →
  bwd nd p l c → bwd nd' p l c'.
Proof.
  revert p. induction l as [|x l IH]; intros p Hf Hl; simpl; [done|].
  rewrite last_of_cons in Hl. intros [H1 H2]. split.
  - rewrite Hf; [done|set_solver].
  - apply IH; [|done|done]. intros k Hk. apply Hf. set_solver.
Qed.

Lemma fwd_live nd p l c k :
  fwd nd p l c → k ∈ p :: l → is_Some (nd !! k).
Proof.
  revert p. induction l as [|x l IH]; intros p; simpl.
  - intros H Hk. assert (k = p) as -> by set_solver.
    apply get_next_live. by rewrite H.
  - intros [H1 H2] Hk. apply elem_of_cons in Hk as [->|Hk]; [|eauto].
    apply get_next_live. by rewrite H1.
Qed.

Lemma is_list_live nd s l k : is_list nd s l → k ∈ s :: l → is_Some (nd !! k).
Proof. intros (_ & Hf & _). by apply (fwd_live _ _ _ _ _ Hf). Qed.

Lemma is_list_nil nd s : idle nd s → is_list nd s [].
Proof.
  intros H. apply idle_fields in H as [??].
  split; [apply NoDup_singleton|done].
Qed.

(** The links of an element in the middle of a list. *)
Lemma is_list_mid nd s l1 c l2 :
  is_list nd s (l1 ++ c :: l2) →
  nd !! c = Some (Node (last_of s l1) (head_of s l2)) ∧
  c ≠ last_of s l1 ∧ c ≠ head_of s l2 ∧
  is_Some (nd !! last_of s l1) ∧ is_Some (nd !! head_of s l2).
Proof.
  intros Hl. pose proof Hl as (Hnd & Hf & Hb).
  apply fwd_app in Hf as [Hf1 Hf2]. apply bwd_app in Hb as [Hb1 Hb2].
  apply NoDup_cons in Hnd as [Hs Hnd].
  apply NoDup_app in Hnd as (Hnd1 & Hd & Hnd2).
  apply NoDup_cons in Hnd2 as [Hc2 Hnd2].
  pose proof (last_of_elem s l1) as Hx.
  pose proof (head_of_elem s l2) as Hy.
  split; [|split; [|split; [|split]]].
  - apply lookup_fields; [by apply bwd_last | by apply fwd_head].
  - intros E. rewrite <-E in Hx. set_solver.
  - intros E. rewrite <-E in Hy. set_solver.
  - apply (is_list_live _ _ _ _ Hl). set_solver.
  - apply (is_list_live _ _ _ _ Hl). set_solver.
Qed.

End Chains.

(** * The list operations on well-formed lists *)

Ltac drop_pw :=
  repeat match goal with
    | H : ∀ k, INode.get_next k _ = _ |- _ => clear H
    | H : ∀ k, INode.get_prev k _ = _ |- _ => clear H
    | H : fwd _ _ _ _ |- _ => clear H
    | H : bwd _ _ _ _ |- _ => clear H
    | H : _ !! _ = _ |- _ => clear H
    | H : is_Some _ |- _ => clear H
    | H : INode.get_next _ _ = _ |- _ => clear H
    | H : INode.get_prev _ _ = _ |- _ => clear H
    | H : INode.remove _ _ = _ |- _ => clear H
    | H : IList.insert _ _ _ = _ |- _ => clear H
    | H : idle _ _ |- _ => clear H
    end.

(** Membership and distinctness goals, from the list facts alone. *)
Ltac ss :=
  drop_pw;
  repeat match goal with
    | H : NoDup (_ :: _) |- _ => apply NoDup_cons in H as [? ?]
    | H : NoDup (_ ++ _) |- _ => apply NoDup_app in H as (? & ? & ?)
    end;
  lazymatch goal with
  | |- _ ∈ _ => idtac
  | |- _ ∉ _ => idtac
  | |- _ ≠ _ => idtac
  | |- _ ∧ _ => idtac
  | |- ∀ _, _ => idtac
  | |- False => idtac
  | |- _ => exfalso
  end;
  repeat match goal with
    | |- context [head_of ?a ?b] => generalize dependent (head_of a b); intros
    | |- context [last_of ?a ?b] => generalize dependent (last_of a b); intros
    | H : context [head_of ?a ?b] |- _ => generalize dependent (head_of a b); intros
    | H : context [last_of ?a ?b] |- _ => generalize dependent (last_of a b); intros
    end;
  set_solver.

Section ListOps.
Implicit Types (nd : gmap addr node) (l : list addr) (a b c k p q s x y : addr).

Lemma is_list_remove nd s l1 c l2 :
  is_list nd s (l1 ++ c :: l2) →
  ∃ nd', INode.remove c nd = Some nd' ∧
    is_list nd' s (l1 ++ l2) ∧
    (∀ k, INode.get_next k nd' =
            if decide (k = c) then Some c
            else if decide (k = last_of s l1) then Some (head_of s l2)
            else INode.get_next k nd) ∧
    (∀ k, INode.get_prev k nd' =
            if decide (k = c) then Some c
            else if decide (k = head_of s l2) then Some (last_of s l1)
            else INode.get_prev k nd).
Proof.
  intros Hl. destruct (is_list_mid _ _ _ _ _ Hl) as (Ec & Hcx & Hcy & Lx & Ly).
  destruct (remove_linked nd c _ _ Ec Hcx Hcy Lx Ly) as (nd' & Hr & Hn & Hp).
  exists nd'. split; [done|]. split; [|done].
  destruct Hl as (Hnd & Hf & Hb).
  apply fwd_app in Hf as [Hf1 Hf2]. apply bwd_app in Hb as [Hb1 Hb2].
  assert (NoDup (s :: l1 ++ l2)) as Hnd'.
  { apply NoDup_cons in Hnd as [Hs Hnd]. apply NoDup_cons. split; [ss|].
    apply NoDup_app in Hnd as (? & ? & [? ?]%NoDup_cons).
    apply NoDup_app. ss. }
  assert (c ∉ s :: l1 ++ l2) as Hc.
  { apply NoDup_cons in Hnd as [Hs Hnd].
    apply NoDup_app in Hnd as (? & ? & [? ?]%NoDup_cons). ss. }
  assert (NoDup (s :: l1)) as Hnd1.
  { apply NoDup_cons in Hnd' as [Hs Hnd']. apply NoDup_cons.
    apply NoDup_app in Hnd' as (?&?&?). ss. }
  assert (fwd nd' s l1 (head_of s l2)) as Hf1'.
  { eapply fwd_redirect; [done| |by pw|done].
    intros k Hk Hkl. pw; ss. }
  assert (∀ k, k ∈ l1 → INode.get_prev k nd' = INode.get_prev k nd) as Hpl1.
  { intros k Hk. pw; [ss|].
    pose proof (head_of_elem s l2) as Hy.
    apply NoDup_cons in Hnd' as [Hs Hnd']. apply NoDup_app in Hnd' as (?&?&?).
    ss. }
  split; [done|]. destruct l2 as [|y l2]; simpl in *.
  - rewrite app_nil_r. split; [done|].
    eapply bwd_redirect; [done| |done]. by pw.
  - destruct Hf2 as [Hf2 Hf3], Hb2 as [Hb2 Hb3].
    unfold head_of in *; simpl in *. split.
    + apply fwd_app. split; [done|]. eapply fwd_frame; [|done].
      intros k Hk. pw; [ss|].
      pose proof (last_of_elem s l1) as Hx.
      apply NoDup_cons in Hnd' as [Hs Hnd']. apply NoDup_app in Hnd' as (?&?&?).
      ss.
    + apply bwd_app. split.
      * eapply bwd_redirect; [done| |done]. by pw.
      * eapply bwd_frame; [|done]. intros k Hk. pw; [ss|].
        apply NoDup_cons in Hnd' as [Hs Hnd']. apply NoDup_app in Hnd' as (?&?&Hn2).
        apply NoDup_cons in Hn2 as [??]. ss.
Qed.

Lemma is_list_remove_idle nd s l1 c l2 nd' :
  is_list nd s (l1 ++ c :: l2) → INode.remove c nd = Some nd' → idle nd' c.
Proof.
  intros Hl Hr. destruct (is_list_remove _ _ _ _ _ Hl) as (nd2 & Hr' & _ & Hn & Hp).
  simplify_eq. apply idle_fields. split; pw.
Qed.

(** Splicing an idle node in front of the suffix [l2]; with [l2 = []] this is
    [push_back]. *)
Lemma is_list_insert nd s l1 l2 c :
  is_list nd s (l1 ++ l2) → idle nd c → c ∉ s :: l1 ++ l2 →
  ∃ nd', IList.insert (head_of s l2) c nd = Some nd' ∧
    is_list nd' s (l1 ++ c :: l2) ∧
    (∀ k, INode.get_next k nd' =
            if decide (k = c) then Some (head_of s l2)
            else if decide (k = last_of s l1) then Some c
            else INode.get_next k nd) ∧
    (∀ k, INode.get_prev k nd' =
            if decide (k = c) then Some (last_of s l1)
            else if decide (k = head_of s l2) then Some c
            else INode.get_prev k nd).
Proof.
  intros Hl Hc Hnc.
  pose proof (last_of_elem s l1) as Hx. pose proof (head_of_elem s l2) as Hy.
  assert (INode.get_prev (head_of s l2) nd = Some (last_of s l1)) as Hpv.
  { destruct l2 as [|y l2].
    - rewrite app_nil_r in Hl. destruct Hl as (_ & _ & Hb). by apply bwd_last.
    - destruct (is_list_mid _ _ _ _ _ Hl) as (Ey & _). by apply fields_lookup in Ey as [? _]. }
  destruct (insert_idle nd (head_of s l2) c (last_of s l1)) as (nd' & Hi & Hn & Hp);
    [done|ss|ss|done| |].
  { apply (is_list_live _ _ _ _ Hl). ss. }
  exists nd'. split; [done|]. split; [|done].
  destruct Hl as (Hnd & Hf & Hb).
  assert (NoDup (s :: l1 ++ c :: l2)) as Hnd'.
  { apply NoDup_cons in Hnd as [Hs Hnd]. apply NoDup_cons. split; [ss|].
    apply NoDup_app in Hnd as (?&?&?). apply NoDup_app.
    split; [done|]. split; [ss|]. apply NoDup_cons. ss. }
  assert (NoDup (s :: l1)) as Hnd1.
  { apply NoDup_cons in Hnd as [Hs Hnd]. apply NoDup_cons.
    apply NoDup_app in Hnd as (?&?&?). ss. }
  split; [done|]. destruct l2 as [|y l2]; simpl in *.
  - rewrite app_nil_r in *. unfold head_of in *; simpl in *. split.
    + apply fwd_app. split; [|simpl; (pw; ss)].
      eapply fwd_redirect; [done| |(pw; ss)|done]. intros k Hk Hkl. pw; ss.
    + apply bwd_app. split; [|simpl; (pw; ss)].
      eapply bwd_redirect; [|(pw; ss)|done]. intros k Hk. pw; ss.
  - apply fwd_app in Hf as [Hf1 Hf2]. apply bwd_app in Hb as [Hb1 Hb2].
    unfold head_of in *; simpl in *.
    apply NoDup_cons in Hnd as [Hs Hnd]. apply NoDup_app in Hnd as (?&?&[??]%NoDup_cons).
    split.
    + apply fwd_app. split.
      * eapply fwd_redirect; [done| |(pw; ss)|done]. intros k Hk Hkl. pw; ss.
      * simpl. split; [(pw; ss)|]. eapply fwd_frame; [|done].
        intros k Hk. pw; ss.
    + apply bwd_app. split.
      * eapply bwd_redirect; [|(pw; ss)|done]. intros k Hk. pw; ss.
      * simpl. split; [(pw; ss)|]. eapply bwd_frame; [|done].
        intros k Hk. pw; ss.
Qed.

End ListOps.

(** * The holder stack *)

Section Holders.
Implicit Types (hs : gmap addr iterator_holder) (l : list addr) (t : option addr).

Lemma NoDup_live_length {V} (m : gmap addr V) (l : list addr) :
  NoDup l → (∀ k, k ∈ l → is_Some (m !! k)) → length l ≤ size m.
Proof.
  intros Hnd Hl. rewrite <-(size_dom (D := gset addr)).
  rewrite <-(size_list_to_set (C := gset addr) l) by done.
  apply subseteq_size. intros k Hk. apply elem_of_list_to_set in Hk.
  by apply elem_of_dom, Hl.
Qed.

Lemma hchain_ext hs hs' t l :
  (∀ k, k ∈ l → it_prev <$> hs' !! k = it_prev <$> hs !! k) →
  hchain hs t l → hchain hs' t l.
Proof.
  revert t. induction l as [|h l IH]; intros t Hf; simpl; [done|].
  intros (-> & hd & Hh & Hc). split; [done|].
  pose proof (Hf h ltac:(set_solver)) as E. rewrite Hh in E.
  destruct (hs' !! h) as [hd'|] eqn:Hh'; simplify_eq/=.
  exists hd'. split; [done|]. rewrite E. apply IH; [|done].
  intros k Hk. apply Hf. set_solver.
Qed.

Lemma hchain_det hs t l1 l2 : hchain hs t l1 → hchain hs t l2 → l1 = l2.
Proof.
  revert t l2. induction l1 as [|h l1 IH]; intros t [|h2 l2]; simpl.
  - done.
  - intros -> [? _]. done.
  - intros [-> _] ?. done.
  - intros (-> & hd & Hh & Hc) (E & hd2 & Hh2 & Hc2). simplify_eq.
    f_equal. eauto.
Qed.

Lemma hchain_suffix hs t l1 h l2 :
  hchain hs t (l1 ++ h :: l2) → hchain hs (Some h) (h :: l2).
Proof.
  revert t. induction l1 as [|x l1 IH]; intros t; simpl.
  - intros (-> & H). by split.
  - intros (-> & hd & Hh & Hc). by eapply IH.
Qed.

Lemma hchain_NoDup hs t l : hchain hs t l → NoDup l.
Proof.
  revert t. induction l as [|h l IH]; intros t; simpl; [constructor|].
  intros (-> & hd & Hh & Hc). apply NoDup_cons. split; [|eauto].
  intros Hin. apply list_elem_of_split in Hin as (l1 & l2 & ->).
  pose proof (hchain_suffix _ _ _ _ _ Hc) as (_ & hd' & Hh' & Hc').
  simplify_eq. pose proof (hchain_det _ _ _ _ Hc Hc') as E.
  apply (f_equal length) in E. rewrite length_app in E. simpl in E. lia.
Qed.

Lemma hchain_live hs t l k : hchain hs t l → k ∈ l → is_Some (hs !! k).
Proof.
  revert t. induction l as [|h l IH]; intros t; simpl; [set_solver|].
  intros (-> & hd & Hh & Hc) Hk. apply elem_of_cons in Hk as [->|Hk]; eauto.
Qed.

Lemma hchain_length hs t l : hchain hs t l → length l ≤ size hs.
Proof.
  intros H. apply NoDup_live_length; [by eapply hchain_NoDup|].
  intros k. by eapply hchain_live.
Qed.

Lemma steer_spec hs t l fuel c nx nd :
  hchain hs t l → length l ≤ fuel → INode.get_next c nd = Some nx →
  ∃ hs', steer fuel t c nd hs = Some hs' ∧
    ∀ k, hs' !! k =
           if decide (k ∈ l) then retarget c nx <$> hs !! k else hs !! k.
Proof.
  intros Hc Hlen Hnx. revert t hs fuel Hc Hlen.
  induction l as [|h l IH]; intros t hs fuel Hc Hlen.
  - simpl in Hc. subst t. exists hs. split; [by destruct fuel|].
    intros k. by rewrite decide_False by set_solver.
  - pose proof (hchain_NoDup _ _ _ Hc) as [Hh Hnd]%NoDup_cons.
    destruct Hc as (-> & hd & Hhd & Hc).
    destruct fuel as [|fuel]; [simpl in Hlen; lia|]. simpl in Hlen.
    simpl. rewrite Hhd. simpl. case_bool_decide as Hcur.
    + rewrite <-Hcur, Hnx. simpl.
      set (hs1 := <[h := Holder (it_prev hd) nx (it_sig hd)]> hs).
      destruct (IH (it_prev hd) hs1 fuel) as (hs' & -> & Hpw); [|lia|].
      { eapply hchain_ext; [|done]. intros k Hk. unfold hs1.
        rewrite lookup_insert_ne; [done|]. intros ->. done. }
      exists hs'. split; [done|]. intros k. rewrite Hpw. unfold hs1.
      destruct (decide (k = h)) as [->|Hkh].
      * rewrite decide_False by done. rewrite decide_True by set_solver.
        rewrite lookup_insert_eq, Hhd. simpl. unfold retarget.
        by rewrite bool_decide_eq_true_2.
      * rewrite lookup_insert_ne by done.
        destruct (decide (k ∈ l)); [rewrite decide_True by set_solver|
                                    rewrite decide_False by set_solver]; done.
    + destruct (IH (it_prev hd) hs fuel) as (hs' & -> & Hpw); [done|lia|].
      exists hs'. split; [done|]. intros k. rewrite Hpw.
      destruct (decide (k = h)) as [->|Hkh].
      * rewrite decide_False by done. rewrite decide_True by set_solver.
        rewrite Hhd. simpl. unfold retarget.
        by rewrite bool_decide_eq_false_2.
      * destruct (decide (k ∈ l)); [rewrite decide_True by set_solver|
                                    rewrite decide_False by set_solver]; done.
Qed.

Lemma null_holders_spec hs t l fuel :
  hchain hs t l → length l ≤ fuel →
  ∃ hs', null_holders fuel t hs = Some hs' ∧
    ∀ k, hs' !! k = if decide (k ∈ l) then orphan <$> hs !! k else hs !! k.
Proof.
  revert t hs fuel. induction l as [|h l IH]; intros t hs fuel Hc Hlen.
  - simpl in Hc. subst t. exists hs. split; [by destruct fuel|].
    intros k. by rewrite decide_False by set_solver.
  - pose proof (hchain_NoDup _ _ _ Hc) as [Hh Hnd]%NoDup_cons.
    destruct Hc as (-> & hd & Hhd & Hc).
    destruct fuel as [|fuel]; [simpl in Hlen; lia|]. simpl in Hlen.
    simpl. rewrite Hhd. simpl.
    set (hs1 := <[h := Holder (it_prev hd) (current hd) None]> hs).
    destruct (IH (it_prev hd) hs1 fuel) as (hs' & -> & Hpw); [|lia|].
    { eapply hchain_ext; [|done]. intros k Hk. unfold hs1.
      rewrite lookup_insert_ne; [done|]. intros ->. done. }
    exists hs'. split; [done|]. intros k. rewrite Hpw. unfold hs1.
    destruct (decide (k = h)) as [->|Hkh].
    + rewrite decide_False by done. rewrite decide_True by set_solver.
      by rewrite lookup_insert_eq, Hhd.
    + rewrite lookup_insert_ne by done.
      destruct (decide (k ∈ l)); [rewrite decide_True by set_solver|
                                  rewrite decide_False by set_solver]; done.
Qed.

End Holders.

(** * The connection operations on a well-formed signal *)

Section HeapOps.
Implicit Types (st : heap) (nd : gmap addr node) (l : list addr).

Lemma is_list_frame nd nd' s l :
  (∀ k, k ∈ s :: l → nd' !! k = nd !! k) → is_list nd s l → is_list nd' s l.
Proof.
  intros Hf (Hnd & Hfw & Hbw). split; [done|]. split.
  - eapply fwd_frame; [|done]. intros k Hk. unfold INode.get_next.
    by rewrite Hf.
  - eapply bwd_frame; [|done]. intros k Hk. unfold INode.get_prev.
    rewrite Hf; [done|]. set_solver.
Qed.

Lemma update_idle nd p : idle nd p → INode.update p nd = Some nd.
Proof.
  unfold idle. intros Hp. node_unfold. node_run.
  by rewrite insert_insert_eq, insert_id.
Qed.

Lemma is_list_fresh nd s l c : is_list nd s l → nd !! c = None → c ∉ s :: l.
Proof.
  intros Hl Hc Hin. destruct (is_list_live _ _ _ _ Hl Hin) as [? ?]. congruence.
Qed.

Lemma connect_spec st c s f t l :
  conns st !! c = None → nodes st !! c = None →
  tails st !! s = Some t → is_list (nodes st) s l →
  ∃ nd', connect c s f st = Some
           (Heap nd' (<[c := Conn f (Some s)]> (conns st)) (tails st)
                 (holders st) (trace st)) ∧
    is_list nd' s (l ++ [c]) ∧
    (∀ k, INode.get_next k nd' =
            if decide (k = c) then Some s
            else if decide (k = last_of s l) then Some c
            else INode.get_next k (nodes st)) ∧
    (∀ k, INode.get_prev k nd' =
            if decide (k = c) then Some (last_of s l)
            else if decide (k = s) then Some c
            else INode.get_prev k (nodes st)).
Proof.
  intros Hc Hn Ht Hl. pose proof (is_list_fresh _ _ _ _ Hl Hn) as Hfr.
  unfold connect. rewrite Hc, Ht. simpl. rewrite construct_fresh by done. simpl.
  set (nd1 := <[c := Node c c]> (nodes st)).
  destruct (is_list_insert nd1 s l [] c) as (nd' & Hi & Hl' & Hnx & Hpv).
  { rewrite app_nil_r. eapply is_list_frame; [|done]. intros k Hk.
    unfold nd1. rewrite lookup_insert_ne; [done|]. intros ->. done. }
  { unfold idle, nd1. by rewrite lookup_insert_eq. }
  { by rewrite app_nil_r. }
  unfold IList.push_back. change (head_of s []) with s in *.
  rewrite Hi. simpl. exists nd'. split; [done|]. split; [done|].
  split; intros k; [rewrite Hnx|rewrite Hpv]; unfold nd1;
    rewrite ?get_next_insert, ?get_prev_insert; repeat case_decide; done.
Qed.

Lemma disconnect_spec st c s f t hl l1 l2 :
  conns st !! c = Some (Conn f (Some s)) → tails st !! s = Some t →
  hchain (holders st) t hl → is_list (nodes st) s (l1 ++ c :: l2) →
  ∃ nd' hs', disconnect c st = Some
           (Heap nd' (<[c := Conn f None]> (conns st)) (tails st) hs' (trace st)) ∧
    is_list nd' s (l1 ++ l2) ∧
    (∀ k, hs' !! k =
            if decide (k ∈ hl)
            then retarget c (head_of s l2) <$> holders st !! k
            else holders st !! k) ∧
    (∀ k, INode.get_next k nd' =
            if decide (k = c) then Some c
            else if decide (k = last_of s l1) then Some (head_of s l2)
            else INode.get_next k (nodes st)) ∧
    (∀ k, INode.get_prev k nd' =
            if decide (k = c) then Some c
            else if decide (k = head_of s l2) then Some (last_of s l1)
            else INode.get_prev k (nodes st)).
Proof.
  intros Hc Ht Hh Hl. unfold disconnect. rewrite Hc. simpl. rewrite Ht. simpl.
  destruct (is_list_mid _ _ _ _ _ Hl) as (Ec & _).
  destruct (steer_spec (holders st) t hl (size (holders st)) c (head_of s l2)
              (nodes st)) as (hs' & -> & Hpw);
    [done|by eapply hchain_length|by apply fields_lookup in Ec as [_ ?]|].
  simpl. destruct (is_list_remove _ _ _ _ _ Hl) as (nd' & -> & Hl' & Hn & Hp).
  simpl. by exists nd', hs'.
Qed.

Lemma disconnect_idle st c f :
  conns st !! c = Some (Conn f None) → disconnect c st = Some st.
Proof. unfold disconnect. by intros ->. Qed.

Lemma move_construct_spec st a b s f t hl l1 l2 :
  conns st !! b = None → nodes st !! b = None →
  conns st !! a = Some (Conn f (Some s)) → tails st !! s = Some t →
  hchain (holders st) t hl → is_list (nodes st) s (l1 ++ a :: l2) →
  ∃ nd1 nd' hs',
    IList.insert (head_of s l2) b (<[b := Node b b]> (nodes st)) = Some nd1 ∧
    is_list nd1 s (l1 ++ a :: b :: l2) ∧
    move_construct b a st = Some
      (Heap nd' (<[a := Conn None None]> (<[b := Conn f (Some s)]> (conns st)))
            (tails st) hs' (trace st)) ∧
    is_list nd' s (l1 ++ b :: l2) ∧ idle nd' a ∧
    (∀ k, hs' !! k =
            if decide (k ∈ hl) then retarget a b <$> holders st !! k
            else holders st !! k).
Proof.
  intros Hb Hnb Ha Ht Hh Hl. pose proof (is_list_fresh _ _ _ _ Hl Hnb) as Hfr.
  assert (a ≠ b) as Hab by (intros ->; congruence).
  set (nd0 := <[b := Node b b]> (nodes st)).
  assert (is_list nd0 s ((l1 ++ [a]) ++ l2)) as Hl0.
  { rewrite <-app_assoc. simpl. eapply is_list_frame; [|done]. intros k Hk.
    unfold nd0. rewrite lookup_insert_ne; [done|]. intros ->. done. }
  destruct (is_list_insert nd0 s (l1 ++ [a]) l2 b) as (nd1 & Hi & Hl1 & Hn1 & Hp1).
  { done. }
  { unfold idle, nd0. by rewrite lookup_insert_eq. }
  { by rewrite <-app_assoc. }
  rewrite <-app_assoc in Hl1. simpl in Hl1.
  set (cs := <[b := Conn f (Some s)]> (<[a := Conn None (Some s)]> (conns st))).
  set (st1 := with_conns cs (with_nodes nd1 st)).
  destruct (disconnect_spec st1 a s None t hl l1 (b :: l2))
    as (nd' & hs' & Hd & Hl' & Hpw & Hn & Hp); [| done | done | done |].
  { unfold st1, cs. simpl. rewrite lookup_insert_ne by done.
    by rewrite lookup_insert_eq. }
  exists nd1, nd', hs'. split; [done|]. split; [done|]. split; [|split; [done|]].
  - unfold move_construct. rewrite Hb, Ha. simpl.
    rewrite construct_fresh by done. simpl. fold nd0.
    rewrite update_idle by (unfold idle, nd0; by rewrite lookup_insert_eq).
    simpl.
    assert (INode.get_next a nd0 = Some (head_of s l2)) as ->.
    { rewrite <-app_assoc in Hl0.
      destruct (is_list_mid _ _ _ _ _ Hl0) as (E & _).
      by apply fields_lookup in E as [_ ?]. }
    simpl. rewrite Hi. simpl. fold cs. fold st1. rewrite Hd.
    do 2 f_equal. unfold st1, cs. simpl. apply map_eq. intros k.
    rewrite !lookup_insert. repeat case_decide; simplify_eq; done.
  - split; [|done]. apply idle_fields. split; pw.
Qed.

End HeapOps.

(** * Tearing a signal down *)

Section Teardown.
Implicit Types (st : heap) (nd : gmap addr node) (l : list addr).

Lemma lookup_ext_fields nd nd' k :
  INode.get_prev k nd' = INode.get_prev k nd →
  INode.get_next k nd' = INode.get_next k nd → nd' !! k = nd !! k.
Proof.
  unfold INode.get_prev, INode.get_next.
  destruct (nd' !! k) as [[??]|], (nd !! k) as [[??]|]; naive_solver.
Qed.

Lemma is_list_suffix nd s l1 l2 :
  is_list nd s (l1 ++ l2) → fwd nd (last_of s l1) l2 s.
Proof.
  intros (_ & Hf & _). destruct l1 as [|x l1 _] using rev_ind; [done|].
  rewrite last_of_snoc. rewrite <-app_assoc in Hf. simpl in Hf.
  by apply fwd_app in Hf as [_ ?].
Qed.

Lemma null_sigs_spec nd s r : ∀ p cs fuel,
  fwd nd p r s → s ∉ r → NoDup r →
  (∀ c, c ∈ r → is_Some (cs !! c)) → length r ≤ fuel →
  ∃ cs', null_sigs fuel (head_of s r) s nd cs = Some cs' ∧
    ∀ k, cs' !! k = if decide (k ∈ r) then disown <$> cs !! k else cs !! k.
Proof.
  induction r as [|c r IH]; intros p cs fuel Hf Hs Hnd Hc Hlen.
  - exists cs. split.
    + destruct fuel; simpl; by rewrite bool_decide_eq_true_2.
    + intros k. by rewrite decide_False by set_solver.
  - destruct fuel as [|fuel]; [simpl in Hlen; lia|]. simpl in Hlen.
    destruct Hf as [_ Hf]. apply NoDup_cons in Hnd as [Hcr Hnd].
    destruct (Hc c ltac:(set_solver)) as [cn Hcn].
    change (head_of s (c :: r)) with c. simpl.
    rewrite bool_decide_eq_false_2 by set_solver.
    rewrite Hcn. simpl. rewrite (fwd_head _ _ _ _ Hf). simpl.
    destruct (IH c (<[c := Conn (slot cn) None]> cs) fuel) as (cs' & -> & Hpw);
      [done|set_solver|done| |lia|].
    { intros k Hk. rewrite lookup_insert_is_Some'. right. apply Hc. set_solver. }
    exists cs'. split; [done|]. intros k. rewrite Hpw.
    destruct (decide (k = c)) as [->|Hkc].
    + rewrite decide_False by done. rewrite decide_True by set_solver.
      by rewrite lookup_insert_eq, Hcn.
    + rewrite lookup_insert_ne by done.
      destruct (decide (k ∈ r)); [rewrite decide_True by set_solver|
                                  rewrite decide_False by set_solver]; done.
Qed.

Lemma clear_spec s l : ∀ nd fuel,
  is_list nd s l → length l ≤ fuel →
  ∃ nd', IList.clear fuel (head_of s l) s nd = Some nd' ∧
    idle nd' s ∧ (∀ c, c ∈ l → idle nd' c) ∧
    (∀ k, k ∉ s :: l → nd' !! k = nd !! k).
Proof.
  induction l as [|c l IH]; intros nd fuel Hl Hlen.
  - exists nd. split; [|split; [|split]].
    + destruct fuel; simpl; by rewrite bool_decide_eq_true_2.
    + destruct Hl as (_ & ? & ?). by apply idle_fields.
    + set_solver.
    + done.
  - destruct fuel as [|fuel]; [simpl in Hlen; lia|]. simpl in Hlen.
    pose proof Hl as (Hnd & _).
    destruct (is_list_mid nd s [] c l Hl) as (Ec & _).
    destruct (is_list_remove nd s [] c l Hl) as (nd1 & Hr & Hl1 & Hn1 & Hp1).
    simpl in Hl1. change (last_of s []) with s in *.
    destruct (IH nd1 fuel Hl1 ltac:(lia)) as (nd' & Hcl & Hs & Hid & Hfr).
    exists nd'. change (head_of s (c :: l)) with c. simpl.
    rewrite bool_decide_eq_false_2
      by (apply NoDup_cons in Hnd as [? _]; set_solver).
    unfold IList.erase. apply fields_lookup in Ec as [_ Ec]. rewrite Ec. simpl.
    rewrite Hr. simpl. split; [done|]. split; [done|].
    assert (c ∉ s :: l) as Hcl'.
    { apply NoDup_cons in Hnd as [? [? ?]%NoDup_cons]. set_solver. }
    split.
    + intros k [->|Hk]%elem_of_cons; [|by apply Hid].
      unfold idle. rewrite Hfr by done. apply idle_fields. split; pw.
    + intros k Hk. rewrite Hfr by set_solver.
      pose proof (head_of_elem s l) as Hy.
      apply lookup_ext_fields; pw; ss.
Qed.

Lemma destroy_signal_spec st s t hl l :
  tails st !! s = Some t → hchain (holders st) t hl →
  is_list (nodes st) s l → (∀ c, c ∈ l → is_Some (conns st !! c)) →
  ∃ nd' cs' hs',
    destroy_signal s st = Some (Heap nd' cs' (delete s (tails st)) hs' (trace st)) ∧
    (∀ k, hs' !! k =
            if decide (k ∈ hl) then orphan <$> holders st !! k
            else holders st !! k) ∧
    (∀ k, cs' !! k =
            if decide (k ∈ l) then disown <$> conns st !! k
            else conns st !! k) ∧
    (∀ c, c ∈ l → idle nd' c) ∧ nd' !! s = None ∧
    (∀ k, k ∉ s :: l → nd' !! k = nodes st !! k).
Proof.
  intros Ht Hh Hl Hc. pose proof Hl as (Hnd & Hf & _).
  assert (length l < size (nodes st)) as Hlen.
  { change (length (s :: l) ≤ size (nodes st)).
    apply NoDup_live_length; [done|]. intros k. by apply is_list_live. }
  apply NoDup_cons in Hnd as [Hs Hnd].
  unfold destroy_signal. rewrite Ht. simpl.
  destruct (null_holders_spec _ _ _ (size (holders st)) Hh) as (hs' & -> & Hpw);
    [by eapply hchain_length|]. simpl.
  unfold IList.begin. rewrite (fwd_head _ _ _ _ Hf). simpl.
  destruct (null_sigs_spec (nodes st) s l s (conns st) (size (nodes st)))
    as (cs' & -> & Hcs); [done|done|done|done|lia|]. simpl.
  destruct (clear_spec s l (nodes st) (size (nodes st)))
    as (nd1 & -> & Hs1 & Hid & Hfr); [done|lia|]. simpl.
  unfold INode.destroy. rewrite remove_idle by done. simpl.
  exists (delete s nd1), cs', hs'. split; [done|]. split; [done|]. split; [done|].
  split; [|split].
  - intros c Hc'. unfold idle. rewrite lookup_delete_ne by set_solver.
    by apply Hid.
  - by rewrite lookup_delete_eq.
  - intros k Hk. rewrite lookup_delete_ne by set_solver. by apply Hfr.
Qed.

End Teardown.

(** * The dispatch loop *)

Section DispatchFacts.
Variable prog : fid → list cmd.
Implicit Types (st : heap) (l : list addr) (h s c : addr) (a : Args).

Lemma fresh_lookup {V} (m : gmap addr V) : m !! fresh (dom m) = None.
Proof. apply not_elem_of_dom, is_fresh. Qed.

Lemma advanced_id h hd st :
  holders st !! h = Some hd → advanced h hd (current hd) [] st = st.
Proof.
  destruct st, hd. unfold advanced. simpl. intros H.
  by rewrite insert_id, app_nil_r.
Qed.

Lemma quiet_slot cs c a :
  quiet prog cs c →
  ∃ cn f, cs !! c = Some cn ∧ slot cn = Some f ∧ quiet_body (prog f) ∧
          invocation prog cs a c = Call c f a :: noted (prog f).
Proof.
  unfold quiet, invocation, slot_of.
  destruct (cs !! c) as [cn|]; simpl; [|done].
  destruct (slot cn) as [f|] eqn:E; [|done]. intros Hq. by exists cn, f.
Qed.

Section WithRec.
Variable emit_rec : addr → Args → heap → outcome.

Lemma exec_quiet cs st :
  quiet_body cs →
  exec emit_rec cs st =
    Done (Heap (nodes st) (conns st) (tails st) (holders st)
               (trace st ++ noted cs)).
Proof.
  unfold quiet_body. revert st. induction cs as [|c cs IH]; intros st H.
  - destruct st. simpl. by rewrite app_nil_r.
  - simpl in H. apply andb_true_iff in H as [Hc H].
    destruct c; try done. simpl. rewrite IH by done. simpl.
    by rewrite <-app_assoc.
Qed.

Lemma exec_app cs1 cs2 st :
  exec emit_rec (cs1 ++ cs2) st =
    match exec emit_rec cs1 st with
    | Done st => exec emit_rec cs2 st
    | o => o
    end.
Proof.
  revert st. induction cs1 as [|c cs1 IH]; intros st; simpl; [done|].
  destruct (exec_cmd emit_rec c st); auto.
Qed.

(** One turn of the loop: the cursor moves on, then the slot runs, then the
    back-pointer is tested. *)
Lemma loop_step n h s a st hd nx cn f :
  holders st !! h = Some hd → current hd ≠ s →
  INode.get_next (current hd) (nodes st) = Some nx →
  conns st !! current hd = Some cn → slot cn = Some f →
  loop prog emit_rec (S n) h s a st =
    match exec emit_rec (prog f)
            (record (Call (current hd) f a) (advanced h hd nx [] st)) with
    | Done st =>
        match holders st !! h with
        | None => Undefined
        | Some hd =>
            match it_sig hd with
            | None => Done st
            | Some _ => loop prog emit_rec n h s a st
            end
        end
    | o => o
    end.
Proof.
  intros Hh Hs Hnx Hc Hf. simpl. rewrite Hh.
  rewrite bool_decide_eq_false_2 by done. rewrite Hnx, Hc, Hf.
  unfold advanced, record, with_holders. simpl. by rewrite app_nil_r.
Qed.

Lemma loop_end n h s a st hd :
  holders st !! h = Some hd → current hd = s →
  loop prog emit_rec (S n) h s a st = Done st.
Proof. intros Hh Hs. simpl. rewrite Hh. by rewrite bool_decide_eq_true_2. Qed.

(** Running the loop over listeners that only write notes. *)
Lemma loop_quiet h s a l : ∀ st n hd p c,
  holders st !! h = Some hd → is_Some (it_sig hd) →
  fwd (nodes st) p l c → current hd = head_of c l → s ∉ l →
  Forall (quiet prog (conns st)) l →
  loop prog emit_rec (length l + n) h s a st =
    loop prog emit_rec n h s a
         (advanced h hd c (invocations prog (conns st) a l) st).
Proof.
  induction l as [|x r IH]; intros st n hd p c Hh Hsig Hf Hcur Hs Hq.
  - change (head_of c []) with c in Hcur. subst c. by rewrite advanced_id.
  - change (head_of c (x :: r)) with x in Hcur. destruct Hf as [_ Hf].
    apply Forall_cons in Hq as [Hqx Hq].
    destruct (quiet_slot (conns st) x a Hqx) as (cn & f & Hcn & Hsl & Hqb & Hinv).
    change (length (x :: r) + n) with (S (length r + n)).
    rewrite (loop_step _ h s a st hd (head_of c r) cn f); try done.
    2: rewrite Hcur; set_solver.
    2: rewrite Hcur; by apply fwd_head.
    2: by rewrite Hcur.
    rewrite exec_quiet by done. simpl.
    rewrite lookup_insert_eq. simpl. destruct Hsig as [sg Hsig].
    rewrite Hsig.
    set (st2 := Heap _ _ _ _ _).
    rewrite (IH st2 n (Holder (it_prev hd) (head_of c r) (Some sg)) x c);
      [|by (unfold st2; simpl; rewrite lookup_insert_eq)|done|done|done
       |set_solver|done].
    f_equal. unfold advanced, st2. simpl. rewrite insert_insert_eq.
    rewrite Hsig, Hcur. f_equal. unfold invocations. simpl.
    fold (invocations prog (conns st) a r). rewrite Hinv.
    by rewrite <-!app_assoc.
Qed.

End WithRec.

Lemma emit_unfold n s a st :
  emit prog (S n) s a st =
    let h := fresh (dom (holders st)) in
    match push_holder h s st with
    | None => Undefined
    | Some st => unwind h (loop prog (emit prog n) n h s a st)
    end.
Proof. done. Qed.

Lemma push_holder_live h s st t b :
  tails st !! s = Some t → INode.get_next s (nodes st) = Some b →
  push_holder h s st =
    Some (Heap (nodes st) (conns st) (<[s := Some h]> (tails st))
               (<[h := Holder t b (Some s)]> (holders st)) (trace st)).
Proof. unfold push_holder, IList.begin. by intros -> ->. Qed.

(** An emission over listeners that only write notes. *)
Lemma emit_quiet n s a st t l :
  tails st !! s = Some t → is_list (nodes st) s l →
  Forall (quiet prog (conns st)) l → length l < n →
  emit prog (S n) s a st =
    Done (Heap (nodes st) (conns st) (tails st) (holders st)
               (trace st ++ invocations prog (conns st) a l)).
Proof.
  intros Ht Hl Hq Hn. pose proof Hl as (Hnd & Hf & _).
  rewrite emit_unfold. simpl.
  pose proof (fresh_lookup (holders st)) as Hfr.
  set (h := fresh (dom (holders st))) in *.
  rewrite (push_holder_live h s st t (head_of s l)); [|done|by apply fwd_head].
  set (st0 := Heap _ _ _ _ _).
  replace n with (length l + S (n - length l - 1)) by lia.
  rewrite (loop_quiet _ h s a l st0 _ (Holder t (head_of s l) (Some s)) s s);
    [|by (unfold st0; simpl; rewrite lookup_insert_eq)|done|done|done| |done].
  2: { apply NoDup_cons in Hnd as [? _]. done. }
  rewrite (loop_end _ _ _ _ _ _ (Holder t s (Some s)));
    [|by (unfold advanced; simpl; rewrite lookup_insert_eq)|done].
  unfold unwind, pop_holder, advanced, st0. simpl.
  rewrite lookup_insert_eq. simpl. rewrite lookup_insert_eq. simpl.
  rewrite !insert_insert_eq. rewrite insert_id by done.
  rewrite delete_insert_eq. rewrite delete_id by done. done.
Qed.

End DispatchFacts.

(** * Emissions with one listener that does something *)

Section Reach.
Variable prog : fid → list cmd.
Implicit Types (st : heap) (l : list addr) (h s c : addr) (a : Args).

Lemma quiet_ext cs cs' c :
  cs' !! c = cs !! c → quiet prog cs c → quiet prog cs' c.
Proof. unfold quiet, slot_of. by intros ->. Qed.

Lemma invocation_ext cs cs' a c :
  cs' !! c = cs !! c → invocation prog cs' a c = invocation prog cs a c.
Proof. unfold invocation, slot_of. by intros ->. Qed.

Lemma invocations_ext cs cs' a l :
  (∀ c, c ∈ l → cs' !! c = cs !! c) →
  invocations prog cs' a l = invocations prog cs a l.
Proof.
  unfold invocations. induction l as [|x l IH]; intros H; simpl; [done|].
  rewrite IH by (intros; apply H; set_solver).
  by rewrite (invocation_ext cs cs') by (apply H; set_solver).
Qed.

Lemma invocations_app cs a l1 l2 :
  invocations prog cs a (l1 ++ l2) =
    invocations prog cs a l1 ++ invocations prog cs a l2.
Proof. unfold invocations. by rewrite flat_map_app. Qed.

Lemma Forall_quiet_ext cs cs' l :
  (∀ c, c ∈ l → cs' !! c = cs !! c) →
  Forall (quiet prog cs) l → Forall (quiet prog cs') l.
Proof.
  intros H Hq. apply Forall_forall. intros c Hc.
  eapply quiet_ext; [by apply H|]. by eapply Forall_forall in Hq.
Qed.

(** The state in which the body of the listener [x] starts to run, in an
    emission on [s] whose holder is [h]: pushed holder, cursor already on the
    successor of [x], the earlier listeners and the call of [x] recorded. *)
Lemma emit_reach n m s a st t pre x post cn f :
  tails st !! s = Some t → is_list (nodes st) s (pre ++ x :: post) →
  conns st !! x = Some cn → slot cn = Some f →
  Forall (quiet prog (conns st)) pre → n = length pre + S m →
  let h := fresh (dom (holders st)) in
  let st1 := Heap (nodes st) (conns st) (<[s := Some h]> (tails st))
               (<[h := Holder t (head_of s post) (Some s)]> (holders st))
               (trace st ++ invocations prog (conns st) a pre ++ [Call x f a]) in
  emit prog (S n) s a st =
    unwind h
      match exec (emit prog n) (prog f) st1 with
      | Done st2 =>
          match holders st2 !! h with
          | None => Undefined
          | Some hd =>
              match it_sig hd with
              | None => Done st2
              | Some _ => loop prog (emit prog n) m h s a st2
              end
          end
      | o => o
      end.
Proof.
  intros Ht Hl Hx Hf Hq -> h st1. pose proof Hl as (Hnd & Hfw & _).
  apply fwd_app in Hfw as [Hf1 Hf2].
  rewrite emit_unfold. simpl. fold h.
  rewrite (push_holder_live h s st t (head_of x pre)); [|done|by apply fwd_head].
  set (st0 := Heap _ _ _ _ _).
  assert ((s ∉ pre) ∧ (x ≠ s)) as [Hs Hxs].
  { apply NoDup_cons in Hnd as [? _]. set_solver. }
  rewrite (loop_quiet _ _ h s a pre st0 _ (Holder t (head_of x pre) (Some s)) s x);
    [|by (unfold st0; simpl; rewrite lookup_insert_eq)|done|done|done|done|done].
  rewrite (loop_step _ _ _ h s a _ (Holder t x (Some s)) (head_of s post) cn f);
    [|by (unfold advanced; simpl; rewrite lookup_insert_eq)|done
     |by apply fwd_head|done|done].
  f_equal. unfold advanced, record, st0, st1. simpl.
  by rewrite !insert_insert_eq, app_nil_r, <-app_assoc.
Qed.

(** Finishing an emission over listeners that only write notes. *)
Lemma loop_finish emit_rec m h s a st t y sg p post :
  holders st !! h = Some (Holder t y (Some sg)) → is_Some (tails st !! sg) →
  fwd (nodes st) p post s → y = head_of s post → s ∉ post →
  Forall (quiet prog (conns st)) post → length post < m →
  unwind h (loop prog emit_rec m h s a st) =
    Done (Heap (nodes st) (conns st) (<[sg := t]> (tails st))
               (delete h (holders st))
               (trace st ++ invocations prog (conns st) a post)).
Proof.
  intros Hh [tl Htl] Hf -> Hs Hq Hm.
  replace m with (length post + S (m - length post - 1)) by lia.
  rewrite (loop_quiet _ _ h s a post st _ _ p s Hh); [|done|done|done|done|done].
  rewrite (loop_end _ _ _ _ _ _ _ (Holder t s (Some sg)));
    [|by (unfold advanced; simpl; rewrite lookup_insert_eq)|done].
  unfold unwind, pop_holder, advanced. simpl.
  rewrite lookup_insert_eq. simpl. rewrite Htl. simpl.
  by rewrite delete_insert_eq.
Qed.

End Reach.

(** * The claims *)

(** C8. Moving a node is meant to transfer its list membership, and the
    move constructor does.  The move assignment does not when the destination
    is a neighbour of the source.  In the ring [1 → 2 → 3 → 1] the node [2]
    is linked between [1] and [3].  After [n3 = std::move(n2)] both [2] and
    [3] are self-linked and [1] points, in both directions, at the storage
    of the temporary, which is gone.  After [n1 = std::move(n2)] both [2] and
    [1] are self-linked while [3] still points at [1] in both directions.  In
    neither case does the destination stand where the source stood. *)
Theorem node_move_assign_to_neighbour_breaks_list :
  linked_between demo_ring 1 2 3 ∧
  (INode.move_assign 3 2 demo_ring = Some demo_ring_after_assign_to_next ∧
   idle demo_ring_after_assign_to_next 2 ∧
   idle demo_ring_after_assign_to_next 3 ∧
   INode.get_next 1 demo_ring_after_assign_to_next = Some 9 ∧
   INode.get_prev 1 demo_ring_after_assign_to_next = Some 9 ∧
   demo_ring_after_assign_to_next !! 9 = None ∧
   ∀ y, ¬ linked_between demo_ring_after_assign_to_next 1 3 y) ∧
  (INode.move_assign 1 2 demo_ring = Some demo_ring_after_assign_to_prev ∧
   idle demo_ring_after_assign_to_prev 2 ∧
   idle demo_ring_after_assign_to_prev 1 ∧
   INode.get_prev 3 demo_ring_after_assign_to_prev = Some 1 ∧
   INode.get_next 3 demo_ring_after_assign_to_prev = Some 1 ∧
   ∀ x, ¬ linked_between demo_ring_after_assign_to_prev x 1 3).
Proof.
  split; [by vm_compute|]. split.
  - split; [by vm_compute|]. repeat split; try by vm_compute.
    intros y (Hp & _). by vm_compute in Hp.
  - split; [by vm_compute|]. repeat split; try by vm_compute.
    intros x (_ & Hn & _). by vm_compute in Hn.
Qed.

(** C6. [disconnect] is idempotent: a second call leaves the state the first
    one produced, and on a connection whose owning-signal pointer is null the
    call changes nothing at all. *)
Theorem disconnect_idempotent (st : heap) (c : addr) :
  (∀ st', disconnect c st = Some st' → disconnect c st' = Some st') ∧
  (∀ cn, conns st !! c = Some cn → sig cn = None → disconnect c st = Some st).
Proof.
  split.
  - unfold disconnect. intros st' H.
    destruct (conns st !! c) as [cn|] eqn:Hc; simplify_eq/=.
    destruct (sig cn) as [s|] eqn:Hs.
    + destruct (tails st !! s); simplify_eq/=.
      destruct (steer _ _ _ _ _); simplify_eq/=.
      destruct (INode.remove _ _); simplify_eq/=.
      by rewrite lookup_insert_eq.
    + simplify_eq. rewrite Hc. simpl. by rewrite Hs.
  - unfold disconnect. intros cn Hc Hs. rewrite Hc. simpl. by rewrite Hs.
Qed.

Lemma disconnect_idempotent_witness :
  ∃ st', disconnect 12 demo_heap = Some st' ∧ st' ≠ demo_heap ∧
         disconnect 12 st' = Some st' ∧
         disconnect 12 (with_conns (<[12 := Conn (Some 2) None]> demo_conns)
                          demo_heap)
         = Some (with_conns (<[12 := Conn (Some 2) None]> demo_conns) demo_heap).
Proof.
  destruct (disconnect 12 demo_heap) as [st'|] eqn:E; [|by vm_compute in E].
  exists st'. split; [done|]. split.
  { intros ->. by vm_compute in E. }
  split.
  - by apply (proj1 (disconnect_idempotent demo_heap 12)).
  - apply (proj2 (disconnect_idempotent _ 12) (Conn (Some 2) None));
      by vm_compute.
Defined.

Lemma demo_is_list : is_list demo_nodes 1 [11; 12; 13].
Proof.
  split; [|by vm_compute].
  apply (bool_decide_unpack _). by vm_compute.
Qed.

(** C4. An emission over listeners that are not changed while it runs calls
    the slot of every connected listener exactly once, in list order, with
    the arguments of the emission; and [connect] puts a new listener at the
    tail, so list order is the order in which the connections were made. *)
Theorem dispatch_in_connection_order (prog : fid → list cmd) (st : heap)
    (s : addr) (t : option addr) (l : list addr) (a : Args) (n : nat) :
  tails st !! s = Some t → is_list (nodes st) s l →
  Forall (quiet prog (conns st)) l → length l < n →
  emit prog (S n) s a st =
    Done (Heap (nodes st) (conns st) (tails st) (holders st)
               (trace st ++ invocations prog (conns st) a l)) ∧
  ∀ c f, conns st !! c = None → nodes st !! c = None →
    ∃ st', connect c s f st = Some st' ∧ is_list (nodes st') s (l ++ [c]) ∧
           conns st' = <[c := Conn f (Some s)]> (conns st).
Proof.
  intros Ht Hl Hq Hn. split; [by eapply emit_quiet|].
  intros c f Hc Hnc.
  destruct (connect_spec st c s f t l) as (nd' & -> & Hl' & _); try done.
  by eexists.
Qed.

Lemma dispatch_in_connection_order_witness :
  emit quiet_prog 5 1 7 demo_heap =
    Done (Heap demo_nodes demo_conns (<[1 := None]> ∅) ∅
            [Call 11 1 7; Noted 1; Call 12 2 7; Noted 2; Call 13 3 7; Noted 3]) ∧
  ∃ st', connect 14 1 (Some 4) demo_heap = Some st' ∧
         is_list (nodes st') 1 [11; 12; 13; 14] ∧
         conns st' = <[14 := Conn (Some 4) (Some 1)]> demo_conns.
Proof.
  assert (Forall (quiet quiet_prog (conns demo_heap)) [11; 12; 13]) as Hq.
  { repeat constructor. }
  destruct (dispatch_in_connection_order quiet_prog demo_heap 1 None
              [11; 12; 13] 7 4 eq_refl demo_is_list Hq ltac:(simpl; lia))
    as [H1 H2].
  split; [exact H1|]. apply (H2 14 (Some 4)); by vm_compute.
Defined.

Section EmissionFacts.
Variable prog : fid → list cmd.

(** The holder pushed by an emission sits on top of the stack that was there. *)
Lemma hchain_push (hs : gmap addr iterator_holder) t hl hd :
  hchain hs t hl → it_prev hd = t →
  hchain (<[fresh (dom hs) := hd]> hs) (Some (fresh (dom hs)))
         (fresh (dom hs) :: hl).
Proof.
  intros Hc Hp. pose proof (fresh_lookup hs) as Hfr.
  split; [done|]. exists hd. rewrite lookup_insert_eq. split; [done|].
  rewrite Hp. eapply hchain_ext; [|done]. intros k Hk.
  rewrite lookup_insert_ne; [done|]. intros <-.
  destruct (hchain_live _ _ _ _ Hc Hk). congruence.
Qed.

Lemma fresh_not_in_chain (hs : gmap addr iterator_holder) t hl :
  hchain hs t hl → fresh (dom hs) ∉ hl.
Proof.
  intros Hc Hk. pose proof (fresh_lookup hs) as Hfr.
  destruct (hchain_live _ _ _ _ Hc Hk). congruence.
Qed.

End EmissionFacts.

(** C2. A listener that disconnects its own connection from inside its
    callback does not keep the later listeners of that emission from being
    called: the cursor had moved on before the callback ran.  The emission
    returns, every listener of the list at the start was called once, in
    order, and the list afterwards is the old one without the departed
    connection. *)
Theorem self_disconnect_keeps_later_listeners (prog : fid → list cmd)
    (st : heap) (s : addr) (t : option addr) (hl pre post : list addr)
    (c : addr) (f : fid) (ks1 ks2 : list cmd) (a : Args) (n : nat) :
  tails st !! s = Some t → hchain (holders st) t hl →
  is_list (nodes st) s (pre ++ c :: post) →
  conns st !! c = Some (Conn (Some f) (Some s)) →
  prog f = ks1 ++ Disconnect c :: ks2 → quiet_body ks1 → quiet_body ks2 →
  Forall (quiet prog (conns st)) pre → Forall (quiet prog (conns st)) post →
  length (pre ++ c :: post) < n →
  ∃ nd' hs',
    emit prog (S n) s a st =
      Done (Heap nd' (<[c := Conn (Some f) None]> (conns st)) (tails st) hs'
              (trace st ++ invocations prog (conns st) a pre
                 ++ Call c f a :: noted ks1 ++ noted ks2
                 ++ invocations prog (conns st) a post)) ∧
    is_list nd' s (pre ++ post) ∧ idle nd' c ∧
    ∀ k, hs' !! k =
           if decide (k ∈ hl)
           then retarget c (head_of s post) <$> holders st !! k
           else holders st !! k.
Proof.
  intros Ht Hh Hl Hc Hp Hk1 Hk2 Hpre Hpost Hn.
  rewrite length_app in Hn. simpl in Hn.
  pose proof Hl as (Hnd & _).
  destruct (is_list_mid _ _ _ _ _ Hl) as (_ & _ & Hcy & _).
  assert ((c ∉ post) ∧ (s ∉ post)) as [Hcp Hsp] by ss.
  assert (∃ m, n = length pre + S m ∧ length post < m) as (m & Hnm & Hm).
  { exists (n - length pre - 1). lia. }
  rewrite (emit_reach prog n m s a st t pre c post _ f Ht Hl Hc eq_refl Hpre Hnm).
  pose proof (fresh_not_in_chain _ _ _ Hh) as Hfr.
  pose proof (fresh_lookup (holders st)) as Hfr'.
  pose proof (hchain_push (holders st) t hl (Holder t (head_of s post) (Some s))
                Hh eq_refl) as Hh'.
  set (h := fresh (dom (holders st))) in *. simpl.
  rewrite Hp, exec_app, exec_quiet by done. simpl.
  set (st1 := Heap _ _ _ _ _).
  destruct (disconnect_spec st1 c s (Some f) (Some h) (h :: hl) pre post)
    as (nd' & hs' & -> & Hl' & Hpw & Hnx & Hpv);
    [done|by (unfold st1; simpl; rewrite lookup_insert_eq)|done|done|].
  simpl. rewrite exec_quiet by done. simpl.
  assert (hs' !! h = Some (Holder t (head_of s post) (Some s))) as Hh0.
  { rewrite Hpw. rewrite decide_True by set_solver. unfold st1. simpl.
    rewrite lookup_insert_eq. simpl. unfold retarget. simpl.
    by rewrite bool_decide_eq_false_2. }
  rewrite Hh0. simpl.
  assert (∀ k, k ∈ post → <[c := Conn (Some f) None]> (conns st) !! k
                           = conns st !! k) as Hcs.
  { intros k Hk. rewrite lookup_insert_ne; [done|]. intros ->. done. }
  rewrite (loop_finish prog _ _ h s a _ t (head_of s post) s
             (last_of s pre) post); simpl;
    [|done|by (rewrite lookup_insert_eq)|by apply is_list_suffix|done|done
     |by eapply Forall_quiet_ext|done].
  exists nd', (delete h hs'). split; [|split; [done|split]].
  - unfold st1. simpl. rewrite insert_insert_eq, (insert_id (tails st) s t) by done.
    rewrite (invocations_ext prog (conns st) _ a post) by done.
    do 2 f_equal. by rewrite <-!app_assoc.
  - apply idle_fields. split; pw.
  - intros k. destruct (decide (k = h)) as [->|Hkh].
    + rewrite lookup_delete_eq. by rewrite decide_False.
    + rewrite lookup_delete_ne by done. rewrite Hpw. unfold st1. simpl.
      rewrite lookup_insert_ne by done.
      destruct (decide (k ∈ hl)); [rewrite decide_True by set_solver|
                                  rewrite decide_False by set_solver]; done.
Qed.

Lemma self_disconnect_keeps_later_listeners_witness :
  ∃ nd' hs',
    emit self_disconnect_prog 6 1 7 demo_heap =
      Done (Heap nd' (<[12 := Conn (Some 2) None]> demo_conns) (<[1 := None]> ∅)
              hs'
              [Call 11 1 7; Noted 1; Call 12 2 7; Noted 2;
               Call 13 3 7; Noted 3]) ∧
    is_list nd' 1 [11; 13] ∧ idle nd' 12 ∧
    ∀ k, hs' !! k =
           if decide (k ∈ []) then retarget 12 13 <$> holders demo_heap !! k
           else holders demo_heap !! k.
Proof.
  apply (self_disconnect_keeps_later_listeners self_disconnect_prog demo_heap
           1 None [] [11] [13] 12 2 [Note 2] [] 7 5);
    try done; try exact demo_is_list; repeat constructor.
Defined.

(** C9. When a callable throws, the exception leaves [operator()] and the
    state stays consistent.  The body of the listener [x] starts in a state
    whose holder already points at the successor of [x]; whatever state the
    body throws from, the holder is popped and the [tail] of the signal is
    the holder below it; and for a body that only writes notes before it
    throws, the heap after the emission is the heap before it, with the calls
    recorded. *)
Theorem exception_unwinds_holder (prog : fid → list cmd) (st : heap)
    (s : addr) (t : option addr) (pre post : list addr) (x : addr)
    (cn : connection) (f : fid) (a : Args) (n m : nat) :
  tails st !! s = Some t → is_list (nodes st) s (pre ++ x :: post) →
  conns st !! x = Some cn → slot cn = Some f →
  Forall (quiet prog (conns st)) pre → n = length pre + S m →
  let h := fresh (dom (holders st)) in
  let st1 := Heap (nodes st) (conns st) (<[s := Some h]> (tails st))
               (<[h := Holder t (head_of s post) (Some s)]> (holders st))
               (trace st ++ invocations prog (conns st) a pre ++ [Call x f a]) in
  (∀ st2 hd, exec (emit prog n) (prog f) st1 = Threw st2 →
     holders st2 !! h = Some hd → it_sig hd = Some s →
     is_Some (tails st2 !! s) →
     emit prog (S n) s a st =
       Threw (Heap (nodes st2) (conns st2) (<[s := it_prev hd]> (tails st2))
                (delete h (holders st2)) (trace st2))) ∧
  (∀ ks rest, prog f = ks ++ Throw :: rest → quiet_body ks →
     exec (emit prog n) (prog f) st1 =
       Threw (Heap (nodes st1) (conns st1) (tails st1) (holders st1)
                (trace st1 ++ noted ks)) ∧
     emit prog (S n) s a st =
       Threw (Heap (nodes st) (conns st) (tails st) (holders st)
                (trace st ++ invocations prog (conns st) a pre
                   ++ Call x f a :: noted ks))).
Proof.
  intros Ht Hl Hx Hf Hpre Hn h st1.
  pose proof (emit_reach prog n m s a st t pre x post cn f Ht Hl Hx Hf Hpre Hn)
    as Hreach. cbv zeta in Hreach. fold h in Hreach. fold st1 in Hreach.
  pose proof (fresh_lookup (holders st)) as Hfr. fold h in Hfr.
  assert (∀ st2 hd, exec (emit prog n) (prog f) st1 = Threw st2 →
     holders st2 !! h = Some hd → it_sig hd = Some s →
     is_Some (tails st2 !! s) →
     emit prog (S n) s a st =
       Threw (Heap (nodes st2) (conns st2) (<[s := it_prev hd]> (tails st2))
                (delete h (holders st2)) (trace st2))) as Hgen.
  { intros st2 hd He Hh Hsig [tl Htl]. rewrite Hreach, He.
    unfold unwind, pop_holder. rewrite Hh. simpl. rewrite Hsig, Htl. done. }
  split; [done|]. intros ks rest Hp Hq.
  assert (exec (emit prog n) (prog f) st1 =
            Threw (Heap (nodes st1) (conns st1) (tails st1) (holders st1)
                     (trace st1 ++ noted ks))) as He.
  { rewrite Hp, exec_app, exec_quiet by done. done. }
  split; [done|].
  rewrite (Hgen _ (Holder t (head_of s post) (Some s)) He); simpl.
  - rewrite insert_insert_eq, insert_id by done.
    rewrite delete_insert_eq, delete_id by done.
    by rewrite <-!app_assoc.
  - by rewrite lookup_insert_eq.
  - done.
  - by rewrite lookup_insert_eq.
Qed.

Lemma exception_unwinds_holder_witness :
  emit throw_prog 6 1 7 demo_heap =
    Threw (Heap demo_nodes demo_conns (<[1 := None]> ∅) ∅
             [Call 11 1 7; Noted 1; Call 12 2 7; Noted 2]).
Proof.
  assert (Forall (quiet throw_prog (conns demo_heap)) [11]) as Hq
    by repeat constructor.
  pose proof (exception_unwinds_holder throw_prog demo_heap 1 None [11] [13]
                12 (Conn (Some 2) (Some 1)) 2 7 5 3 eq_refl demo_is_list
                eq_refl eq_refl Hq eq_refl) as [_ H].
  exact (proj2 (H [Note 2] [Note 99] eq_refl eq_refl)).
Defined.

(** C5. A listener connected from inside a callback goes to the tail of the
    list and is called by the emission in progress, provided the cursor of
    that emission is not at [end()] when the loop tests it after the
    callback.  The cursor then is the successor of the connecting listener
    [x], so the condition says that [x] is not the last listener. *)
Theorem listener_added_during_dispatch_is_invoked (prog : fid → list cmd)
    (st : heap) (s : addr) (t : option addr) (pre post : list addr)
    (x c' : addr) (cn : connection) (f g : fid) (ks1 ks2 : list cmd)
    (a : Args) (n : nat) :
  tails st !! s = Some t → is_list (nodes st) s (pre ++ x :: post) →
  conns st !! x = Some cn → slot cn = Some f →
  prog f = ks1 ++ Connect c' s g :: ks2 → quiet_body ks1 → quiet_body ks2 →
  conns st !! c' = None → nodes st !! c' = None → quiet_body (prog g) →
  Forall (quiet prog (conns st)) pre → Forall (quiet prog (conns st)) post →
  head_of s post ≠ s →
  S (length (pre ++ x :: post)) < n →
  ∃ nd',
    emit prog (S n) s a st =
      Done (Heap nd' (<[c' := Conn (Some g) (Some s)]> (conns st)) (tails st)
              (holders st)
              (trace st ++ invocations prog (conns st) a pre
                 ++ Call x f a :: noted ks1 ++ noted ks2
                 ++ invocations prog (conns st) a post
                 ++ Call c' g a :: noted (prog g))) ∧
    is_list nd' s (pre ++ x :: post ++ [c']).
Proof.
  intros Ht Hl Hx Hf Hp Hk1 Hk2 Hc' Hn' Hg Hpre Hpost Hcur Hn.
  rewrite length_app in Hn. simpl in Hn.
  assert (∃ m, n = length pre + S m ∧ length (post ++ [c']) < m) as (m & Hnm & Hm).
  { exists (n - length pre - 1). rewrite length_app. simpl. lia. }
  pose proof (is_list_fresh _ _ _ _ Hl Hn') as Hfr.
  rewrite (emit_reach prog n m s a st t pre x post cn f Ht Hl Hx Hf Hpre Hnm).
  pose proof (fresh_lookup (holders st)) as Hfh.
  set (h := fresh (dom (holders st))) in *. simpl.
  rewrite Hp, exec_app, exec_quiet by done. simpl.
  set (st1 := Heap _ _ _ _ _).
  destruct (connect_spec st1 c' s (Some g) (Some h) (pre ++ x :: post))
    as (nd' & -> & Hl' & _);
    [done|done|by (unfold st1; simpl; rewrite lookup_insert_eq)|done|].
  simpl. rewrite exec_quiet by done. simpl. rewrite lookup_insert_eq. simpl.
  rewrite <-app_assoc in Hl'. simpl in Hl'.
  assert (fwd nd' x (post ++ [c']) s) as Hfw.
  { replace (pre ++ x :: post ++ [c']) with ((pre ++ [x]) ++ post ++ [c']) in Hl'
      by (by rewrite <-app_assoc).
    apply is_list_suffix in Hl'. by rewrite last_of_snoc in Hl'. }
  assert (∀ k, k ∈ post → <[c' := Conn (Some g) (Some s)]> (conns st) !! k
                           = conns st !! k) as Hcs.
  { intros k Hk. rewrite lookup_insert_ne; [done|]. intros ->. ss. }
  rewrite (loop_finish prog _ _ h s a _ t (head_of s post) s x (post ++ [c']));
    simpl; [|by rewrite lookup_insert_eq|by rewrite lookup_insert_eq|done
            | |destruct Hl' as (Hnd & _); ss| |done].
  - exists nd'. split; [|done].
    rewrite insert_insert_eq, (insert_id (tails st) s t) by done.
    rewrite delete_insert_eq, delete_id by done.
    rewrite invocations_app.
    rewrite (invocations_ext prog (conns st) _ a post) by done.
    unfold invocations at 3. simpl. unfold invocation, slot_of.
    rewrite lookup_insert_eq. simpl. rewrite app_nil_r.
    do 2 f_equal. by rewrite <-!app_assoc.
  - destruct post; [done|done].
  - apply Forall_app. split; [by eapply Forall_quiet_ext|].
    apply Forall_singleton. unfold quiet, slot_of.
    by rewrite lookup_insert_eq.
Qed.

Lemma listener_added_during_dispatch_is_invoked_witness :
  ∃ nd',
    emit connect_prog 7 1 7 demo_heap =
      Done (Heap nd' (<[14 := Conn (Some 4) (Some 1)]> demo_conns)
              (<[1 := None]> ∅) ∅
              [Call 11 1 7; Noted 1; Call 12 2 7; Noted 2;
               Call 13 3 7; Noted 3; Call 14 4 7; Noted 4]) ∧
    is_list nd' 1 [11; 12; 13; 14].
Proof.
  apply (listener_added_during_dispatch_is_invoked connect_prog demo_heap
           1 None [11] [13] 12 14 (Conn (Some 2) (Some 1)) 2 4 [Note 2] [] 7 6);
    try done; try exact demo_is_list; repeat constructor.
Defined.

(** C10. Move-constructing [b] from a live connection [a] first links [b]
    right after [a] and then disconnects [a]: [b] ends up in the place of [a],
    and every holder whose cursor was on [a] is moved onto [b].  So when the
    listener just before [a] does the move during an emission, that emission
    calls the moved slot through [b], where [a] would have been called. *)
Theorem moved_to_connection_takes_the_place (prog : fid → list cmd)
    (st : heap) (s : addr) (t : option addr) (hl : list addr) (a b : addr)
    (sa : option fid) :
  conns st !! b = None → nodes st !! b = None →
  conns st !! a = Some (Conn sa (Some s)) → tails st !! s = Some t →
  hchain (holders st) t hl →
  (∀ l1 l2, is_list (nodes st) s (l1 ++ a :: l2) →
     ∃ nd1 nd' hs',
       IList.insert (head_of s l2) b (<[b := Node b b]> (nodes st)) = Some nd1 ∧
       is_list nd1 s (l1 ++ a :: b :: l2) ∧
       move_construct b a st = Some
         (Heap nd' (<[a := Conn None None]> (<[b := Conn sa (Some s)]> (conns st)))
               (tails st) hs' (trace st)) ∧
       is_list nd' s (l1 ++ b :: l2) ∧ idle nd' a ∧
       (∀ k, hs' !! k =
               if decide (k ∈ hl) then retarget a b <$> holders st !! k
               else holders st !! k)) ∧
  (∀ pre x post cn f fa ks1 ks2 arg n,
     is_list (nodes st) s (pre ++ x :: a :: post) →
     conns st !! x = Some cn → slot cn = Some f → sa = Some fa →
     prog f = ks1 ++ MoveConstruct b a :: ks2 → quiet_body ks1 → quiet_body ks2 →
     quiet_body (prog fa) →
     Forall (quiet prog (conns st)) pre → Forall (quiet prog (conns st)) post →
     length (pre ++ x :: a :: post) < n →
     ∃ nd' hs',
       emit prog (S n) s arg st =
         Done (Heap nd'
                 (<[a := Conn None None]> (<[b := Conn sa (Some s)]> (conns st)))
                 (tails st) hs'
                 (trace st ++ invocations prog (conns st) arg pre
                    ++ Call x f arg :: noted ks1 ++ noted ks2
                    ++ Call b fa arg :: noted (prog fa)
                    ++ invocations prog (conns st) arg post)) ∧
       is_list nd' s (pre ++ x :: b :: post) ∧ idle nd' a ∧
       (∀ k, hs' !! k =
               if decide (k ∈ hl) then retarget a b <$> holders st !! k
               else holders st !! k)).
Proof.
  intros Hb Hnb Ha Ht Hh. split.
  { intros l1 l2 Hl. by apply (move_construct_spec st a b s sa t hl l1 l2). }
  intros pre x post cn f fa ks1 ks2 arg n Hl Hx Hf -> Hp Hk1 Hk2 Hfa Hpre Hpost Hn.
  rewrite length_app in Hn. simpl in Hn.
  assert (∃ m, n = length pre + S m ∧ length (b :: post) < m) as (m & Hnm & Hm).
  { exists (n - length pre - 1). simpl. lia. }
  pose proof (is_list_fresh _ _ _ _ Hl Hnb) as Hfr.
  assert (a ≠ b) as Hab by (intros ->; congruence).
  rewrite (emit_reach prog n m s arg st t pre x (a :: post) cn f Ht Hl Hx Hf
             Hpre Hnm).
  pose proof (fresh_not_in_chain _ _ _ Hh) as Hfc.
  pose proof (hchain_push (holders st) t hl (Holder t a (Some s)) Hh eq_refl)
    as Hh'.
  change (head_of s (a :: post)) with a.
  set (h := fresh (dom (holders st))) in *. simpl.
  rewrite Hp, exec_app, exec_quiet by done. simpl.
  set (st1 := Heap _ _ _ _ _).
  destruct (move_construct_spec st1 a b s (Some fa) (Some h) (h :: hl)
              (pre ++ [x]) post)
    as (nd1 & nd' & hs' & _ & _ & -> & Hl' & Hid & Hpw);
    [done|done|done|by (unfold st1; simpl; rewrite lookup_insert_eq)|done
    |by rewrite <-app_assoc|].
  simpl. rewrite exec_quiet by done. simpl.
  assert (hs' !! h = Some (Holder t b (Some s))) as Hh0.
  { rewrite Hpw. rewrite decide_True by set_solver. unfold st1. simpl.
    rewrite lookup_insert_eq. simpl. unfold retarget. simpl.
    by rewrite bool_decide_eq_true_2. }
  rewrite Hh0. simpl.
  assert ((a ∉ post) ∧ (b ∉ post) ∧ (s ∉ b :: post)) as (Hap & Hbp & Hsp).
  { destruct Hl as (Hnd & _). destruct Hl' as (Hnd' & _). split; [ss|].
    split; ss. }
  assert (∀ k, k ∈ post →
            <[a := Conn None None]> (<[b := Conn (Some fa) (Some s)]> (conns st))
              !! k = conns st !! k) as Hcs.
  { intros k Hk. rewrite !lookup_insert_ne; [done| |]; intros ->; done. }
  rewrite (loop_finish prog _ _ h s arg _ t b s x (b :: post)); simpl;
    [|done|by rewrite lookup_insert_eq
     |by (apply is_list_suffix in Hl'; rewrite last_of_snoc in Hl')
     |done|done| |done].
  - exists nd', (delete h hs'). rewrite <-app_assoc in Hl'. simpl in Hl'.
    split; [|split; [done|split; [done|]]].
    + rewrite insert_insert_eq, (insert_id (tails st) s t) by done.
      unfold invocations. simpl. fold (invocations prog
        (<[a := Conn None None]> (<[b := Conn (Some fa) (Some s)]> (conns st)))
        arg post).
      rewrite (invocations_ext prog (conns st) _ arg post) by done.
      unfold invocation, slot_of. rewrite lookup_insert_ne by done.
      rewrite lookup_insert_eq. simpl.
      do 2 f_equal. rewrite <-?app_assoc. simpl. by rewrite <-?app_assoc.
    + intros k. destruct (decide (k = h)) as [->|Hkh].
      * rewrite lookup_delete_eq. rewrite decide_False by done.
        symmetry. apply fresh_lookup.
      * rewrite lookup_delete_ne by done. rewrite Hpw. unfold st1. simpl.
        rewrite lookup_insert_ne by done.
        destruct (decide (k ∈ hl)); [rewrite decide_True by set_solver|
                                    rewrite decide_False by set_solver]; done.
  - apply Forall_cons. split; [|by eapply Forall_quiet_ext].
    unfold quiet, slot_of. rewrite lookup_insert_ne by done.
    by rewrite lookup_insert_eq.
Qed.

Lemma moved_to_connection_takes_the_place_witness :
  ∃ nd' hs',
    emit move_construct_prog 6 1 7 demo_heap =
      Done (Heap nd'
              (<[13 := Conn None None]>
                 (<[14 := Conn (Some 3) (Some 1)]> demo_conns))
              (<[1 := None]> ∅) hs'
              [Call 11 1 7; Noted 1; Call 12 2 7; Noted 2;
               Call 14 3 7; Noted 3]) ∧
    is_list nd' 1 [11; 12; 14] ∧ idle nd' 13 ∧
    ∀ k, hs' !! k =
           if decide (k ∈ []) then retarget 13 14 <$> holders demo_heap !! k
           else holders demo_heap !! k.
Proof.
  pose proof (moved_to_connection_takes_the_place move_construct_prog demo_heap
                1 None [] 13 14 (Some 3) eq_refl eq_refl eq_refl eq_refl
                eq_refl) as [_ H].
  apply (H [11] 12 [] (Conn (Some 2) (Some 1)) 2 3 [Note 2] [] 7 5);
    try done; try exact demo_is_list; repeat constructor.
Defined.

(** C3. Destroying a signal ends every emission on it and leaves its
    connections idle.  [~signal()] nulls the back-pointer of every holder on
    the stack and the owning-signal pointer of every connection, and unlinks
    every connection, so that a later [disconnect] changes nothing and the
    destruction of the connection only removes the connection itself; a loop
    whose holder has a null back-pointer when the callback returns stops
    there; and an emission whose listener destroys the signal returns after
    that callback without calling the listeners behind it. *)
Theorem signal_destroyed_during_dispatch (prog : fid → list cmd) (st : heap)
    (s : addr) (t : option addr) (hl l : list addr) :
  tails st !! s = Some t → hchain (holders st) t hl →
  is_list (nodes st) s l → (∀ c, c ∈ l → is_Some (conns st !! c)) →
  (∃ nd' cs' hs',
     let st' := Heap nd' cs' (delete s (tails st)) hs' (trace st) in
     destroy_signal s st = Some st' ∧
     (∀ k, k ∈ hl →
        ∃ hd, holders st !! k = Some hd ∧
              hs' !! k = Some (Holder (it_prev hd) (current hd) None)) ∧
     (∀ c, c ∈ l →
        ∃ cn, conns st !! c = Some cn ∧ cs' !! c = Some (Conn (slot cn) None) ∧
              idle nd' c ∧ disconnect c st' = Some st' ∧
              destroy_connection c st' =
                Some (Heap (delete c nd') (delete c cs') (delete s (tails st))
                        hs' (trace st)))) ∧
  (∀ emit_rec n h s' a st0 hd nx cn f st2 hd2,
     holders st0 !! h = Some hd → current hd ≠ s' →
     INode.get_next (current hd) (nodes st0) = Some nx →
     conns st0 !! current hd = Some cn → slot cn = Some f →
     exec emit_rec (prog f)
       (record (Call (current hd) f a) (advanced h hd nx [] st0)) = Done st2 →
     holders st2 !! h = Some hd2 → it_sig hd2 = None →
     loop prog emit_rec (S n) h s' a st0 = Done st2) ∧
  (∀ pre x post cn f ks1 ks2 a n,
     l = pre ++ x :: post → conns st !! x = Some cn → slot cn = Some f →
     prog f = ks1 ++ DestroySignal s :: ks2 → quiet_body ks1 → quiet_body ks2 →
     Forall (quiet prog (conns st)) pre → length pre < n →
     ∃ nd' cs' hs',
       emit prog (S n) s a st =
         Done (Heap nd' cs' (delete s (tails st)) hs'
                 (trace st ++ invocations prog (conns st) a pre
                    ++ Call x f a :: noted ks1 ++ noted ks2)) ∧
       (∀ c, c ∈ l → cs' !! c = disown <$> conns st !! c ∧ idle nd' c) ∧
       (∀ k, hs' !! k =
               if decide (k ∈ hl) then orphan <$> holders st !! k
               else holders st !! k)).
Proof.
  intros Ht Hh Hl Hc. split; [|split].
  - destruct (destroy_signal_spec st s t hl l Ht Hh Hl Hc)
      as (nd' & cs' & hs' & Hd & Hhs & Hcs & Hid & _).
    exists nd', cs', hs'. split; [done|]. split.
    + intros k Hk. destruct (hchain_live _ _ _ _ Hh Hk) as [hd Hhd].
      exists hd. split; [done|]. rewrite Hhs, decide_True by done.
      by rewrite Hhd.
    + intros c Hcl. destruct (Hc c Hcl) as [cn Hcn]. exists cn.
      assert (cs' !! c = Some (Conn (slot cn) None)) as Hc'.
      { rewrite Hcs, decide_True by done. by rewrite Hcn. }
      split; [done|]. split; [done|]. split; [by apply Hid|].
      split; [by eapply disconnect_idle|].
      unfold destroy_connection. erewrite disconnect_idle by done. simpl.
      unfold INode.destroy. rewrite remove_idle by by apply Hid. done.
  - intros emit_rec n h s' a st0 hd nx cn f st2 hd2 H1 H2 H3 H4 H5 He H6 H7.
    rewrite (loop_step prog emit_rec n h s' a st0 hd nx cn f) by done.
    by rewrite He, H6, H7.
  - intros pre x post cn f ks1 ks2 a n -> Hx Hf Hp Hk1 Hk2 Hpre Hn.
    assert (∃ m, n = length pre + S m) as (m & Hnm).
    { exists (n - length pre - 1). lia. }
    rewrite (emit_reach prog n m s a st t pre x post cn f Ht Hl Hx Hf Hpre Hnm).
    pose proof (fresh_not_in_chain _ _ _ Hh) as Hfc.
    pose proof (fresh_lookup (holders st)) as Hfh.
    pose proof (hchain_push (holders st) t hl
                  (Holder t (head_of s post) (Some s)) Hh eq_refl) as Hh'.
    set (h := fresh (dom (holders st))) in *. simpl.
    rewrite Hp, exec_app, exec_quiet by done. simpl.
    set (st1 := Heap _ _ _ _ _).
    destruct (destroy_signal_spec st1 s (Some h) (h :: hl) (pre ++ x :: post))
      as (nd' & cs' & hs' & -> & Hhs & Hcs & Hid & _);
      [by (unfold st1; simpl; rewrite lookup_insert_eq)|done|done|done|].
    simpl. rewrite exec_quiet by done. simpl.
    assert (hs' !! h = Some (Holder t (head_of s post) None)) as Hh0.
    { rewrite Hhs, decide_True by set_solver. unfold st1. simpl.
      by rewrite lookup_insert_eq. }
    rewrite Hh0. simpl. unfold pop_holder. simpl. rewrite Hh0. simpl.
    exists nd', cs', (delete h hs'). split; [|split].
    + unfold with_holders. simpl. rewrite delete_insert_eq.
      do 2 f_equal. by rewrite <-!app_assoc.
    + intros c Hcl. split; [|by apply Hid].
      by rewrite Hcs, decide_True by done.
    + intros k. destruct (decide (k = h)) as [->|Hkh].
      * rewrite lookup_delete_eq. by rewrite decide_False.
      * rewrite lookup_delete_ne by done. rewrite Hhs. unfold st1. simpl.
        rewrite lookup_insert_ne by done.
        destruct (decide (k ∈ hl)); [rewrite decide_True by set_solver|
                                    rewrite decide_False by set_solver]; done.
Qed.

Lemma signal_destroyed_during_dispatch_witness :
  ∃ nd' cs' hs',
    emit destroy_signal_prog 6 1 7 demo_heap =
      Done (Heap nd' cs' ∅ hs' [Call 11 1 7; Noted 1; Call 12 2 7; Noted 2]) ∧
    (∀ c, c ∈ [11; 12; 13] →
       cs' !! c = disown <$> demo_conns !! c ∧ idle nd' c) ∧
    (∀ k, hs' !! k =
            if decide (k ∈ []) then orphan <$> holders demo_heap !! k
            else holders demo_heap !! k).
Proof.
  assert (∀ c, c ∈ [11; 12; 13] → is_Some (conns demo_heap !! c)) as Hc.
  { intros c Hc. repeat (apply elem_of_cons in Hc as [->|Hc]; [by eexists|]).
    by apply elem_of_nil in Hc. }
  pose proof (signal_destroyed_during_dispatch destroy_signal_prog demo_heap
                1 None [] [11; 12; 13] eq_refl eq_refl demo_is_list Hc)
    as (_ & _ & H).
  destruct (H [11] 12 [13] (Conn (Some 2) (Some 1)) 2 [Note 2] [] 7 5)
    as (nd' & cs' & hs' & He & H1 & H2);
    try done; [repeat constructor|simpl; lia|].
  exists nd', cs', hs'. split; [|done].
  rewrite He. do 2 f_equal.
Defined.

(** C1 fails on the code for move-assignment.  Inside the callback of [11]
    the holder of the emission points at [12], a linked connection.  There
    [connection c20; c20 = std::move(c12);] moves the cursor onto the
    temporary of the assignment, swaps the temporary with [c20] without
    touching the holders, and destroys the temporary: the cursor is left on
    storage that holds no object, which is neither an element of the list
    nor its sentinel, and the emission then reads through it. *)
Theorem move_assign_strands_cursor :
  cursors_ok (holders demo_in_callback) [0] 1 [11; 12; 13] ∧
  (st ← default_connection 20 demo_in_callback; move_assign 20 12 st)
    = Some demo_after_move_assign ∧
  is_list (nodes demo_after_move_assign) 1 [11; 20; 13] ∧
  hchain (holders demo_after_move_assign) (Some 0) [0] ∧
  holders demo_after_move_assign !! 0 = Some (Holder None 21 (Some 1)) ∧
  nodes demo_after_move_assign !! 21 = None ∧
  ¬ cursors_ok (holders demo_after_move_assign) [0] 1 [11; 20; 13] ∧
  emit move_assign_prog 6 1 7 demo_heap = Undefined.
Proof.
  split.
  { intros h hd Hh Hhd. apply list_elem_of_singleton in Hh as ->.
    change (holders demo_in_callback !! 0) with (Some (Holder None 12 (Some 1)))
      in Hhd.
    injection Hhd as <-. simpl. apply (bool_decide_unpack _). by vm_compute. }
  split; [by vm_compute|].
  split.
  { split; [|by vm_compute]. apply (bool_decide_unpack _). by vm_compute. }
  split; [split; [done|]; eexists; split; [by vm_compute|done]|].
  split; [by vm_compute|]. split; [by vm_compute|].
  split; [|by vm_compute].
  intros H.
  specialize (H 0 (Holder None 21 (Some 1))).
  assert (21 ∈ [1; 11; 20; 13]) as Hin.
  { apply H; [by apply list_elem_of_singleton|by vm_compute]. }
  revert Hin. apply (bool_decide_unpack _). by vm_compute.
Qed.

(** C7 fails on the code for a move-assignment between neighbours.  With
    [c11], [c12], [c13] connected in that order, [c12 = std::move(c11);] puts
    the temporary between [c11] and [c12]; swapping two adjacent nodes leaves
    both self-linked while their old neighbours still point at the temporary.
    Afterwards [c12] names the signal as its owner but is idle, and the
    sentinel points at the destroyed temporary: there is no list left, and
    the next emission reads through a dangling pointer. *)
Theorem adjacent_move_assign_breaks_membership :
  is_list (nodes demo_heap) 1 [11; 12; 13] ∧
  owners_ok (conns demo_heap) 1 [11; 12; 13] ∧
  move_assign 12 11 demo_heap = Some demo_after_adjacent_assign ∧
  conns demo_after_adjacent_assign !! 12 = Some (Conn (Some 1) (Some 1)) ∧
  idle (nodes demo_after_adjacent_assign) 12 ∧
  INode.get_next 1 (nodes demo_after_adjacent_assign) = Some 14 ∧
  nodes demo_after_adjacent_assign !! 14 = None ∧
  (∀ l, ¬ is_list (nodes demo_after_adjacent_assign) 1 l) ∧
  emit quiet_prog 6 1 7 demo_after_adjacent_assign = Undefined.
Proof.
  split; [exact demo_is_list|]. split.
  { intros c. split.
    - intros [f Hf]. unfold demo_heap, demo_conns in Hf. simpl in Hf.
      destruct (decide (c = 11)) as [->|]; [set_solver|].
      destruct (decide (c = 12)) as [->|]; [set_solver|].
      destruct (decide (c = 13)) as [->|]; [set_solver|].
      rewrite !lookup_insert_ne in Hf by done. by rewrite lookup_empty in Hf.
    - intros Hc. repeat (apply elem_of_cons in Hc as [->|Hc]; [by eexists|]).
      by apply elem_of_nil in Hc. }
  split; [by vm_compute|]. split; [by vm_compute|]. split; [by vm_compute|].
  split; [by vm_compute|]. split; [by vm_compute|]. split; [|by vm_compute].
  intros l Hl. pose proof (is_list_live _ _ _ 14 Hl) as Hlive.
  destruct Hl as (_ & Hf & _). apply fwd_head in Hf.
  change (INode.get_next 1 (nodes demo_after_adjacent_assign)) with (Some 14)
    in Hf.
  destruct l as [|x l]; [by injection Hf|].
  change (head_of 1 (x :: l)) with x in Hf. injection Hf as <-.
  destruct Hlive as [? Hx]; [apply elem_of_cons; right; apply elem_of_cons; by left|].
  by vm_compute in Hx.
Qed.

(** * Further properties of the intrusive list *)

Section ListFacts.
Implicit Types (nd : gmap addr node) (l : list addr) (a b c k p q s x y : addr).

(** Along a segment with reciprocal links every step forward can be taken
    back. *)
Lemma seg_step_forward nd l : ∀ p c u,
  fwd nd p l c → bwd nd p l c → u ∈ p :: l →
  ∃ n, INode.get_next u nd = Some n ∧ INode.get_prev n nd = Some u ∧
       n ∈ l ++ [c].
Proof.
  induction l as [|x l IH]; intros p c u Hf Hb Hu; simpl in *.
  - assert (u = p) as -> by set_solver. exists c. set_solver.
  - destruct Hf as [Hf1 Hf2], Hb as [Hb1 Hb2].
    apply elem_of_cons in Hu as [->|Hu].
    + exists x. set_solver.
    + destruct (IH x c u Hf2 Hb2 Hu) as (n & ? & ? & ?). exists n. set_solver.
Qed.

Lemma seg_step_backward nd l : ∀ p c v,
  fwd nd p l c → bwd nd p l c → v ∈ l ++ [c] →
  ∃ q, INode.get_prev v nd = Some q ∧ INode.get_next q nd = Some v ∧
       q ∈ p :: l.
Proof.
  induction l as [|x l IH]; intros p c v Hf Hb Hv; simpl in *.
  - assert (v = c) as -> by set_solver. exists p. set_solver.
  - destruct Hf as [Hf1 Hf2], Hb as [Hb1 Hb2].
    apply elem_of_cons in Hv as [->|Hv].
    + exists p. set_solver.
    + destruct (IH x c v Hf2 Hb2 Hv) as (q & ? & ? & ?). exists q. set_solver.
Qed.

End ListFacts.

(** X1. [empty()] of a list answers whether the list has no element. *)
Theorem list_empty_iff_no_element (nd : gmap addr node) (s : addr)
    (l : list addr) :
  is_list nd s l → IList.empty s nd = Some (bool_decide (l = [])).
Proof.
  intros (Hnd & Hf & _). unfold IList.empty. rewrite (fwd_head _ _ _ _ Hf).
  simpl. f_equal. destruct l as [|x l]; [by rewrite !bool_decide_eq_true_2|].
  rewrite !bool_decide_eq_false_2; [done|done|].
  change (head_of s (x :: l)) with x. apply NoDup_cons in Hnd as [? _].
  set_solver.
Qed.

Lemma list_empty_iff_no_element_witness :
  IList.empty 1 demo_nodes = Some false ∧
  IList.empty 6 demo_ring = Some true.
Proof.
  split.
  - exact (list_empty_iff_no_element demo_nodes 1 [11; 12; 13] demo_is_list).
  - apply (list_empty_iff_no_element demo_ring 6 []).
    apply is_list_nil. by vm_compute.
Defined.

(** X2. Iterators are bidirectional on a well-formed list: from every
    position, sentinel included, [++] followed by [--] and [--] followed by
    [++] come back to the position, and both stay inside the list. *)
Theorem iterator_round_trip (nd : gmap addr node) (s : addr) (l : list addr)
    (c : addr) :
  is_list nd s l → c ∈ s :: l →
  (∃ n, IList.incr c nd = Some n ∧ n ∈ s :: l ∧ IList.decr n nd = Some c) ∧
  (∃ p, IList.decr c nd = Some p ∧ p ∈ s :: l ∧ IList.incr p nd = Some c).
Proof.
  intros (Hnd & Hf & Hb) Hc. unfold IList.incr, IList.decr. split.
  - destruct (seg_step_forward nd l s s c Hf Hb Hc) as (n & ? & ? & ?).
    exists n. set_solver.
  - destruct (seg_step_backward nd l s s c Hf Hb) as (q & ? & ? & ?);
      [set_solver|]. exists q. set_solver.
Qed.

Lemma iterator_round_trip_witness :
  (∃ n, IList.incr 13 demo_nodes = Some n ∧ n ∈ [1; 11; 12; 13] ∧
        IList.decr n demo_nodes = Some 13) ∧
  (∃ p, IList.decr 13 demo_nodes = Some p ∧ p ∈ [1; 11; 12; 13] ∧
        IList.incr p demo_nodes = Some 13).
Proof.
  apply (iterator_round_trip demo_nodes 1 [11; 12; 13] 13 demo_is_list).
  apply (bool_decide_unpack _). by vm_compute.
Defined.

Section Rehome.
Implicit Types (nd : gmap addr node) (l : list addr) (a b c k p q s x y : addr).

Lemma insert_after_remove nd nd1 it c :
  INode.remove c nd = Some nd1 → idle nd1 c →
  IList.insert it c nd = IList.insert it c nd1.
Proof.
  intros Hr Hi. unfold IList.insert. rewrite Hr. simpl.
  by rewrite (remove_idle _ _ Hi).
Qed.

Lemma is_list_frame_fields nd nd' s l :
  (∀ k, k ∈ s :: l → INode.get_next k nd' = INode.get_next k nd ∧
                      INode.get_prev k nd' = INode.get_prev k nd) →
  is_list nd s l → is_list nd' s l.
Proof.
  intros H. apply is_list_frame. intros k Hk.
  destruct (H k Hk). by apply lookup_ext_fields.
Qed.

End Rehome.

(** X3. Re-homing inside one list: [insert(it, value)] for an element that
    is already linked first unlinks it and then splices it in front of [it];
    with [it = end()] this is [push_back], which moves the element to the
    tail. *)
Theorem insert_rehomes_within_list (nd : gmap addr node) (s c : addr)
    (l1 l2 k1 k2 : list addr) :
  is_list nd s (l1 ++ c :: l2) → l1 ++ l2 = k1 ++ k2 →
  (∃ nd', IList.insert (head_of s k2) c nd = Some nd' ∧
          is_list nd' s (k1 ++ c :: k2)) ∧
  (∃ nd', IList.push_back s c nd = Some nd' ∧ is_list nd' s (l1 ++ l2 ++ [c])).
Proof.
  intros Hl Hk.
  destruct (is_list_remove _ _ _ _ _ Hl) as (nd1 & Hr & Hl1 & Hn1 & Hp1).
  assert (idle nd1 c) as Hi by (apply idle_fields; split; pw).
  assert (c ∉ s :: l1 ++ l2) as Hc by (destruct Hl as (Hnd & _); ss).
  split.
  - rewrite (insert_after_remove _ _ _ _ Hr Hi). rewrite Hk in Hl1, Hc.
    destruct (is_list_insert nd1 s k1 k2 c Hl1 Hi Hc) as (nd' & ? & ? & _).
    by exists nd'.
  - unfold IList.push_back. rewrite (insert_after_remove _ _ _ _ Hr Hi).
    destruct (is_list_insert nd1 s (l1 ++ l2) [] c) as (nd' & ? & ? & _);
      rewrite ?app_nil_r; try done.
    exists nd'. by rewrite app_assoc.
Qed.

Lemma insert_rehomes_within_list_witness :
  (∃ nd', IList.insert 11 13 demo_nodes = Some nd' ∧
          is_list nd' 1 [13; 11; 12]) ∧
  (∃ nd', IList.push_back 1 11 demo_nodes = Some nd' ∧
          is_list nd' 1 [12; 13; 11]).
Proof.
  split.
  - apply (proj1 (insert_rehomes_within_list demo_nodes 1 13 [11; 12] []
                    [] [11; 12] demo_is_list eq_refl)).
  - apply (proj2 (insert_rehomes_within_list demo_nodes 1 11 [] [12; 13]
                    [] [12; 13] demo_is_list eq_refl)).
Defined.

(** X4. Re-homing across lists: inserting an element of one list into
    another list takes it out of the first, which stays well-formed, and
    puts it at the requested position of the second. *)
Theorem insert_rehomes_across_lists (nd : gmap addr node) (s1 s2 c : addr)
    (l1 l2 k1 k2 : list addr) :
  is_list nd s1 (l1 ++ c :: l2) → is_list nd s2 (k1 ++ k2) →
  (∀ k, k ∈ s1 :: l1 ++ c :: l2 → k ∉ s2 :: k1 ++ k2) →
  ∃ nd', IList.insert (head_of s2 k2) c nd = Some nd' ∧
         is_list nd' s1 (l1 ++ l2) ∧ is_list nd' s2 (k1 ++ c :: k2).
Proof.
  intros Hl Hk Hd.
  destruct (is_list_remove _ _ _ _ _ Hl) as (nd1 & Hr & Hl1 & Hn1 & Hp1).
  assert (idle nd1 c) as Hi by (apply idle_fields; split; pw).
  pose proof (last_of_elem s1 l1) as Hx. pose proof (head_of_elem s1 l2) as Hy.
  pose proof (last_of_elem s2 k1) as Hx2. pose proof (head_of_elem s2 k2) as Hy2.
  assert (c ∉ s1 :: l1 ++ l2) as Hc1 by (destruct Hl as (Hnd & _); ss).
  assert (is_list nd1 s2 (k1 ++ k2)) as Hk1.
  { eapply is_list_frame_fields; [|done]. intros k Hkk.
    assert (k ∈ s1 :: l1 ++ c :: l2 → False) as Hno by (intros ?; by eapply Hd).
    split; pw; exfalso; apply Hno; clear -Hx Hy; set_solver. }
  rewrite (insert_after_remove _ _ _ _ Hr Hi).
  destruct (is_list_insert nd1 s2 k1 k2 c Hk1 Hi) as (nd' & Hins & Hl2 & Hn2 & Hp2).
  { intros Hin. eapply Hd; [|done]. set_solver. }
  exists nd'. split; [done|]. split; [|done].
  eapply is_list_frame_fields; [|done]. intros k Hkk.
  assert (k ∈ s1 :: l1 ++ c :: l2) as Hk' by set_solver.
  assert (k ≠ c) by (intros ->; done).
  split; pw; exfalso; eapply Hd; try done; clear -Hx2 Hy2; set_solver.
Qed.

Lemma insert_rehomes_across_lists_witness :
  ∃ nd', IList.insert 7 2 demo_ring = Some nd' ∧
         is_list nd' 1 [3] ∧ is_list nd' 7 [8; 2].
Proof.
  apply (insert_rehomes_across_lists demo_ring 1 7 2 [] [3] [8] []).
  - split; [|by vm_compute]. apply (bool_decide_unpack _). by vm_compute.
  - split; [|by vm_compute]. apply (bool_decide_unpack _). by vm_compute.
  - intros k Hk. apply (bool_decide_unpack _).
    repeat (apply elem_of_cons in Hk as [->|Hk]; [by vm_compute|]).
    by apply elem_of_nil in Hk.
Defined.

(** X5. Inserting an element in front of itself takes it out of the list:
    after its own [remove()] the position [it] is the idle element, so the
    splice links the element to itself. *)
Theorem insert_before_itself_unlinks (nd : gmap addr node) (s c : addr)
    (l1 l2 : list addr) :
  is_list nd s (l1 ++ c :: l2) →
  ∃ nd', IList.insert c c nd = Some nd' ∧ is_list nd' s (l1 ++ l2) ∧
         idle nd' c.
Proof.
  intros Hl.
  destruct (is_list_remove _ _ _ _ _ Hl) as (nd1 & Hr & Hl1 & Hn1 & Hp1).
  assert (idle nd1 c) as Hi by (apply idle_fields; split; pw).
  exists nd1. split; [|done]. unfold IList.insert. rewrite Hr. simpl.
  unfold idle in Hi. unfold INode.get_prev, INode.set_prev, INode.set_next.
  repeat (rewrite ?Hi, ?lookup_insert_eq; simpl).
  rewrite ?insert_insert_eq, insert_id by done.
  by apply update_idle.
Qed.

Lemma insert_before_itself_unlinks_witness :
  ∃ nd', IList.insert 12 12 demo_nodes = Some nd' ∧ is_list nd' 1 [11; 13] ∧
         idle nd' 12.
Proof.
  exact (insert_before_itself_unlinks demo_nodes 1 12 [11] [13] demo_is_list).
Defined.

(** X6. [erase(it)] unlinks the element, leaves it idle and returns the
    iterator to its successor ([end()] for the last element). *)
Theorem erase_returns_successor (nd : gmap addr node) (s c : addr)
    (l1 l2 : list addr) :
  is_list nd s (l1 ++ c :: l2) →
  ∃ nd', IList.erase c nd = Some (head_of s l2, nd') ∧
         is_list nd' s (l1 ++ l2) ∧ idle nd' c.
Proof.
  intros Hl. destruct (is_list_mid _ _ _ _ _ Hl) as (Ec & _).
  destruct (is_list_remove _ _ _ _ _ Hl) as (nd1 & Hr & Hl1 & Hn1 & Hp1).
  exists nd1. unfold IList.erase. apply fields_lookup in Ec as [_ ->]. simpl.
  rewrite Hr. simpl. split; [done|]. split; [done|].
  apply idle_fields; split; pw.
Qed.

Lemma erase_returns_successor_witness :
  (∃ nd', IList.erase 12 demo_nodes = Some (13, nd') ∧ is_list nd' 1 [11; 13] ∧
          idle nd' 12) ∧
  (∃ nd', IList.erase 13 demo_nodes = Some (1, nd') ∧ is_list nd' 1 [11; 12] ∧
          idle nd' 13).
Proof.
  split.
  - exact (erase_returns_successor demo_nodes 1 12 [11] [13] demo_is_list).
  - exact (erase_returns_successor demo_nodes 1 13 [11; 12] [] demo_is_list).
Defined.

(** X7. The destructor of a list unlinks every element and leaves each one
    idle; the sentinel goes away with the list, and nodes outside the list
    are not touched. *)
Theorem list_destructor_unlinks_all (nd : gmap addr node) (s : addr)
    (l : list addr) :
  is_list nd s l →
  ∃ nd', IList.destroy s nd = Some nd' ∧ nd' !! s = None ∧
         (∀ c, c ∈ l → idle nd' c) ∧
         (∀ k, k ∉ s :: l → nd' !! k = nd !! k).
Proof.
  intros Hl. pose proof Hl as (Hnd & Hf & _).
  assert (length l < size nd) as Hlen.
  { change (length (s :: l) ≤ size nd).
    apply NoDup_live_length; [done|]. intros k. by apply is_list_live. }
  unfold IList.destroy, IList.begin. rewrite (fwd_head _ _ _ _ Hf). simpl.
  destruct (clear_spec s l nd (size nd) Hl ltac:(lia))
    as (nd1 & -> & Hs & Hid & Hfr). simpl.
  unfold INode.destroy. rewrite remove_idle by done. simpl.
  exists (delete s nd1). split; [done|]. split; [by rewrite lookup_delete_eq|].
  apply NoDup_cons in Hnd as [Hs' _]. split.
  - intros c Hc. unfold idle. rewrite lookup_delete_ne by set_solver.
    by apply Hid.
  - intros k Hk. rewrite lookup_delete_ne by set_solver. by apply Hfr.
Qed.

Lemma list_destructor_unlinks_all_witness :
  ∃ nd', IList.destroy 1 demo_ring = Some nd' ∧ nd' !! 1 = None ∧
         (∀ c, c ∈ [2; 3] → idle nd' c) ∧
         (∀ k, k ∉ [1; 2; 3] → nd' !! k = demo_ring !! k).
Proof.
  apply (list_destructor_unlinks_all demo_ring 1 [2; 3]).
  split; [|by vm_compute]. apply (bool_decide_unpack _). by vm_compute.
Defined.

(** X8. [remove()] always ends in the idle state, whatever the links were,
    and is idempotent. *)
Theorem remove_leaves_idle (nd nd' : gmap addr node) (c : addr) :
  INode.remove c nd = Some nd' → idle nd' c ∧ INode.remove c nd' = Some nd'.
Proof.
  intros H. assert (idle nd' c) as Hi; [|split; [done|by apply remove_idle]].
  unfold INode.remove in H.
  assert (∀ m, INode.quite_remove c m = Some nd' → idle nd' c) as Hq.
  { unfold INode.quite_remove, INode.set_prev, INode.set_next. intros m Hm.
    destruct (m !! c) as [n|]; simplify_eq/=.
    rewrite lookup_insert_eq in Hm. simplify_eq/=. unfold idle.
    by rewrite lookup_insert_eq. }
  destruct (INode.empty c nd) as [[|]|]; simplify_eq/=; [by eapply Hq|].
  repeat match type of H with
         | (?o ≫= _) = Some _ => destruct o; simplify_eq/=
         end.
  by eapply Hq.
Qed.

Lemma remove_leaves_idle_witness :
  ∃ nd', INode.remove 2 demo_ring = Some nd' ∧ idle nd' 2 ∧
         INode.remove 2 nd' = Some nd'.
Proof.
  destruct (INode.remove 2 demo_ring) as [nd'|] eqn:E; [|by vm_compute in E].
  exists nd'. split; [done|]. exact (remove_leaves_idle demo_ring nd' 2 E).
Defined.

(** X9. Destroying a linked node stitches its neighbours together: the list
    it was in stays well-formed without it. *)
Theorem node_destructor_unlinks (nd : gmap addr node) (s c : addr)
    (l1 l2 : list addr) :
  is_list nd s (l1 ++ c :: l2) →
  ∃ nd', INode.destroy c nd = Some nd' ∧ nd' !! c = None ∧
         is_list nd' s (l1 ++ l2).
Proof.
  intros Hl.
  destruct (is_list_remove _ _ _ _ _ Hl) as (nd1 & Hr & Hl1 & _).
  assert (c ∉ s :: l1 ++ l2) as Hc by (destruct Hl as (Hnd & _); ss).
  unfold INode.destroy. rewrite Hr. simpl. exists (delete c nd1).
  split; [done|]. split; [by rewrite lookup_delete_eq|].
  eapply is_list_frame; [|done]. intros k Hk.
  rewrite lookup_delete_ne; [done|]. intros ->. done.
Qed.

Lemma node_destructor_unlinks_witness :
  ∃ nd', INode.destroy 12 demo_nodes = Some nd' ∧ nd' !! 12 = None ∧
         is_list nd' 1 [11; 13].
Proof.
  exact (node_destructor_unlinks demo_nodes 1 12 [11] [13] demo_is_list).
Defined.

(** X10. [swap] of two neighbours does not exchange them: with [a] directly
    in front of [b], both nodes come out self-linked, while the node before
    [a] still points at [a] and the node after [b] now points back at [a]. *)
Theorem swap_of_neighbours_unlinks_both (nd : gmap addr node)
    (a b x y : addr) :
  linked_between nd x a b → linked_between nd a b y →
  a ≠ b → x ≠ a → x ≠ b → y ≠ a → y ≠ b →
  ∃ nd', INode.swap a b nd = Some nd' ∧ idle nd' a ∧ idle nd' b ∧
         INode.get_next x nd' = Some a ∧ INode.get_prev y nd' = Some a.
Proof.
  intros La Lb ?????.
  destruct (linked_between_lookup _ _ _ _ La) as (Ha & [nx Hx] & _).
  destruct (linked_between_lookup _ _ _ _ Lb) as (Hb & _ & [ny Hy]).
  destruct La as (_ & _ & Hxa & _), Lb as (_ & _ & _ & Hyb).
  unfold INode.get_next in Hxa. unfold INode.get_prev in Hyb.
  rewrite Hx in Hxa. rewrite Hy in Hyb. simpl in *.
  unfold INode.swap, INode.update, INode.empty, INode.set_prev, INode.set_next,
    INode.get_prev, INode.get_next.
  rewrite Ha, Hb. simpl. rewrite !bool_decide_eq_false_2 by done. simpl.
  repeat (rewrite ?Ha, ?Hb, ?lookup_insert_eq, ?lookup_insert_ne by done; simpl).
  destruct (decide (x = y)) as [->|Hxy].
  - repeat (rewrite ?Hx, ?Hy, ?lookup_insert_eq, ?lookup_insert_ne by done;
            simpl).
    eexists. split; [done|]. unfold idle.
    repeat (rewrite ?Hx, ?Hy, ?lookup_insert_eq, ?lookup_insert_ne by done;
            simpl).
    by simplify_eq.
  - repeat (rewrite ?Hx, ?Hy, ?lookup_insert_eq, ?lookup_insert_ne by done;
            simpl).
    eexists. split; [done|]. unfold idle.
    repeat (rewrite ?Hx, ?Hy, ?lookup_insert_eq, ?lookup_insert_ne by done;
            simpl).
    by simplify_eq.
Qed.

Lemma swap_of_neighbours_unlinks_both_witness :
  ∃ nd', INode.swap 11 12 demo_nodes = Some nd' ∧ idle nd' 11 ∧ idle nd' 12 ∧
         INode.get_next 1 nd' = Some 11 ∧ INode.get_prev 13 nd' = Some 11.
Proof.
  apply (swap_of_neighbours_unlinks_both demo_nodes 11 12 1 13);
    try lia; by vm_compute.
Defined.

(** * Further properties of connections *)

Section ConnectionFacts.
Implicit Types (st : heap) (nd : gmap addr node) (l : list addr).

Lemma is_list_last_next nd s l :
  is_list nd s l → INode.get_next (last_of s l) nd = Some s.
Proof.
  intros Hl. rewrite <-(app_nil_r l) in Hl. by apply is_list_suffix in Hl.
Qed.

Lemma is_list_sentinel_prev nd s l :
  is_list nd s l → INode.get_prev s nd = Some (last_of s l).
Proof. intros (_ & _ & Hb). by apply bwd_last. Qed.

Lemma retarget_other c nx hd : current hd ≠ c → retarget c nx hd = hd.
Proof. intros H. unfold retarget. by rewrite bool_decide_eq_false_2. Qed.

Lemma retarget_current c nx hd :
  current (retarget c nx hd) = if decide (current hd = c) then nx else current hd.
Proof.
  unfold retarget. case_bool_decide; case_decide; simplify_eq; done.
Qed.

End ConnectionFacts.

(** X11. [connect] followed by [disconnect] of the new connection is a round
    trip for everything but the connection itself: the list has its old
    elements, every other node has its old links, tail pointers and holders
    are as before, and the connection is left idle with a null owner. *)
Theorem connect_disconnect_round_trip (st : heap) (c s : addr)
    (f : option fid) (t : option addr) (hl l : list addr) :
  conns st !! c = None → nodes st !! c = None → tails st !! s = Some t →
  hchain (holders st) t hl → cursors_ok (holders st) hl s l →
  is_list (nodes st) s l →
  ∃ st1 nd2,
    connect c s f st = Some st1 ∧
    disconnect c st1 =
      Some (Heap nd2 (<[c := Conn f None]> (conns st)) (tails st) (holders st)
              (trace st)) ∧
    is_list nd2 s l ∧ idle nd2 c ∧ (∀ k, k ≠ c → nd2 !! k = nodes st !! k).
Proof.
  intros Hc Hn Ht Hh Hcur Hl.
  pose proof (is_list_fresh _ _ _ _ Hl Hn) as Hfr.
  destruct (connect_spec st c s f t l Hc Hn Ht Hl) as (nd1 & Hco & Hl1 & Hn1 & Hp1).
  set (st1 := Heap nd1 (<[c := Conn f (Some s)]> (conns st)) (tails st)
                (holders st) (trace st)) in *.
  destruct (disconnect_spec st1 c s f t hl l []) as (nd2 & hs2 & Hd & Hl2 & Hpw & Hn2 & Hp2);
    [by (unfold st1; simpl; rewrite lookup_insert_eq)|done|done|done|].
  rewrite app_nil_r in Hl2. change (head_of s []) with s in *.
  assert (hs2 = holders st) as ->.
  { apply map_eq. intros k. rewrite Hpw. unfold st1. simpl. case_decide; [|done].
    destruct (holders st !! k) as [hd|] eqn:Hk; [|done]. simpl.
    rewrite retarget_other; [done|]. intros E. apply Hfr. rewrite <-E.
    by eapply Hcur. }
  unfold st1 in Hd. simpl in Hd. rewrite insert_insert_eq in Hd.
  exists st1, nd2. split; [done|]. split; [done|]. split; [done|]. split.
  - apply idle_fields. split; pw.
  - intros k Hk. apply lookup_ext_fields.
    + rewrite Hp2, Hp1. repeat case_decide; simplify_eq; try done;
        symmetry; by apply is_list_sentinel_prev.
    + rewrite Hn2, Hn1. repeat case_decide; simplify_eq; try done;
        symmetry; by apply is_list_last_next.
Qed.

Lemma connect_disconnect_round_trip_witness :
  ∃ st1 nd2,
    connect 14 1 (Some 4) demo_heap = Some st1 ∧
    disconnect 14 st1 =
      Some (Heap nd2 (<[14 := Conn (Some 4) None]> demo_conns) (<[1 := None]> ∅)
              ∅ []) ∧
    is_list nd2 1 [11; 12; 13] ∧ idle nd2 14 ∧
    (∀ k, k ≠ 14 → nd2 !! k = demo_nodes !! k).
Proof.
  apply (connect_disconnect_round_trip demo_heap 14 1 (Some 4) None []
           [11; 12; 13]); try done; exact demo_is_list.
Defined.

(** X12. Move-constructing from a connection that has no owner (default
    constructed, or disconnected) only takes its slot: the new connection
    holds the slot and is idle with a null owner, the source keeps its null
    owner, and nothing else in the heap changes.  What the moved-from slot of
    the source holds is left open. *)
Theorem move_construct_from_idle (st : heap) (a b : addr) (sa : option fid) :
  conns st !! b = None → nodes st !! b = None →
  conns st !! a = Some (Conn sa None) →
  ∃ moved_from,
    move_construct b a st =
      Some (Heap (<[b := Node b b]> (nodes st))
              (<[b := Conn sa None]> (<[a := Conn moved_from None]> (conns st)))
              (tails st) (holders st) (trace st)).
Proof.
  intros Hb Hnb Ha. exists None. unfold move_construct. rewrite Hb, Ha. simpl.
  rewrite construct_fresh by done. simpl.
  rewrite update_idle by (unfold idle; by rewrite lookup_insert_eq). simpl.
  assert (a ≠ b) by (intros ->; congruence).
  unfold disconnect. simpl. rewrite lookup_insert_ne by done.
  rewrite lookup_insert_eq. done.
Qed.

Lemma move_construct_from_idle_witness :
  ∃ moved_from,
    move_construct 21 20 demo_with_idle =
      Some (Heap (<[21 := Node 21 21]> (nodes demo_with_idle))
              (<[21 := Conn (Some 9) None]>
                 (<[20 := Conn moved_from None]> (conns demo_with_idle)))
              (tails demo_with_idle) (holders demo_with_idle)
              (trace demo_with_idle)).
Proof.
  exact (move_construct_from_idle demo_with_idle 20 21 (Some 9)
           eq_refl eq_refl eq_refl).
Defined.

(** X13. The destructor of a live connection disconnects it: the list loses
    exactly that element, holders standing on it move to its successor, and
    the storage of the connection is gone. *)
Theorem connection_destructor_disconnects (st : heap) (c s : addr)
    (f : option fid) (t : option addr) (hl l1 l2 : list addr) :
  conns st !! c = Some (Conn f (Some s)) → tails st !! s = Some t →
  hchain (holders st) t hl → is_list (nodes st) s (l1 ++ c :: l2) →
  ∃ nd' hs',
    destroy_connection c st =
      Some (Heap nd' (delete c (conns st)) (tails st) hs' (trace st)) ∧
    is_list nd' s (l1 ++ l2) ∧ nd' !! c = None ∧
    ∀ k, hs' !! k =
           if decide (k ∈ hl)
           then retarget c (head_of s l2) <$> holders st !! k
           else holders st !! k.
Proof.
  intros Hc Ht Hh Hl.
  destruct (disconnect_spec st c s f t hl l1 l2 Hc Ht Hh Hl)
    as (nd1 & hs' & Hd & Hl1 & Hpw & Hn & Hp).
  assert (c ∉ s :: l1 ++ l2) as Hcl by (destruct Hl as (Hnd & _); ss).
  unfold destroy_connection. rewrite Hd. simpl.
  unfold INode.destroy. rewrite remove_idle by (apply idle_fields; split; pw).
  simpl. exists (delete c nd1), hs'. unfold with_conns, with_nodes. simpl.
  rewrite delete_insert_eq. split; [done|]. split; [|split; [|done]].
  - eapply is_list_frame; [|done]. intros k Hk.
    rewrite lookup_delete_ne; [done|]. intros ->. done.
  - by rewrite lookup_delete_eq.
Qed.

Lemma connection_destructor_disconnects_witness :
  ∃ nd' hs',
    destroy_connection 12 demo_in_callback =
      Some (Heap nd' (delete 12 demo_conns) (<[1 := Some 0]> ∅) hs'
              [Call 11 1 7]) ∧
    is_list nd' 1 [11; 13] ∧ nd' !! 12 = None ∧
    ∀ k, hs' !! k =
           if decide (k ∈ [0])
           then retarget 12 13 <$> holders demo_in_callback !! k
           else holders demo_in_callback !! k.
Proof.
  apply (connection_destructor_disconnects demo_in_callback 12 1 (Some 2)
           (Some 0) [0] [11] [13]); try done; try exact demo_is_list.
  split; [done|]. eexists. split; [by vm_compute|done].
Defined.

Lemma demo_owners_ok : owners_ok demo_conns 1 [11; 12; 13].
Proof.
  intros c. split.
  - intros [f Hf]. unfold demo_conns in Hf.
    destruct (decide (c = 11)) as [->|]; [set_solver|].
    destruct (decide (c = 12)) as [->|]; [set_solver|].
    destruct (decide (c = 13)) as [->|]; [set_solver|].
    rewrite !lookup_insert_ne in Hf by done. by rewrite lookup_empty in Hf.
  - intros Hc. repeat (apply elem_of_cons in Hc as [->|Hc]; [by eexists|]).
    by apply elem_of_nil in Hc.
Qed.

Lemma demo_cursors_ok :
  cursors_ok (holders demo_in_callback) [0] 1 [11; 12; 13].
Proof.
  intros h hd Hh Hhd. apply list_elem_of_singleton in Hh as ->.
  change (holders demo_in_callback !! 0) with (Some (Holder None 12 (Some 1)))
    in Hhd.
  injection Hhd as <-. simpl. apply (bool_decide_unpack _). by vm_compute.
Qed.

Lemma demo_hchain : hchain (holders demo_in_callback) (Some 0) [0].
Proof. split; [done|]. eexists. split; [by vm_compute|done]. Qed.

(** X14. [connect] keeps the invariants of a signal: the list stays
    well-formed with the new connection at the tail, the connections that
    name the signal as owner are exactly the elements of the list, and every
    holder still points into the list. *)
Theorem connect_keeps_invariants (st : heap) (c s : addr) (f : option fid)
    (t : option addr) (hl l : list addr) :
  conns st !! c = None → nodes st !! c = None → tails st !! s = Some t →
  is_list (nodes st) s l → owners_ok (conns st) s l →
  cursors_ok (holders st) hl s l →
  ∃ st', connect c s f st = Some st' ∧ is_list (nodes st') s (l ++ [c]) ∧
         owners_ok (conns st') s (l ++ [c]) ∧
         cursors_ok (holders st') hl s (l ++ [c]).
Proof.
  intros Hc Hn Ht Hl Ho Hcur.
  destruct (connect_spec st c s f t l Hc Hn Ht Hl) as (nd' & -> & Hl' & _).
  eexists. split; [done|]. simpl. split; [done|]. split.
  - intros k. destruct (decide (k = c)) as [->|Hk].
    + rewrite lookup_insert_eq. split; [set_solver|]. by eexists.
    + rewrite lookup_insert_ne by done. rewrite (Ho k). set_solver.
  - intros h hd Hh Hhd. specialize (Hcur h hd Hh Hhd). set_solver.
Qed.

Lemma connect_keeps_invariants_witness :
  ∃ st', connect 14 1 (Some 4) demo_in_callback = Some st' ∧
         is_list (nodes st') 1 [11; 12; 13; 14] ∧
         owners_ok (conns st') 1 [11; 12; 13; 14] ∧
         cursors_ok (holders st') [0] 1 [11; 12; 13; 14].
Proof.
  exact (connect_keeps_invariants demo_in_callback 14 1 (Some 4) (Some 0) [0]
           [11; 12; 13] eq_refl eq_refl eq_refl demo_is_list demo_owners_ok
           demo_cursors_ok).
Defined.

(** X15. [disconnect] keeps the invariants of a signal and re-establishes
    the cursor invariant: a holder that stood on the departing connection
    stands on its successor afterwards, so every holder points at an element
    still linked or at the sentinel. *)
Theorem disconnect_keeps_invariants (st : heap) (c s : addr) (f : option fid)
    (t : option addr) (hl l1 l2 : list addr) :
  conns st !! c = Some (Conn f (Some s)) → tails st !! s = Some t →
  hchain (holders st) t hl → is_list (nodes st) s (l1 ++ c :: l2) →
  owners_ok (conns st) s (l1 ++ c :: l2) →
  cursors_ok (holders st) hl s (l1 ++ c :: l2) →
  ∃ st', disconnect c st = Some st' ∧ is_list (nodes st') s (l1 ++ l2) ∧
         hchain (holders st') t hl ∧ tails st' = tails st ∧
         owners_ok (conns st') s (l1 ++ l2) ∧
         cursors_ok (holders st') hl s (l1 ++ l2).
Proof.
  intros Hc Ht Hh Hl Ho Hcur.
  destruct (disconnect_spec st c s f t hl l1 l2 Hc Ht Hh Hl)
    as (nd' & hs' & -> & Hl' & Hpw & _).
  assert (c ∉ l1 ++ l2) as Hcl by (destruct Hl as (Hnd & _); ss).
  pose proof (head_of_elem s l2) as Hy.
  eexists. split; [done|]. simpl. split; [done|]. split; [|split; [done|split]].
  - eapply hchain_ext; [|done]. intros k Hk. rewrite Hpw, decide_True by done.
    destruct (holders st !! k) as [hd|]; [|done]. simpl. unfold retarget.
    by case_bool_decide.
  - intros k. destruct (decide (k = c)) as [->|Hk].
    + rewrite lookup_insert_eq. split; [|done]. by intros [? [=]].
    + rewrite lookup_insert_ne by done. rewrite (Ho k). set_solver.
  - intros h hd' Hh' Hhd. rewrite Hpw, decide_True in Hhd by done.
    destruct (holders st !! h) as [hd|] eqn:Hhd0; simplify_eq/=.
    specialize (Hcur h hd Hh' Hhd0). rewrite retarget_current.
    case_decide; [set_solver|]. set_solver.
Qed.

Lemma disconnect_keeps_invariants_witness :
  ∃ st', disconnect 12 demo_in_callback = Some st' ∧
         is_list (nodes st') 1 [11; 13] ∧
         hchain (holders st') (Some 0) [0] ∧
         tails st' = tails demo_in_callback ∧
         owners_ok (conns st') 1 [11; 13] ∧
         cursors_ok (holders st') [0] 1 [11; 13].
Proof.
  exact (disconnect_keeps_invariants demo_in_callback 12 1 (Some 2) (Some 0)
           [0] [11] [13] eq_refl eq_refl demo_hchain demo_is_list
           demo_owners_ok demo_cursors_ok).
Defined.

(** X16. The move constructor of a connection keeps the invariants of the
    signal: the new connection has the place and the owner of the old one,
    the old one is out of the list with a null owner, and holders that stood
    on the old one stand on the new one. *)
Theorem move_construct_keeps_invariants (st : heap) (a b s : addr)
    (f : option fid) (t : option addr) (hl l1 l2 : list addr) :
  conns st !! b = None → nodes st !! b = None →
  conns st !! a = Some (Conn f (Some s)) → tails st !! s = Some t →
  hchain (holders st) t hl → is_list (nodes st) s (l1 ++ a :: l2) →
  owners_ok (conns st) s (l1 ++ a :: l2) →
  cursors_ok (holders st) hl s (l1 ++ a :: l2) →
  ∃ st', move_construct b a st = Some st' ∧
         is_list (nodes st') s (l1 ++ b :: l2) ∧
         hchain (holders st') t hl ∧ tails st' = tails st ∧
         owners_ok (conns st') s (l1 ++ b :: l2) ∧
         cursors_ok (holders st') hl s (l1 ++ b :: l2).
Proof.
  intros Hb Hnb Ha Ht Hh Hl Ho Hcur.
  destruct (move_construct_spec st a b s f t hl l1 l2 Hb Hnb Ha Ht Hh Hl)
    as (nd1 & nd' & hs' & _ & _ & -> & Hl' & _ & Hpw).
  assert (a ∉ l1 ++ l2) as Hal by (destruct Hl as (Hnd & _); ss).
  assert (a ≠ b) as Hab by (intros ->; congruence).
  eexists. split; [done|]. simpl. split; [done|]. split; [|split; [done|split]].
  - eapply hchain_ext; [|done]. intros k Hk. rewrite Hpw, decide_True by done.
    destruct (holders st !! k) as [hd|]; [|done]. simpl. unfold retarget.
    by case_bool_decide.
  - intros k. destruct (decide (k = a)) as [->|Hka].
    + rewrite lookup_insert_eq. split; [by intros [? [=]]|]. set_solver.
    + rewrite lookup_insert_ne by done. destruct (decide (k = b)) as [->|Hkb].
      * rewrite lookup_insert_eq. split; [set_solver|]. by eexists.
      * rewrite lookup_insert_ne by done. rewrite (Ho k). set_solver.
  - intros h hd' Hh' Hhd. rewrite Hpw, decide_True in Hhd by done.
    destruct (holders st !! h) as [hd|] eqn:Hhd0; simplify_eq/=.
    specialize (Hcur h hd Hh' Hhd0). rewrite retarget_current.
    case_decide; set_solver.
Qed.

Lemma move_construct_keeps_invariants_witness :
  ∃ st', move_construct 14 12 demo_in_callback = Some st' ∧
         is_list (nodes st') 1 [11; 14; 13] ∧
         hchain (holders st') (Some 0) [0] ∧
         tails st' = tails demo_in_callback ∧
         owners_ok (conns st') 1 [11; 14; 13] ∧
         cursors_ok (holders st') [0] 1 [11; 14; 13].
Proof.
  exact (move_construct_keeps_invariants demo_in_callback 12 14 1 (Some 2)
           (Some 0) [0] [11] [13] eq_refl eq_refl eq_refl eq_refl demo_hchain
           demo_is_list demo_owners_ok demo_cursors_ok).
Defined.

(** * Further properties of dispatch *)

(** X17. A listener that an earlier callback of the same emission
    disconnects is not called by that emission, whether the cursor stood on
    it or not; the listeners between the two and behind it are called as
    usual. *)
Theorem disconnected_listener_is_skipped (prog : fid → list cmd) (st : heap)
    (s : addr) (t : option addr) (hl pre mid post : list addr) (x d : addr)
    (cn : connection) (f : fid) (sd : option fid) (ks1 ks2 : list cmd)
    (a : Args) (n : nat) :
  tails st !! s = Some t → hchain (holders st) t hl →
  is_list (nodes st) s (pre ++ x :: mid ++ d :: post) →
  conns st !! x = Some cn → slot cn = Some f →
  conns st !! d = Some (Conn sd (Some s)) →
  prog f = ks1 ++ Disconnect d :: ks2 → quiet_body ks1 → quiet_body ks2 →
  Forall (quiet prog (conns st)) pre → Forall (quiet prog (conns st)) mid →
  Forall (quiet prog (conns st)) post →
  length (pre ++ x :: mid ++ d :: post) < n →
  ∃ nd' hs',
    emit prog (S n) s a st =
      Done (Heap nd' (<[d := Conn sd None]> (conns st)) (tails st) hs'
              (trace st ++ invocations prog (conns st) a pre
                 ++ Call x f a :: noted ks1 ++ noted ks2
                 ++ invocations prog (conns st) a mid
                 ++ invocations prog (conns st) a post)) ∧
    is_list nd' s (pre ++ x :: mid ++ post) ∧ idle nd' d.
Proof.
  intros Ht Hh Hl Hx Hf Hd Hp Hk1 Hk2 Hpre Hmid Hpost Hn.
  rewrite !length_app in Hn. simpl in Hn. rewrite length_app in Hn.
  simpl in Hn.
  assert (∃ m, n = length pre + S m ∧ length (mid ++ post) < m) as (m & Hnm & Hm).
  { exists (n - length pre - 1). rewrite length_app. lia. }
  assert (is_list (nodes st) s ((pre ++ x :: mid) ++ d :: post)) as Hl2.
  { by rewrite <-app_assoc. }
  pose proof Hl as (Hnd & _).
  assert ((d ∉ mid ++ post) ∧ (s ∉ mid ++ post)) as [Hdn Hsn].
  { clear -Hnd. apply NoDup_cons in Hnd as [? Hnd].
    apply NoDup_app in Hnd as (_ & _ & [_ Hnd]%NoDup_cons).
    apply NoDup_app in Hnd as (? & ? & [? ?]%NoDup_cons). set_solver. }
  rewrite (emit_reach prog n m s a st t pre x (mid ++ d :: post) cn f Ht Hl Hx
             Hf Hpre Hnm).
  pose proof (fresh_not_in_chain _ _ _ Hh) as Hfr.
  pose proof (fresh_lookup (holders st)) as Hfr'.
  pose proof (hchain_push (holders st) t hl
                (Holder t (head_of s (mid ++ d :: post)) (Some s)) Hh eq_refl)
    as Hh'.
  set (h := fresh (dom (holders st))) in *. simpl.
  rewrite Hp, exec_app, exec_quiet by done. simpl.
  set (st1 := Heap _ _ _ _ _).
  destruct (disconnect_spec st1 d s sd (Some h) (h :: hl) (pre ++ x :: mid) post)
    as (nd' & hs' & -> & Hl' & Hpw & Hnx & Hpv);
    [done|by (unfold st1; simpl; rewrite lookup_insert_eq)|done|done|].
  simpl. rewrite exec_quiet by done. simpl.
  assert (hs' !! h = Some (Holder t (head_of s (mid ++ post)) (Some s))) as Hh0.
  { rewrite Hpw. rewrite decide_True by set_solver. unfold st1. simpl.
    rewrite lookup_insert_eq. simpl. unfold retarget. simpl.
    destruct mid as [|y mid]; simpl.
    - by rewrite bool_decide_eq_true_2.
    - rewrite bool_decide_eq_false_2; [done|]. set_solver. }
  rewrite Hh0. simpl.
  assert (∀ k, k ∈ mid ++ post → <[d := Conn sd None]> (conns st) !! k
                                 = conns st !! k) as Hcs.
  { intros k Hk. rewrite lookup_insert_ne; [done|]. intros ->. done. }
  rewrite <-app_assoc in Hl'. simpl in Hl'.
  assert (fwd nd' x (mid ++ post) s) as Hfw.
  { replace (pre ++ x :: mid ++ post) with ((pre ++ [x]) ++ mid ++ post) in Hl'
      by (by rewrite <-app_assoc).
    apply is_list_suffix in Hl'. by rewrite last_of_snoc in Hl'. }
  rewrite (loop_finish prog _ _ h s a _ t (head_of s (mid ++ post)) s x
             (mid ++ post)); simpl;
    [|done|by (rewrite lookup_insert_eq)|done|done|done
     |eapply Forall_quiet_ext; [done|by apply Forall_app]|done].
  exists nd', (delete h hs'). split; [|split; [done|]].
  - unfold st1. simpl. rewrite insert_insert_eq, (insert_id (tails st) s t) by done.
    rewrite (invocations_ext prog (conns st) _ a (mid ++ post)) by done.
    rewrite invocations_app.
    do 2 f_equal. by rewrite <-!app_assoc.
  - apply idle_fields. split; pw.
Qed.

Lemma disconnected_listener_is_skipped_witness :
  ∃ nd' hs',
    emit disconnect_later_prog 6 1 7 demo_heap =
      Done (Heap nd' (<[13 := Conn (Some 3) None]> demo_conns) (<[1 := None]> ∅)
              hs' [Call 11 1 7; Noted 1; Call 12 2 7; Noted 2]) ∧
    is_list nd' 1 [11; 12] ∧ idle nd' 13.
Proof.
  apply (disconnected_listener_is_skipped disconnect_later_prog demo_heap
           1 None [] [] [12] [] 11 13 (Conn (Some 1) (Some 1)) 1 (Some 3)
           [Note 1] [] 7 5);
    try done; try exact demo_is_list; repeat constructor.
Defined.

(** X18. A listener connected by the callback of the last listener is not
    called by the emission in progress: the cursor was at [end()] before the
    callback ran, and the new connection is spliced in front of [end()]. *)
Theorem listener_added_by_last_listener_waits (prog : fid → list cmd)
    (st : heap) (s : addr) (t : option addr) (pre : list addr) (x c' : addr)
    (cn : connection) (f g : fid) (ks1 ks2 : list cmd) (a : Args) (n : nat) :
  tails st !! s = Some t → is_list (nodes st) s (pre ++ [x]) →
  conns st !! x = Some cn → slot cn = Some f →
  prog f = ks1 ++ Connect c' s g :: ks2 → quiet_body ks1 → quiet_body ks2 →
  conns st !! c' = None → nodes st !! c' = None →
  Forall (quiet prog (conns st)) pre → S (length pre) < n →
  ∃ nd',
    emit prog (S n) s a st =
      Done (Heap nd' (<[c' := Conn (Some g) (Some s)]> (conns st)) (tails st)
              (holders st)
              (trace st ++ invocations prog (conns st) a pre
                 ++ Call x f a :: noted ks1 ++ noted ks2)) ∧
    is_list nd' s (pre ++ [x; c']).
Proof.
  intros Ht Hl Hx Hf Hp Hk1 Hk2 Hc' Hn' Hpre Hn.
  assert (∃ m, n = length pre + S (S m)) as (m & Hnm).
  { exists (n - length pre - 2). lia. }
  rewrite (emit_reach prog n (S m) s a st t pre x [] cn f Ht Hl Hx Hf Hpre Hnm).
  pose proof (fresh_lookup (holders st)) as Hfh.
  change (head_of s []) with s.
  set (h := fresh (dom (holders st))) in *. simpl.
  rewrite Hp, exec_app, exec_quiet by done. simpl.
  set (st1 := Heap _ _ _ _ _).
  destruct (connect_spec st1 c' s (Some g) (Some h) (pre ++ [x]))
    as (nd' & -> & Hl' & _);
    [done|done|by (unfold st1; simpl; rewrite lookup_insert_eq)|done|].
  simpl. rewrite exec_quiet by done. simpl. rewrite lookup_insert_eq. simpl.
  rewrite bool_decide_eq_true_2 by done. simpl.
  unfold pop_holder. simpl. rewrite lookup_insert_eq. simpl.
  rewrite lookup_insert_eq. simpl.
  exists nd'. split; [|by rewrite <-app_assoc in Hl'].
  unfold with_tails, with_holders. simpl.
  rewrite insert_insert_eq, (insert_id (tails st) s t) by done.
  rewrite delete_insert_eq, delete_id by done.
  do 2 f_equal. by rewrite <-!app_assoc.
Qed.

Lemma listener_added_by_last_listener_waits_witness :
  ∃ nd',
    emit connect_last_prog 7 1 7 demo_heap =
      Done (Heap nd' (<[14 := Conn (Some 4) (Some 1)]> demo_conns)
              (<[1 := None]> ∅) ∅
              [Call 11 1 7; Noted 1; Call 12 2 7; Noted 2;
               Call 13 3 7; Noted 3]) ∧
    is_list nd' 1 [11; 12; 13; 14].
Proof.
  apply (listener_added_by_last_listener_waits connect_last_prog demo_heap
           1 None [11; 12] 13 14 (Conn (Some 3) (Some 1)) 3 4 [Note 3] [] 7 6);
    try done; try exact demo_is_list; repeat constructor.
Defined.

Lemma emit_quiet_fuel (prog : fid → list cmd) n s a st t l :
  tails st !! s = Some t → is_list (nodes st) s l →
  Forall (quiet prog (conns st)) l → S (length l) < n →
  emit prog n s a st =
    Done (Heap (nodes st) (conns st) (tails st) (holders st)
               (trace st ++ invocations prog (conns st) a l)).
Proof.
  intros Ht Hl Hq Hn. destruct n as [|n]; [lia|].
  apply (emit_quiet prog n s a st t l); [done|done|done|lia].
Qed.

(** X19. Emissions nest.  A listener that disconnects itself and then emits
    the same signal again runs a complete inner emission over the remaining
    listeners, on a holder of its own stacked on the outer one; when it
    returns the outer emission goes on with the listeners behind the
    re-entering one.  Both holders are gone at the end: the holders are the
    ones of the start, those of the chain that stood on the departed
    connection now standing on its successor. *)
Theorem reentrant_emission (prog : fid → list cmd) (st : heap) (s : addr)
    (t : option addr) (hl pre post : list addr) (x : addr) (f : fid)
    (ks1 ks2 : list cmd) (a b : Args) (n : nat) :
  tails st !! s = Some t → hchain (holders st) t hl →
  is_list (nodes st) s (pre ++ x :: post) →
  conns st !! x = Some (Conn (Some f) (Some s)) →
  prog f = ks1 ++ Disconnect x :: Emit s b :: ks2 →
  quiet_body ks1 → quiet_body ks2 →
  Forall (quiet prog (conns st)) pre → Forall (quiet prog (conns st)) post →
  S (S (length pre + length post)) < n →
  ∃ nd' hs',
    emit prog (S n) s a st =
      Done (Heap nd' (<[x := Conn (Some f) None]> (conns st)) (tails st) hs'
              (trace st ++ invocations prog (conns st) a pre
                 ++ Call x f a :: noted ks1
                 ++ invocations prog (conns st) b (pre ++ post)
                 ++ noted ks2
                 ++ invocations prog (conns st) a post)) ∧
    is_list nd' s (pre ++ post) ∧ idle nd' x ∧
    ∀ k, hs' !! k =
           if decide (k ∈ hl)
           then retarget x (head_of s post) <$> holders st !! k
           else holders st !! k.
Proof.
  intros Ht Hh Hl Hx Hp Hk1 Hk2 Hpre Hpost Hn.
  assert (∃ m, n = length pre + S m ∧ length post < m) as (m & Hnm & Hm).
  { exists (n - length pre - 1). lia. }
  pose proof Hl as (Hnd & _).
  destruct (is_list_mid _ _ _ _ _ Hl) as (_ & _ & Hxy & _).
  assert ((x ∉ pre ++ post) ∧ (s ∉ post)) as [Hxn Hsn] by ss.
  rewrite (emit_reach prog n m s a st t pre x post _ f Ht Hl Hx eq_refl Hpre Hnm).
  pose proof (fresh_not_in_chain _ _ _ Hh) as Hfr.
  pose proof (hchain_push (holders st) t hl (Holder t (head_of s post) (Some s))
                Hh eq_refl) as Hh'.
  set (h := fresh (dom (holders st))) in *. cbv zeta.
  rewrite Hp, exec_app, exec_quiet by done. cbn [nodes conns tails holders trace].
  set (st1 := Heap _ _ _ _ _).
  destruct (disconnect_spec st1 x s (Some f) (Some h) (h :: hl) pre post)
    as (nd' & hs' & Hd & Hl' & Hpw & Hnx & Hpv);
    [done|by (unfold st1; simpl; rewrite lookup_insert_eq)|done|done|].
  change (exec (emit prog n) (Disconnect x :: Emit s b :: ks2) st1) with
    (match lift (disconnect x st1) with
     | Done st2 =>
         match emit prog n s b st2 with
         | Done st3 => exec (emit prog n) ks2 st3
         | o => o
         end
     | o => o
     end).
  rewrite Hd. cbn [lift]. set (st2 := Heap nd' _ _ _ _).
  assert (∀ k, k ∈ pre ++ post → conns st2 !! k = conns st !! k) as Hcs.
  { intros k Hk. unfold st2, st1. simpl. rewrite lookup_insert_ne; [done|].
    intros ->. done. }
  rewrite (emit_quiet_fuel prog n s b st2 (Some h) (pre ++ post));
    [|by (unfold st2, st1; simpl; rewrite lookup_insert_eq)|done
     |eapply Forall_quiet_ext; [done|by apply Forall_app]|rewrite length_app; lia].
  rewrite exec_quiet by done. cbn [nodes conns tails holders trace].
  assert (holders st2 !! h = Some (Holder t (head_of s post) (Some s))) as Hh0.
  { unfold st2. cbn [holders].
    rewrite Hpw. rewrite decide_True by set_solver. unfold st1. simpl.
    rewrite lookup_insert_eq. simpl. unfold retarget. simpl.
    by rewrite bool_decide_eq_false_2. }
  rewrite Hh0. cbn [it_sig].
  rewrite (loop_finish prog _ _ h s a _ t (head_of s post) s
             (last_of s pre) post); cbn [nodes conns tails holders trace];
    [|done|by (unfold st2, st1; simpl; rewrite lookup_insert_eq)
     |by (unfold st2; apply is_list_suffix)|done|done
     |eapply Forall_quiet_ext; [|done]; intros; apply Hcs; set_solver|done].
  exists nd', (delete h hs'). split; [|split; [done|split]].
  - unfold st2, st1. simpl.
    rewrite insert_insert_eq, (insert_id (tails st) s t) by done.
    rewrite (invocations_ext prog (conns st) _ b (pre ++ post)) by done.
    rewrite (invocations_ext prog (conns st) _ a post)
      by (intros; apply Hcs; set_solver).
    do 2 f_equal. by rewrite <-!app_assoc.
  - apply idle_fields. split; pw.
  - intros k. destruct (decide (k = h)) as [->|Hkh].
    + rewrite lookup_delete_eq. rewrite decide_False by done.
      symmetry. apply fresh_lookup.
    + rewrite lookup_delete_ne by done. rewrite Hpw. unfold st1. simpl.
      rewrite lookup_insert_ne by done.
      destruct (decide (k ∈ hl)); [rewrite decide_True by set_solver|
                                  rewrite decide_False by set_solver]; done.
Qed.

Lemma reentrant_emission_witness :
  ∃ nd' hs',
    emit reentrant_prog 7 1 7 demo_heap =
      Done (Heap nd' (<[12 := Conn (Some 2) None]> demo_conns) (<[1 := None]> ∅)
              hs'
              [Call 11 1 7; Noted 1; Call 12 2 7; Noted 2;
               Call 11 1 8; Noted 1; Call 13 3 8; Noted 3; Noted 22;
               Call 13 3 7; Noted 3]) ∧
    is_list nd' 1 [11; 13] ∧ idle nd' 12 ∧
    ∀ k, hs' !! k =
           if decide (k ∈ []) then retarget 12 13 <$> holders demo_heap !! k
           else holders demo_heap !! k.
Proof.
  apply (reentrant_emission reentrant_prog demo_heap 1 None [] [11] [13] 12 2
           [Note 2] [Note 22] 7 8 6);
    try done; try exact demo_is_list; repeat constructor.
Defined.

(** X20. Calling through a connection whose slot is empty throws
    ([std::bad_function_call]); the cursor has moved on, the holder is
    unwound, and the listeners behind it are not called. *)
Theorem empty_slot_throws (prog : fid → list cmd) (st : heap) (s : addr)
    (t : option addr) (pre post : list addr) (x : addr) (sg : option addr)
    (a : Args) (n : nat) :
  tails st !! s = Some t → is_list (nodes st) s (pre ++ x :: post) →
  conns st !! x = Some (Conn None sg) →
  Forall (quiet prog (conns st)) pre → length pre < n →
  emit prog (S n) s a st =
    Threw (Heap (nodes st) (conns st) (tails st) (holders st)
             (trace st ++ invocations prog (conns st) a pre)).
Proof.
  intros Ht Hl Hx Hpre Hn. pose proof Hl as (Hnd & Hfw & _).
  apply fwd_app in Hfw as [Hf1 Hf2].
  assert (∃ m, n = length pre + S m) as (m & ->).
  { exists (n - length pre - 1). lia. }
  rewrite emit_unfold. cbv zeta.
  pose proof (fresh_lookup (holders st)) as Hfr.
  set (h := fresh (dom (holders st))) in *.
  rewrite (push_holder_live h s st t (head_of x pre)); [|done|by apply fwd_head].
  set (st0 := Heap _ _ _ _ _).
  assert ((s ∉ pre) ∧ (x ≠ s)) as [Hs Hxs].
  { apply NoDup_cons in Hnd as [? _]. set_solver. }
  rewrite (loop_quiet _ _ h s a pre st0 _ (Holder t (head_of x pre) (Some s)) s x);
    [|by (unfold st0; simpl; rewrite lookup_insert_eq)|done|done|done|done|done].
  simpl. rewrite lookup_insert_eq. simpl.
  rewrite bool_decide_eq_false_2 by done.
  rewrite (fwd_head _ _ _ _ Hf2). rewrite Hx. simpl.
  unfold pop_holder. simpl. rewrite lookup_insert_eq. simpl.
  rewrite lookup_insert_eq. simpl.
  unfold with_tails, with_holders. simpl.
  rewrite !insert_insert_eq, (insert_id (tails st) s t) by done.
  rewrite delete_insert_eq, delete_id by done. done.
Qed.

Lemma empty_slot_throws_witness :
  emit quiet_prog 5 1 7 demo_empty_slot =
    Threw (Heap demo_nodes (<[12 := Conn None (Some 1)]> demo_conns)
             (<[1 := None]> ∅) ∅ [Call 11 1 7; Noted 1]).
Proof.
  apply (empty_slot_throws quiet_prog demo_empty_slot 1 None [11] [13] 12
           (Some 1) 7 4); try done; try exact demo_is_list;
    repeat constructor.
Defined.

(** * Move assignment of connections *)

Section MoveAssign.
Implicit Types (st : heap) (nd : gmap addr node) (l : list addr).

Lemma idle_not_in_list nd s l b :
  is_list nd s l → l ≠ [] → idle nd b → b ∉ s :: l.
Proof.
  intros Hl Hne Hb Hin. apply idle_fields in Hb as [_ Hb].
  apply elem_of_cons in Hin as [->|Hin].
  - destruct Hl as (Hnd & Hf & _). apply fwd_head in Hf.
    destruct l as [|y l]; [done|]. change (head_of s (y :: l)) with y in Hf.
    apply NoDup_cons in Hnd as [? _]. simplify_eq. set_solver.
  - apply list_elem_of_split in Hin as (l1 & l2 & ->).
    destruct (is_list_mid _ _ _ _ _ Hl) as (E & _ & Hy & _).
    apply fields_lookup in E as [_ E]. congruence.
Qed.

(** A node [b] that has the links of a former element takes its place. *)
Lemma is_list_replace nd nd' s l1 t l2 b :
  is_list nd s (l1 ++ t :: l2) → b ∉ s :: l1 ++ t :: l2 →
  INode.get_next b nd' = Some (head_of s l2) →
  INode.get_prev b nd' = Some (last_of s l1) →
  INode.get_next (last_of s l1) nd' = Some b →
  INode.get_prev (head_of s l2) nd' = Some b →
  (∀ k, k ∈ s :: l1 ++ l2 → k ≠ last_of s l1 →
        INode.get_next k nd' = INode.get_next k nd) →
  (∀ k, k ∈ s :: l1 ++ l2 → k ≠ head_of s l2 →
        INode.get_prev k nd' = INode.get_prev k nd) →
  is_list nd' s (l1 ++ b :: l2).
Proof.
  intros Hl Hb Hnb Hpb Hnx Hpy Hfn Hfp. pose proof Hl as (Hnd & Hf & Hbw).
  apply fwd_app in Hf as [Hf1 Hf2]. apply bwd_app in Hbw as [Hb1 Hb2].
  pose proof (last_of_elem s l1) as Hx. pose proof (head_of_elem s l2) as Hy.
  assert (NoDup (s :: l1 ++ b :: l2)) as Hnd'.
  { apply NoDup_cons in Hnd as [Hs Hnd]. apply NoDup_cons. split; [set_solver|].
    apply NoDup_app in Hnd as (? & ? & [? ?]%NoDup_cons). apply NoDup_app.
    split; [done|]. split; [set_solver|]. apply NoDup_cons. set_solver. }
  assert (NoDup (s :: l1)) as Hnd1.
  { apply NoDup_cons in Hnd as [Hs Hnd]. apply NoDup_cons.
    apply NoDup_app in Hnd as (?&?&?). set_solver. }
  split; [done|]. split.
  - apply fwd_app. split.
    + eapply fwd_redirect; [done| |done|done]. intros k Hk Hkl.
      apply Hfn; [set_solver|done].
    + destruct l2 as [|y l2]; simpl in *; [done|].
      change (head_of s (y :: l2)) with y in *. split; [done|].
      destruct Hf2 as [_ Hf2]. eapply fwd_frame; [|done]. intros k Hk.
      apply Hfn; [set_solver|]. intros ->. clear -Hnd Hk Hx. ss.
  - apply bwd_app. split.
    + eapply bwd_redirect; [|done|done]. intros k Hk.
      apply Hfp; [set_solver|]. intros ->. clear -Hnd Hk Hy. ss.
    + destruct l2 as [|y l2]; simpl in *; [done|].
      change (head_of s (y :: l2)) with y in *. split; [done|].
      destruct Hb2 as [_ Hb2]. eapply bwd_frame; [|done]. intros k Hk.
      apply Hfp; [set_solver|]. intros ->. clear -Hnd Hk. ss.
Qed.

(** The nodes that the move constructor of a connection leaves alone. *)
Lemma move_construct_frame st a b s f t hl l1 l2 st' :
  conns st !! b = None → nodes st !! b = None →
  conns st !! a = Some (Conn f (Some s)) → tails st !! s = Some t →
  hchain (holders st) t hl → is_list (nodes st) s (l1 ++ a :: l2) →
  move_construct b a st = Some st' →
  ∀ k, k ≠ b → k ∉ s :: l1 ++ a :: l2 → nodes st' !! k = nodes st !! k.
Proof.
  intros Hb Hnb Ha Ht Hh Hl Hm k Hkb Hk.
  pose proof (is_list_fresh _ _ _ _ Hl Hnb) as Hfr.
  assert (a ≠ b) as Hab by (intros ->; congruence).
  set (nd0 := <[b := Node b b]> (nodes st)).
  assert (is_list nd0 s ((l1 ++ [a]) ++ l2)) as Hl0.
  { rewrite <-app_assoc. simpl. eapply is_list_frame; [|done]. intros k' Hk'.
    unfold nd0. rewrite lookup_insert_ne; [done|]. intros ->. done. }
  destruct (is_list_insert nd0 s (l1 ++ [a]) l2 b) as (nd1 & Hi & Hl1 & Hn1 & Hp1);
    [done|by (unfold idle, nd0; rewrite lookup_insert_eq)|by rewrite <-app_assoc|].
  rewrite <-app_assoc in Hl1. simpl in Hl1.
  set (cs := <[b := Conn f (Some s)]> (<[a := Conn None (Some s)]> (conns st))).
  set (st1 := with_conns cs (with_nodes nd1 st)).
  destruct (disconnect_spec st1 a s None t hl l1 (b :: l2))
    as (nd' & hs' & Hd & Hl' & Hpw & Hn & Hp); [| done | done | done |].
  { unfold st1, cs. simpl. rewrite lookup_insert_ne by done.
    by rewrite lookup_insert_eq. }
  assert (move_construct b a st = disconnect a st1) as E.
  { unfold move_construct. rewrite Hb, Ha. simpl.
    rewrite construct_fresh by done. simpl. fold nd0.
    rewrite update_idle by (unfold idle, nd0; by rewrite lookup_insert_eq).
    simpl.
    assert (INode.get_next a nd0 = Some (head_of s l2)) as ->.
    { rewrite <-app_assoc in Hl0.
      destruct (is_list_mid _ _ _ _ _ Hl0) as (E & _).
      by apply fields_lookup in E as [_ ?]. }
    simpl. rewrite Hi. done. }
  rewrite E, Hd in Hm. simplify_eq. simpl.
  pose proof (last_of_elem s l1) as Hx. pose proof (head_of_elem s l2) as Hy.
  rewrite last_of_snoc in Hn1, Hp1. change (head_of s (b :: l2)) with b in *.
  apply lookup_ext_fields.
  - rewrite Hp, Hp1. unfold nd0. rewrite get_prev_insert.
    repeat case_decide; simplify_eq; try done; exfalso; apply Hk;
      clear -Hx Hy; set_solver.
  - rewrite Hn, Hn1. unfold nd0. rewrite get_next_insert.
    repeat case_decide; simplify_eq; try done; exfalso; apply Hk;
      clear -Hx Hy; set_solver.
Qed.

End MoveAssign.

(** X21. Move-assigning a live connection [a] to a connection [b] that has
    no owner: [b] takes the place, the slot and the owner of [a], and [a] is
    left idle with a null owner.  The holders are not told about the swap:
    a holder that stood on [a] is left on the temporary of the assignment,
    whose storage is gone when the assignment returns; with no holder on [a]
    the holders are unchanged. *)
Theorem move_assign_to_idle_destination (st : heap) (a b s : addr)
    (sa sb : option fid) (t : option addr) (hl l1 l2 : list addr) :
  conns st !! a = Some (Conn sa (Some s)) →
  conns st !! b = Some (Conn sb None) → idle (nodes st) b →
  tails st !! s = Some t → hchain (holders st) t hl →
  is_list (nodes st) s (l1 ++ a :: l2) →
  let tmp := fresh (dom (nodes st) ∪ dom (conns st)) in
  ∃ nd' hs',
    move_assign b a st =
      Some (Heap nd' (<[b := Conn sa (Some s)]> (<[a := Conn None None]> (conns st)))
              (tails st) hs' (trace st)) ∧
    is_list nd' s (l1 ++ b :: l2) ∧ idle nd' a ∧ nd' !! tmp = None ∧
    (∀ k, hs' !! k =
            if decide (k ∈ hl) then retarget a tmp <$> holders st !! k
            else holders st !! k) ∧
    ((∀ h hd, h ∈ hl → holders st !! h = Some hd → current hd ≠ a) →
     hs' = holders st).
Proof.
  intros Ha Hb Hib Ht Hh Hl tmp.
  assert (tmp ∉ dom (nodes st) ∪ dom (conns st)) as Hfr by apply is_fresh.
  assert (nodes st !! tmp = None ∧ conns st !! tmp = None) as [Hnt Hct].
  { split; apply not_elem_of_dom; set_solver. }
  assert (a ≠ b) as Hab by (intros ->; congruence).
  assert (tmp ≠ a ∧ tmp ≠ b) as [Hta Htb] by (split; intros ->; congruence).
  assert (b ∉ s :: l1 ++ a :: l2) as Hbl.
  { eapply idle_not_in_list; [done| |done]. by destruct l1. }
  pose proof (is_list_fresh _ _ _ _ Hl Hnt) as Htl.
  pose proof (last_of_elem s l1) as Hx. pose proof (head_of_elem s l2) as Hy.
  destruct (move_construct_spec st a tmp s sa t hl l1 l2 Hct Hnt Ha Ht Hh Hl)
    as (nd0 & nd1 & hs1 & _ & _ & Hmc & Hl1 & Hia & Hpw).
  pose proof (move_construct_frame st a tmp s sa t hl l1 l2 _ Hct Hnt Ha Ht Hh
                Hl Hmc) as Hfrm. simpl in Hfrm.
  destruct (is_list_mid _ _ _ _ _ Hl1) as (Et & Htx & Hty & Lx & Ly).
  assert (idle nd1 b) as Hib1 by (unfold idle; by rewrite Hfrm).
  destruct (swap_linked_idle nd1 tmp b (last_of s l1) (head_of s l2))
    as (nd2 & Hsw & Hn2 & Hp2); try done.
  { intros ->. apply Hbl. clear -Hx. set_solver. }
  { intros ->. apply Hbl. clear -Hy. set_solver. }
  assert (idle nd2 tmp) as Hit2 by (apply idle_fields; split; pw).
  exists (delete tmp nd2), hs1. split; [|split; [|split; [|split; [|split]]]].
  - unfold move_assign. rewrite bool_decide_eq_false_2 by done.
    fold tmp. rewrite Hmc. simpl.
    unfold swap_connection. simpl. rewrite Hsw. simpl.
    rewrite (lookup_insert_ne _ a tmp) by done. rewrite lookup_insert_eq. simpl.
    rewrite (lookup_insert_ne _ a b), (lookup_insert_ne _ tmp b), Hb by done.
    simpl. unfold destroy_connection, disconnect. simpl.
    rewrite (lookup_insert_ne _ b tmp) by done. rewrite lookup_insert_eq. simpl.
    unfold INode.destroy. rewrite remove_idle by done. simpl.
    unfold with_conns, with_nodes. simpl. do 2 f_equal.
    apply map_eq. intros k. rewrite lookup_delete, !lookup_insert.
    repeat case_decide; simplify_eq; done.
  - eapply (is_list_replace nd1 _ s l1 tmp l2 b); [done|..].
    + intros Hin. apply Hbl. clear -Hin Htb. set_solver.
    + rewrite get_next_delete. pw.
    + rewrite get_prev_delete. pw.
    + rewrite get_next_delete. pw.
      all: exfalso; apply Hbl; clear -Hx; set_solver.
    + rewrite get_prev_delete. pw.
      all: exfalso; apply Hbl; clear -Hy; set_solver.
    + intros k Hk Hkx. rewrite get_next_delete. pw.
      all: exfalso; first [ solve [apply Htl; clear -Hk; set_solver]
                          | solve [apply Hbl; clear -Hk; set_solver] ].
    + intros k Hk Hky. rewrite get_prev_delete. pw.
      all: exfalso; first [ solve [apply Htl; clear -Hk; set_solver]
                          | solve [apply Hbl; clear -Hk; set_solver] ].
  - unfold idle. rewrite lookup_delete_ne by done.
    destruct (is_list_mid _ _ _ _ _ Hl) as (_ & Hax & Hay & _).
    apply idle_fields in Hia as [? ?]. apply lookup_fields; pw.
  - by rewrite lookup_delete_eq.
  - done.
  - intros Hno. apply map_eq. intros k. rewrite Hpw. case_decide; [|done].
    destruct (holders st !! k) as [hd|] eqn:Hk; [|done]. simpl.
    rewrite retarget_other; [done|]. by eapply Hno.
Qed.

Lemma move_assign_to_idle_destination_witness :
  ∃ nd' hs',
    move_assign 20 12 demo_with_idle =
      Some (Heap nd' (<[20 := Conn (Some 2) (Some 1)]>
                        (<[12 := Conn None None]> (conns demo_with_idle)))
              (tails demo_with_idle) hs' (trace demo_with_idle)) ∧
    is_list nd' 1 [11; 20; 13] ∧ idle nd' 12 ∧
    nd' !! fresh (dom (nodes demo_with_idle) ∪ dom (conns demo_with_idle))
      = None ∧
    (∀ k, hs' !! k =
            if decide (k ∈ [])
            then retarget 12 (fresh (dom (nodes demo_with_idle)
                                       ∪ dom (conns demo_with_idle)))
                   <$> holders demo_with_idle !! k
            else holders demo_with_idle !! k) ∧
    ((∀ h hd, h ∈ [] → holders demo_with_idle !! h = Some hd →
              current hd ≠ 12) →
     hs' = holders demo_with_idle).
Proof.
  apply (move_assign_to_idle_destination demo_with_idle 12 20 1 (Some 2)
           (Some 9) None [] [11] [13]); try done; try by vm_compute.
  split; [|by vm_compute]. apply (bool_decide_unpack _). by vm_compute.
Defined.

(** X22. The holder is a scoped resource.  Pushing and popping it is a round
    trip on the heap; and a holder whose back-pointer was nulled by
    [~signal()] only goes away: its destructor does not touch any [tail]. *)
Theorem holder_is_scoped (st : heap) (h s : addr) (t : option addr) (b : addr) :
  tails st !! s = Some t → IList.begin s (nodes st) = Some b →
  holders st !! h = None →
  ∃ st1, push_holder h s st = Some st1 ∧
         tails st1 !! s = Some (Some h) ∧
         holders st1 !! h = Some (Holder t b (Some s)) ∧
         pop_holder h st1 = Some st ∧
         pop_holder h (with_holders (<[h := Holder t b None]> (holders st1)) st1)
           = Some (with_holders (holders st) st1).
Proof.
  intros Ht Hb Hh. unfold push_holder. rewrite Ht, Hb. simpl.
  eexists. split; [done|]. simpl. rewrite !lookup_insert_eq.
  split; [done|]. split; [done|]. unfold pop_holder. simpl.
  rewrite !lookup_insert_eq. simpl. rewrite lookup_insert_eq. simpl.
  unfold with_tails, with_holders. simpl.
  rewrite !insert_insert_eq, insert_id by done.
  rewrite !delete_insert_eq, delete_id by done.
  split; [by destruct st|done].
Qed.

Lemma holder_is_scoped_witness :
  ∃ st1, push_holder 0 1 demo_heap = Some st1 ∧
         tails st1 !! 1 = Some (Some 0) ∧
         holders st1 !! 0 = Some (Holder None 11 (Some 1)) ∧
         pop_holder 0 st1 = Some demo_heap ∧
         pop_holder 0 (with_holders (<[0 := Holder None 11 None]> (holders st1))
                         st1)
           = Some (with_holders (holders demo_heap) st1).
Proof.
  exact (holder_is_scoped demo_heap 0 1 None 11 eq_refl eq_refl eq_refl).
Defined.

Lemma last_of_app_cons (s y : addr) (l0 l2 : list addr) :
  last_of s (l0 ++ y :: l2) = last_of y l2.
Proof.
  revert s. induction l0 as [|z l0 IH]; intros s; simpl.
  - by rewrite last_of_cons.
  - rewrite last_of_cons. apply IH.
Qed.

(** X23. [swap] of two elements of one list that are not neighbours
    exchanges their positions and leaves the other elements where they
    are. *)
Theorem swap_exchanges_positions (nd : gmap addr node) (s a b : addr)
    (l1 l2 l3 : list addr) :
  is_list nd s (l1 ++ a :: l2 ++ b :: l3) → l2 ≠ [] →
  ∃ nd', INode.swap a b nd = Some nd' ∧
         is_list nd' s (l1 ++ b :: l2 ++ a :: l3).
Proof.
  intros Hl Hl2. destruct l2 as [|y l2]; [done|]. clear Hl2.
  pose proof Hl as (Hnd & Hf & Hb).
  destruct (is_list_mid nd s l1 a ((y :: l2) ++ b :: l3) Hl)
    as (Ea & _ & _ & Lx & Ly).
  assert (is_list nd s ((l1 ++ a :: y :: l2) ++ b :: l3)) as Hl'
    by (by rewrite <-app_assoc).
  destruct (is_list_mid nd s _ b l3 Hl') as (Eb & _ & _ & Lx' & Ly').
  change (head_of s ((y :: l2) ++ b :: l3)) with y in *.
  assert (last_of s (l1 ++ a :: y :: l2) = last_of y l2) as Elast.
  { replace (l1 ++ a :: y :: l2) with ((l1 ++ [a]) ++ y :: l2)
      by (by rewrite <-app_assoc).
    apply last_of_app_cons. }
  rewrite Elast in *.
  pose proof (last_of_elem s l1) as Hx. pose proof (head_of_elem s l3) as Hy'.
  pose proof (last_of_elem y l2) as Hx'.
  apply NoDup_cons in Hnd as [Hs Hnd].
  apply NoDup_app in Hnd as (Hn1 & Hd1 & [Ha Hnd]%NoDup_cons).
  apply NoDup_cons in Hnd as [Hyn Hnd].
  apply NoDup_app in Hnd as (Hn2 & Hd2 & [Hbn Hn3]%NoDup_cons).
  assert (a ≠ b ∧ a ≠ y ∧ b ≠ y ∧ a ≠ s ∧ b ≠ s ∧ y ≠ s) as (?&?&?&?&?&?).
  { clear -Hs Ha Hyn. set_solver. }
  assert (a ≠ last_of s l1 ∧ a ≠ last_of y l2 ∧ a ≠ head_of s l3 ∧
          b ≠ last_of s l1 ∧ b ≠ last_of y l2 ∧ b ≠ head_of s l3 ∧
          last_of s l1 ≠ last_of y l2 ∧ last_of y l2 ≠ last_of s l1 ∧
          y ≠ head_of s l3 ∧ head_of s l3 ≠ y)
    as (?&?&?&?&?&?&?&?&?&?).
  { clear -Hs Hd1 Ha Hyn Hd2 Hbn Hn3 Hx Hx' Hy' H H0 H1 H2 H3 H4.
    generalize dependent (last_of s l1). generalize dependent (last_of y l2).
    generalize dependent (head_of s l3). intros. set_solver. }
  destruct (swap_linked_apart nd a b (last_of s l1) y (last_of y l2)
              (head_of s l3)) as (nd' & Hsw & Hn & Hp); try done.
  exists nd'. split; [done|].
  apply fwd_app in Hf as [Hf1 [Hf2 Hf3]].
  change (fwd nd y (l2 ++ b :: l3) s) in Hf3. apply fwd_app in Hf3 as [Hf3 Hf4].
  apply bwd_app in Hb as [Hb1 [Hb2 Hb3]].
  change (bwd nd y (l2 ++ b :: l3) s) in Hb3. apply bwd_app in Hb3 as [Hb3 Hb4].
  assert (NoDup (s :: l1 ++ b :: (y :: l2) ++ a :: l3)) as Hnd'.
  { apply NoDup_cons. split; [clear -Hs; set_solver|].
    apply NoDup_app. split; [done|]. split; [clear -Hd1; set_solver|].
    apply NoDup_cons. split; [clear -Hbn Hd2 H H1; set_solver|].
    apply NoDup_cons. split; [clear -Hyn H0; set_solver|].
    apply NoDup_app. split; [done|]. split; [clear -Hd2 Ha; set_solver|].
    apply NoDup_cons. split; [clear -Ha; set_solver|done]. }
  assert (∀ k, k ∈ s :: l1 →
            k ≠ a ∧ k ≠ b ∧ k ≠ y ∧ k ≠ last_of y l2 ∧
            (k ≠ s → k ≠ head_of s l3)) as K1.
  { clear -Hs Hd1 Ha Hyn Hd2 Hbn Hx' Hy'.
    generalize dependent (last_of y l2). generalize dependent (head_of s l3).
    intros. set_solver. }
  assert (∀ k, k ∈ y :: l2 →
            k ≠ a ∧ k ≠ b ∧ k ≠ last_of s l1 ∧ k ≠ head_of s l3) as K2.
  { clear -Hs Hd1 Ha Hyn Hd2 Hbn Hx Hy'.
    generalize dependent (last_of s l1). generalize dependent (head_of s l3).
    intros. set_solver. }
  assert (∀ k, k ∈ l3 ++ [s] →
            k ≠ a ∧ k ≠ b ∧ k ≠ y ∧ k ≠ last_of y l2 ∧
            (k ≠ s → k ≠ last_of s l1)) as K3.
  { clear -Hs Hd1 Ha Hyn Hd2 Hbn Hx Hx'.
    generalize dependent (last_of s l1). generalize dependent (last_of y l2).
    intros. set_solver. }
  split; [done|]. split.
  - apply fwd_app. split.
    + eapply fwd_redirect; [| |by pw|done].
      * apply NoDup_cons. split; [clear -Hs; set_solver|done].
      * intros k Hk Hkl. destruct (K1 k Hk) as (?&?&?&?&?). by pw.
    + simpl. split; [by pw|]. apply fwd_app. split.
      * eapply fwd_redirect;
          [apply NoDup_cons; split; [clear -Hyn; set_solver|done]| |by pw|done].
        intros k Hk Hkl. destruct (K2 k Hk) as (?&?&?&?). by pw.
      * destruct l3 as [|z l3]; simpl in *; [by pw|].
        change (head_of s (z :: l3)) with z in *. destruct Hf4 as [_ Hf4].
        split; [by pw|]. eapply fwd_frame; [|done]. intros k Hk.
        destruct (K3 k) as (?&?&?&?&Hks); [clear -Hk; set_solver|].
        assert (k ≠ s) as Hk' by (clear -Hs Hk; set_solver).
        specialize (Hks Hk'). by pw.
  - apply bwd_app. split.
    + eapply bwd_redirect; [|by pw|done]. intros k Hk.
      destruct (K1 k) as (?&?&?&?&Hks); [clear -Hk; set_solver|].
      assert (k ≠ s) as Hk' by (clear -Hs Hk; set_solver).
      specialize (Hks Hk'). by pw.
    + simpl. split; [by pw|]. apply bwd_app. split.
      * eapply bwd_redirect; [|by pw|done]. intros k Hk.
        destruct (K2 k) as (?&?&?&?); [clear -Hk; set_solver|].
        assert (k ≠ y) as Hk' by (clear -Hyn Hk; set_solver). by pw.
      * destruct l3 as [|z l3]; simpl in *; [by pw|].
        change (head_of s (z :: l3)) with z in *. destruct Hb4 as [_ Hb4].
        split; [by pw|]. eapply bwd_frame; [|done]. intros k Hk.
        destruct (K3 k) as (?&?&?&?&?); [clear -Hk; set_solver|].
        assert (k ≠ z) as Hk'.
        { apply NoDup_cons in Hn3 as [Hz _]. clear -Hz Hs Hk. set_solver. }
        by pw.
Qed.

Lemma swap_exchanges_positions_witness :
  ∃ nd', INode.swap 11 13 demo_nodes = Some nd' ∧ is_list nd' 1 [13; 12; 11].
Proof.
  exact (swap_exchanges_positions demo_nodes 1 11 13 [] [12] [] demo_is_list
           ltac:(done)).
Defined.

(** X24. Away from the neighbours of the source, moving a node transfers its
    list membership: a node [a] linked between [x] and [y] hands its place
    to the node [b] ([x.next = b], [y.prev = b], [b.prev = x], [b.next = y])
    and becomes idle; moving an idle node leaves source and destination
    idle.  For the move constructor [b] is fresh storage; for the move
    assignment [b] is an existing node, idle or linked with reciprocal
    links, that is neither [a] nor one of [x] and [y]. *)
Theorem node_move_transfers_membership (nd : gmap addr node) (a b : addr) :
  (∀ x y, linked_between nd x a y → a ≠ x →
     (nd !! b = None →
      ∃ nd', INode.move_construct b a nd = Some nd' ∧
             linked_between nd' x b y ∧ idle nd' a) ∧
     (b ≠ a → b ≠ x → b ≠ y → (∃ p q, linked_between nd p b q) →
      ∃ nd', INode.move_assign b a nd = Some nd' ∧
             linked_between nd' x b y ∧ idle nd' a)) ∧
  (idle nd a →
     (nd !! b = None →
      ∃ nd', INode.move_construct b a nd = Some nd' ∧ idle nd' b ∧ idle nd' a) ∧
     (b ≠ a → (∃ p q, linked_between nd p b q) →
      ∃ nd', INode.move_assign b a nd = Some nd' ∧ idle nd' b ∧ idle nd' a)).
Proof.
  split.
  - intros x y Ha Hax. split.
    + intros Hb.
      pose proof (linked_between_ne _ _ _ _ Ha Hax) as Hay.
      destruct (linked_between_lookup _ _ _ _ Ha) as (Ea & Lx & Ly).
      destruct (move_construct_linked nd a b x y) as (nd' & -> & Hn & Hp); auto.
      assert (b ≠ a ∧ b ≠ x ∧ b ≠ y) as (?&?&?).
      { destruct Lx, Ly. repeat split; congruence. }
      eexists; split; [done|]. split; [|apply idle_fields].
      all: repeat split; pw.
    + intros ??? (p & q & Hb). by eapply move_assign_linked.
  - intros Ha. split.
    + intros Hb. rewrite move_construct_idle by done.
      eexists; split; [done|]. unfold idle in *.
      rewrite lookup_insert_eq. split; [done|].
      rewrite lookup_insert_ne; [done|]. intros ->. congruence.
    + intros ? (p & q & Hb). by eapply move_assign_idle.
Qed.

Lemma node_move_transfers_membership_witness :
  (∃ nd', INode.move_construct 5 2 demo_ring = Some nd' ∧
          linked_between nd' 1 5 3 ∧ idle nd' 2) ∧
  (∃ nd', INode.move_assign 4 2 demo_ring = Some nd' ∧
          linked_between nd' 1 4 3 ∧ idle nd' 2) ∧
  (∃ nd', INode.move_assign 8 2 demo_ring = Some nd' ∧
          linked_between nd' 1 8 3 ∧ idle nd' 2) ∧
  (∃ nd', INode.move_construct 5 4 demo_ring = Some nd' ∧
          idle nd' 5 ∧ idle nd' 4) ∧
  (∃ nd', INode.move_assign 6 4 demo_ring = Some nd' ∧
          idle nd' 6 ∧ idle nd' 4).
Proof.
  assert (linked_between demo_ring 1 2 3) as H2 by (by vm_compute).
  assert (idle demo_ring 4) as H4 by (by vm_compute).
  repeat split.
  - apply (proj1 (proj1 (node_move_transfers_membership demo_ring 2 5) 1 3 H2
                    ltac:(lia))).
    by vm_compute.
  - apply (proj2 (proj1 (node_move_transfers_membership demo_ring 2 4) 1 3 H2
                    ltac:(lia))); try lia.
    exists 4, 4. by vm_compute.
  - apply (proj2 (proj1 (node_move_transfers_membership demo_ring 2 8) 1 3 H2
                    ltac:(lia))); try lia.
    exists 7, 7. by vm_compute.
  - apply (proj1 (proj2 (node_move_transfers_membership demo_ring 4 5) H4)).
    by vm_compute.
  - apply (proj2 (proj2 (node_move_transfers_membership demo_ring 4 6) H4));
      [lia|].
    exists 6, 6. by vm_compute.
Defined.
